(** * curbside: a bounded-concurrency crawler and its order-preserving printer

    A shallow embedding of [curbside.go].  The program fetches a tree of
    nodes over HTTP, one goroutine per node, records every answer in a map
    from parent identifier to the list of children answers, and finally
    walks that map depth first to print the collected secrets.

    Layout of the development:
    - Part I, the model: the data, [sort.Slice] as an interface,
      [readSecretsMap], the JSON side of [fetchID], [crawl] as a transition
      system over the main loop and the fetching goroutines, schedules that
      make a run a function, [getSession] and [main], and the vocabulary of
      the statements, trees among it;
    - Part II, facts about the model: the sort, the printer, the reader, the
      loop body, the invariants of [crawl], servers that describe a tree,
      runs;
    - Part III, servers and runs used as examples;
    - Part IV, the properties of the specification, C1 to C10;
    - Part V, further properties: of the printer, of the loop and its
      channels, of the decoder, of [getSession] and [main], and of
      traversals of trees. *)

From Stdlib Require Import ZArith Ascii String List Sorted Permutation Lia.
From stdpp Require Import base tactics option list sorting strings gmap.

Local Open Scope Z_scope.

(** * Part I: the model *)

(** ** Data model *)

(** [type CurbIDResponse struct].  [Next] holds [NextWrapper.IDs]; Go's [int]
    is a 64-bit integer, and the decoder below refuses numbers outside that
    range, so [Z] values stay within it. *)
Module CurbIDResponse.
Record t := mk {
  ID : string;
  Depth : Z;
  Secret : string;
  Message : string;
  Next : list string;
  ParentID : string;
  OrderIndex : Z
}.

#[global] Instance eq_dec : EqDecision t.
Proof. solve_decision. Defined.
End CurbIDResponse.

(** [type Secret struct]. *)
Module Secret.
Record t := mk {
  ID : string;
  Value : string;
  OrderIndex : Z
}.

#[global] Instance eq_dec : EqDecision t.
Proof. solve_decision. Defined.
End Secret.

(** [map[string][]Secret]. *)
Abbreviation secrets_map := (gmap string (list Secret.t)).

(** The marker [fetchID] writes into [Secret] before decoding and that
    [crawl] and [readSecretsMap] compare against. *)
Definition NO_SECRET : string := "no".

(** ** [sort.Slice]

    [sort.Slice(secretList, less)] is library code: it permutes the slice in
    place so that no element is [less] than one before it, and promises
    nothing about the order of elements that compare equal.  The printer is
    written against that contract. *)

(** [func(i, j int) bool { return secretList[i].OrderIndex < secretList[j].OrderIndex }] *)
Definition less (a b : Secret.t) : Prop := Secret.OrderIndex a < Secret.OrderIndex b.

(** Order of a slice that [sort.Slice] has finished with. *)
Definition not_after (a b : Secret.t) : Prop := Secret.OrderIndex a <= Secret.OrderIndex b.

Global Instance less_dec : RelDecision less.
Proof. intros a b. unfold less. apply _. Defined.

Global Instance not_after_dec : RelDecision not_after.
Proof. intros a b. unfold not_after. apply _. Defined.

Class SliceSort := {
  sort_slice : list Secret.t -> list Secret.t;
  sort_slice_perm : forall l, sort_slice l ≡ₚ l;
  sort_slice_sorted : forall l, StronglySorted not_after (sort_slice l)
}.

(** Insertion sort meets that contract; the sort of the Go library falls back
    on it for a short slice.  Element [i] moves left while it is [less] than
    its left neighbour. *)
Fixpoint insert_left (x : Secret.t) (sorted_rev : list Secret.t) : list Secret.t :=
  match sorted_rev with
  | [] => [x]
  | y :: rest =>
      if decide (less x y) then y :: insert_left x rest else x :: y :: rest
  end.

(** The sorted prefix is kept reversed, so that the head is the left
    neighbour of the element being inserted. *)
Fixpoint insertion_loop (sorted_rev todo : list Secret.t) : list Secret.t :=
  match todo with
  | [] => reverse sorted_rev
  | x :: todo' => insertion_loop (insert_left x sorted_rev) todo'
  end.

Definition insertion_sort (l : list Secret.t) : list Secret.t :=
  insertion_loop [] l.

(** ** [readSecretsMap] *)

(** What one loop iteration prints for [secret] itself. *)
Definition emit (secret : Secret.t) : string :=
  if decide (Secret.Value secret ≠ "" ∧ Secret.Value secret ≠ NO_SECRET)
  then Secret.Value secret else "".

(** The [for _, secret := range secretList] loop, over the recursive call
    [rec].  The map is threaded through because [sort.Slice] sorts the
    bucket in place: a bucket visited again is found as the previous visit
    left it.  The result is the map after the loop and the text printed. *)
Fixpoint range_secrets (rec : secrets_map -> string -> option (secrets_map * string))
    (secretList : list Secret.t) (secretsMap : secrets_map)
    : option (secrets_map * string) :=
  match secretList with
  | [] => Some (secretsMap, "")
  | secret :: rest =>
      match rec secretsMap (Secret.ID secret) with
      | None => None
      | Some (m1, below) =>
          match range_secrets rec rest m1 with
          | None => None
          | Some (m2, after) => Some (m2, emit secret +:+ below +:+ after)
          end
      end
  end.

Section Printer.
Context `{SliceSort}.

(** [readSecretsMap(secretsMap, id)].  The recursion follows identifiers
    found in the map and is not bounded by the data, so the embedding
    counts call depth: [None] means the depth [fuel] was not enough. *)
Fixpoint readSecretsMap (fuel : nat) (secretsMap : secrets_map) (id : string)
    : option (secrets_map * string) :=
  match fuel with
  | O => None
  | S fuel' =>
      match secretsMap !! id with
      | None => Some (secretsMap, "")
      | Some secretList =>
          let sorted := sort_slice secretList in
          range_secrets (readSecretsMap fuel') sorted (<[id := sorted]> secretsMap)
      end
  end.
End Printer.

(** ** Response bodies and JSON

    [fetchID] lower-cases the body with [bytes.ToLower] and hands it to
    [json.Unmarshal].  Both are library code; what follows models them as far
    as [fetchID] depends on them.  Bodies are byte strings.  The model is
    exact on bodies made of ASCII bytes: on other bodies Go's [bytes.ToLower]
    also lower-cases letters outside ASCII and the decoder replaces invalid
    UTF-8 inside strings, which is left out here (such bytes pass through
    unchanged). *)

Definition code (c : ascii) : N := N_of_ascii c.

Definition between (lo hi : N) (c : ascii) : bool :=
  ((lo <=? code c) && (code c <=? hi))%N.

Definition lower_byte (c : ascii) : ascii :=
  if between 65 90 c then ascii_of_N (code c + 32) else c.

(** [bytes.ToLower] on an ASCII body. *)
Fixpoint ToLower (s : string) : string :=
  match s with
  | EmptyString => EmptyString
  | String c rest => String (lower_byte c) (ToLower rest)
  end.

Definition ascii_only (s : string) : bool :=
  forallb (fun c => (code c <? 128)%N) (list_ascii_of_string s).

(** A JSON text after reading: strings are unquoted, numbers keep their
    literal. *)
#[local] Unset Elimination Schemes.
Inductive json :=
  | JNull
  | JBool (b : bool)
  | JNumber (literal : string)
  | JString (s : string)
  | JArray (elems : list json)
  | JObject (members : list (string * json)).
#[local] Set Elimination Schemes.

(** Outcome of reading a prefix of the input: the value and the unread rest,
    a syntax error, or recursion budget used up. *)
Inductive reading (A : Type) :=
  | Read (a : A) (rest : string)
  | Invalid
  | Exhausted.
Arguments Read {A} a rest.
Arguments Invalid {A}.
Arguments Exhausted {A}.

Definition is_ws (c : ascii) : bool :=
  (code c =? 32)%N || (code c =? 9)%N || (code c =? 10)%N || (code c =? 13)%N.

Fixpoint skip_ws (s : string) : string :=
  match s with
  | String c rest => if is_ws c then skip_ws rest else s
  | EmptyString => s
  end.

Definition is_digit (c : ascii) : bool := between 48 57 c.

Definition hex_value (c : ascii) : option N :=
  if between 48 57 c then Some (code c - 48)%N
  else if between 97 102 c then Some (code c - 87)%N
  else if between 65 70 c then Some (code c - 55)%N
  else None.

(** The four hexadecimal digits after a backslash-u. *)
Definition hex4 (a b c d : ascii) : option N :=
  match hex_value a, hex_value b, hex_value c, hex_value d with
  | Some x, Some y, Some z, Some w => Some (((x * 16 + y) * 16 + z) * 16 + w)%N
  | _, _, _, _ => None
  end.

Definition byte_of (n : N) : ascii := ascii_of_N n.

(** [utf8.EncodeRune] for a code point that is not a surrogate. *)
Definition utf8 (r : N) : string :=
  (if r <? 128 then String (byte_of r) ""
   else if r <? 2048 then
     String (byte_of (192 + r / 64)) (String (byte_of (128 + r mod 64)) "")
   else if r <? 65536 then
     String (byte_of (224 + r / 4096))
       (String (byte_of (128 + (r / 64) mod 64))
          (String (byte_of (128 + r mod 64)) ""))
   else
     String (byte_of (240 + r / 262144))
       (String (byte_of (128 + (r / 4096) mod 64))
          (String (byte_of (128 + (r / 64) mod 64))
             (String (byte_of (128 + r mod 64)) ""))))%N.

Definition is_surrogate (r : N) : bool := ((55296 <=? r) && (r <=? 57343))%N.
Definition is_high (r : N) : bool := ((55296 <=? r) && (r <=? 56319))%N.
Definition is_low (r : N) : bool := ((56320 <=? r) && (r <=? 57343))%N.
Definition replacement_char : N := 65533%N.

Definition quote : ascii := "034"%char.
Definition backslash : ascii := "\"%char.

Definition simple_escape (c : ascii) : option ascii :=
  if (c =? quote)%char then Some quote
  else if (c =? backslash)%char then Some backslash
  else if (c =? "/")%char then Some "/"%char
  else if (c =? "b")%char then Some (byte_of 8)
  else if (c =? "f")%char then Some (byte_of 12)
  else if (c =? "n")%char then Some (byte_of 10)
  else if (c =? "r")%char then Some (byte_of 13)
  else if (c =? "t")%char then Some (byte_of 9)
  else None.

(** The low half of a surrogate pair written right after the high half. *)
Definition low_half (s : string) : option (N * string) :=
  match s with
  | String b (String u (String h1 (String h2 (String h3 (String h4 rest))))) =>
      if ((b =? backslash) && (u =? "u"))%char then
        match hex4 h1 h2 h3 h4 with
        | Some lo => if is_low lo then Some (lo, rest) else None
        | None => None
        end
      else None
  | _ => None
  end.

(** A string literal after its opening quote: the unquoted text and what
    follows the closing quote. *)
Fixpoint read_chars (s : string) : option (string * string) :=
  match s with
  | EmptyString => None
  | String c rest =>
      if (c =? quote)%char then Some (EmptyString, rest)
      else if (c =? backslash)%char then
        match rest with
        | EmptyString => None
        | String e rest1 =>
            if (e =? "u")%char then
              match rest1 with
              | String h1 (String h2 (String h3 (String h4 rest2))) =>
                  match hex4 h1 h2 h3 h4 with
                  | None => None
                  | Some r =>
                      if is_surrogate r then
                        match (if is_high r then low_half rest2 else None) with
                        | Some (lo, _) =>
                            (* a valid pair: the low half is six more bytes *)
                            match rest2 with
                            | String _ (String _ (String _ (String _ (String _ (String _ rest3))))) =>
                                match read_chars rest3 with
                                | Some (text, after) =>
                                    Some (utf8 (65536 + (r - 55296) * 1024 + (lo - 56320))%N +:+ text, after)
                                | None => None
                                end
                            | _ => None
                            end
                        | None =>
                            match read_chars rest2 with
                            | Some (text, after) => Some (utf8 replacement_char +:+ text, after)
                            | None => None
                            end
                        end
                      else
                        match read_chars rest2 with
                        | Some (text, after) => Some (utf8 r +:+ text, after)
                        | None => None
                        end
                  end
              | _ => None
              end
            else
              match simple_escape e with
              | None => None
              | Some d =>
                  match read_chars rest1 with
                  | Some (text, after) => Some (String d text, after)
                  | None => None
                  end
              end
        end
      else if (code c <? 32)%N then None
      else
        match read_chars rest with
        | Some (text, after) => Some (String c text, after)
        | None => None
        end
  end.

(** The longest prefix of digits, and the rest. *)
Fixpoint read_digits (s : string) : string * string :=
  match s with
  | String c rest =>
      if is_digit c then
        let '(ds, after) := read_digits rest in (String c ds, after)
      else (EmptyString, s)
  | EmptyString => (EmptyString, s)
  end.

(** At least one digit. *)
Definition read_digits1 (s : string) : option (string * string) :=
  match read_digits s with
  | (EmptyString, _) => None
  | (ds, after) => Some (ds, after)
  end.

(** The integer part of a number: a lone zero, or digits not starting with
    zero. *)
Definition read_int_part (s : string) : option (string * string) :=
  match s with
  | String c rest =>
      if (c =? "0")%char then Some (String c EmptyString, rest)
      else read_digits1 s
  | EmptyString => None
  end.

Definition read_fraction (s : string) : option (string * string) :=
  match s with
  | String c rest =>
      if (c =? ".")%char then
        match read_digits1 rest with
        | Some (ds, after) => Some (String c ds, after)
        | None => None
        end
      else Some (EmptyString, s)
  | EmptyString => Some (EmptyString, s)
  end.

Definition read_exponent (s : string) : option (string * string) :=
  match s with
  | String c rest =>
      if ((c =? "e") || (c =? "E"))%char then
        match rest with
        | String sg rest1 =>
            if ((sg =? "+") || (sg =? "-"))%char then
              match read_digits1 rest1 with
              | Some (ds, after) => Some (String c (String sg ds), after)
              | None => None
              end
            else
              match read_digits1 rest with
              | Some (ds, after) => Some (String c ds, after)
              | None => None
              end
        | EmptyString => None
        end
      else Some (EmptyString, s)
  | EmptyString => Some (EmptyString, s)
  end.

(** A number literal after its optional minus sign. *)
Definition read_unsigned (s : string) : option (string * string) :=
  match read_int_part s with
  | None => None
  | Some (i, s1) =>
      match read_fraction s1 with
      | None => None
      | Some (f, s2) =>
          match read_exponent s2 with
          | None => None
          | Some (e, s3) => Some (i +:+ f +:+ e, s3)
          end
      end
  end.

Definition read_number (s : string) : option (string * string) :=
  match s with
  | String c rest =>
      if (c =? "-")%char then
        match read_unsigned rest with
        | Some (lit, after) => Some (String c lit, after)
        | None => None
        end
      else read_unsigned s
  | EmptyString => None
  end.

(** [strip p s] removes the prefix [p] from [s]. *)
Fixpoint strip (p s : string) : option string :=
  match p, s with
  | EmptyString, _ => Some s
  | String a p', String b s' => if (a =? b)%char then strip p' s' else None
  | String _ _, EmptyString => None
  end.

Definition lift {A} (o : option (A * string)) : reading A :=
  match o with
  | Some (a, rest) => Read a rest
  | None => Invalid
  end.

(** The decoder refuses texts nested deeper than this. *)
Definition maxNestingDepth : N := 10000%N.

(** Reading one value.  [depth] counts the objects and arrays that are open;
    [fuel] bounds the recursion of the reader itself and is always supplied
    large enough (see [read_json_fuel]). *)
Fixpoint read_value (fuel : nat) (depth : N) (s : string) : reading json :=
  match fuel with
  | O => Exhausted
  | S fuel' =>
      match skip_ws s with
      | EmptyString => Invalid
      | String c rest =>
          if (c =? "{")%char then
            if (maxNestingDepth <=? depth)%N then Invalid else
            match skip_ws rest with
            | String c1 rest1 =>
                if (c1 =? "}")%char then Read (JObject []) rest1
                else
                  match read_members fuel' (N.succ depth) rest with
                  | Read ms after => Read (JObject ms) after
                  | Invalid => Invalid
                  | Exhausted => Exhausted
                  end
            | EmptyString => Invalid
            end
          else if (c =? "[")%char then
            if (maxNestingDepth <=? depth)%N then Invalid else
            match skip_ws rest with
            | String c1 rest1 =>
                if (c1 =? "]")%char then Read (JArray []) rest1
                else
                  match read_elements fuel' (N.succ depth) rest with
                  | Read es after => Read (JArray es) after
                  | Invalid => Invalid
                  | Exhausted => Exhausted
                  end
            | EmptyString => Invalid
            end
          else if (c =? quote)%char then
            match read_chars rest with
            | Some (text, after) => Read (JString text) after
            | None => Invalid
            end
          else if (c =? "t")%char then
            match strip "rue" rest with
            | Some after => Read (JBool true) after
            | None => Invalid
            end
          else if (c =? "f")%char then
            match strip "alse" rest with
            | Some after => Read (JBool false) after
            | None => Invalid
            end
          else if (c =? "n")%char then
            match strip "ull" rest with
            | Some after => Read JNull after
            | None => Invalid
            end
          else
            match read_number (String c rest) with
            | Some (lit, after) => Read (JNumber lit) after
            | None => Invalid
            end
      end
  end

(** The elements of a non-empty array, up to and including the closing
    bracket. *)
with read_elements (fuel : nat) (depth : N) (s : string) : reading (list json) :=
  match fuel with
  | O => Exhausted
  | S fuel' =>
      match read_value fuel' depth s with
      | Read v after =>
          match skip_ws after with
          | String c rest =>
              if (c =? ",")%char then
                match read_elements fuel' depth rest with
                | Read vs after' => Read (v :: vs) after'
                | Invalid => Invalid
                | Exhausted => Exhausted
                end
              else if (c =? "]")%char then Read [v] rest
              else Invalid
          | EmptyString => Invalid
          end
      | Invalid => Invalid
      | Exhausted => Exhausted
      end
  end

(** The members of a non-empty object, up to and including the closing
    brace. *)
with read_members (fuel : nat) (depth : N) (s : string)
    : reading (list (string * json)) :=
  match fuel with
  | O => Exhausted
  | S fuel' =>
      match skip_ws s with
      | String q rest =>
          if (q =? quote)%char then
            match read_chars rest with
            | Some (key, after_key) =>
                match skip_ws after_key with
                | String colon rest1 =>
                    if (colon =? ":")%char then
                      match read_value fuel' depth rest1 with
                      | Read v after =>
                          match skip_ws after with
                          | String c rest2 =>
                              if (c =? ",")%char then
                                match read_members fuel' depth rest2 with
                                | Read ms after' => Read ((key, v) :: ms) after'
                                | Invalid => Invalid
                                | Exhausted => Exhausted
                                end
                              else if (c =? "}")%char then Read [(key, v)] rest2
                              else Invalid
                          | EmptyString => Invalid
                          end
                      | Invalid => Invalid
                      | Exhausted => Exhausted
                      end
                    else Invalid
                | EmptyString => Invalid
                end
            | None => Invalid
            end
          else Invalid
      | EmptyString => Invalid
      end
  end.

(** A whole JSON text: one value, then nothing but white space. *)
Definition read_json (body : string) : reading json :=
  match read_value (2 * String.length body + 1) 0 body with
  | Read v rest =>
      match skip_ws rest with
      | EmptyString => Read v EmptyString
      | String _ _ => Invalid
      end
  | Invalid => Invalid
  | Exhausted => Exhausted
  end.

(** *** Decoding into the program's types *)

(** [json.Unmarshal(data, &nextString)]: a string, or [null], which leaves
    the variable as it is. *)
Definition unmarshal_string (old : string) (v : json) : option string :=
  match v with
  | JString s => Some s
  | JNull => Some old
  | _ => None
  end.

(** [json.Unmarshal(data, &nextList)] for a [[]string]: an array whose
    elements are strings ([null] elements stay empty strings), or [null],
    which yields the nil slice. *)
Definition unmarshal_string_list (v : json) : option (list string) :=
  match v with
  | JArray elems => mapM (unmarshal_string "") elems
  | JNull => Some []
  | _ => None
  end.

(** [func (w *NextWrapper) UnmarshalJSON(data []byte) error]: the new value
    of [w.IDs], or the error. *)
Definition NextWrapper_UnmarshalJSON (data : json) : option (list string) :=
  match unmarshal_string_list data with
  | Some nextList => Some nextList
  | None =>
      match unmarshal_string "" data with
      | Some nextString => Some [nextString]
      | None => None
      end
  end.

Fixpoint digits_value (acc : Z) (s : string) : option Z :=
  match s with
  | EmptyString => Some acc
  | String c rest =>
      if is_digit c then digits_value (acc * 10 + Z.of_N (code c - 48)) rest
      else None
  end.

(** A number literal stored into an [int]: decimal digits with an optional
    sign, within 64 bits. *)
Definition unmarshal_int (old : Z) (v : json) : option Z :=
  match v with
  | JNumber (String c rest as lit) =>
      let parsed :=
        if (c =? "-")%char
        then match rest with
             | EmptyString => None
             | _ => Z.opp <$> digits_value 0 rest
             end
        else digits_value 0 lit in
      match parsed with
      | Some z => if decide (- 2 ^ 63 <= z < 2 ^ 63) then Some z else None
      | None => None
      end
  | JNull => Some old
  | _ => None
  end.

(** Object keys are matched to fields ignoring case; Go folds the long s and
    the Kelvin sign onto the letters s and k as well. *)
Fixpoint fold_key (s : string) : string :=
  match s with
  | EmptyString => EmptyString
  | String c rest =>
      match rest with
      | String c1 rest1 =>
          if ((code c =? 197) && (code c1 =? 191))%N then String "s" (fold_key rest1)
          else
            match rest1 with
            | String c2 rest2 =>
                if ((code c =? 226) && (code c1 =? 132) && (code c2 =? 170))%N
                then String "k" (fold_key rest2)
                else String (lower_byte c) (fold_key rest)
            | EmptyString => String (lower_byte c) (fold_key rest)
            end
      | EmptyString => String (lower_byte c) EmptyString
      end
  end.

Import CurbIDResponse.

(** One member of the top-level object stored into the struct.  The fields
    [ParentID] and [OrderIndex] carry no tag, so the decoder fills them from
    keys of those names like any other field. *)
Definition store_member (r : CurbIDResponse.t) (member : string * json)
    : option CurbIDResponse.t :=
  let '(key, v) := member in
  let k := fold_key key in
  if decide (k = "id") then
    s ← unmarshal_string (ID r) v;
    Some (mk s (Depth r) (Secret r) (Message r) (Next r) (ParentID r) (OrderIndex r))
  else if decide (k = "depth") then
    z ← unmarshal_int (Depth r) v;
    Some (mk (ID r) z (Secret r) (Message r) (Next r) (ParentID r) (OrderIndex r))
  else if decide (k = "secret") then
    s ← unmarshal_string (Secret r) v;
    Some (mk (ID r) (Depth r) s (Message r) (Next r) (ParentID r) (OrderIndex r))
  else if decide (k = "message") then
    s ← unmarshal_string (Message r) v;
    Some (mk (ID r) (Depth r) (Secret r) s (Next r) (ParentID r) (OrderIndex r))
  else if decide (k = "next") then
    ids ← NextWrapper_UnmarshalJSON v;
    Some (mk (ID r) (Depth r) (Secret r) (Message r) ids (ParentID r) (OrderIndex r))
  else if decide (k = "parentid") then
    s ← unmarshal_string (ParentID r) v;
    Some (mk (ID r) (Depth r) (Secret r) (Message r) (Next r) s (OrderIndex r))
  else if decide (k = "orderindex") then
    z ← unmarshal_int (OrderIndex r) v;
    Some (mk (ID r) (Depth r) (Secret r) (Message r) (Next r) (ParentID r) z)
  else Some r.
Arguments store_member : simpl never.

Fixpoint store_members (r : CurbIDResponse.t) (members : list (string * json))
    : option CurbIDResponse.t :=
  match members with
  | [] => Some r
  | member :: rest =>
      match store_member r member with
      | Some r' => store_members r' rest
      | None => None
      end
  end.

(** [json.Unmarshal(body, &idResponse)] followed by the dereference
    [*idResponse]: [None] when [Unmarshal] returns an error and also when the
    text is [null], which sets the pointer to nil. *)
Definition json_Unmarshal (body : string) (idResponse : CurbIDResponse.t)
    : option CurbIDResponse.t :=
  match read_json body with
  | Read (JObject members) _ => store_members idResponse members
  | _ => None
  end.

(** *** [fetchID] *)

(** What the HTTP round trip of one [fetchID] call can come to. *)
Inductive http_outcome :=
  | RequestError                      (* http.NewRequest fails *)
  | TransportError                    (* client.Do fails *)
  | BodyError (status : Z)            (* ioutil.ReadAll fails *)
  | Response (status : Z) (body : string).

(** [var idResponse = new(CurbIDResponse)] with the three assignments that
    follow it. *)
Definition fresh (parentID : string) (orderIndex : Z) : CurbIDResponse.t :=
  mk "" 0 NO_SECRET "" [] parentID orderIndex.

(** [fetchID(id, session, parentID, orderIndex)] given the outcome of its
    round trip: the value sent on [resultsChan], or [None] for a panic. *)
Definition fetchID (outcome : http_outcome) (parentID : string) (orderIndex : Z)
    : option CurbIDResponse.t :=
  match outcome with
  | Response status body =>
      if decide (status ≠ 200) then None
      else json_Unmarshal (ToLower body) (fresh parentID orderIndex)
  | _ => None
  end.

(** ** [crawl]

    [crawl] runs a main loop next to the goroutines it starts, so it is
    modelled as a transition system.  A state holds the variables of [crawl],
    the two channels, and the goroutines that are inside [fetchID] or about
    to give their slot back.  Two history fields, [started] and [handled],
    are kept for stating properties; no transition reads them. *)

Definition rootID : string := "ROOT".

(** [cap(requestsChan)] and [cap(resultsChan)]. *)
Definition requestsCap : nat := 16.
Definition resultsCap : N := 8000%N.

(** A goroutine running [fetchID(id, session, parentID, orderIndex)].
    [gated] tells the two ways it is started apart: the goroutines of the
    range loop run after [requestsChan <- true] and receive from
    [requestsChan] when [fetchID] returns; the one for the start node, begun
    by [go fetchID(id, session, rootID, 0)], does neither. *)
Record fetcher := mkFetcher {
  f_id : string;
  f_parent : string;
  f_index : Z;
  gated : bool
}.

Global Instance fetcher_eq_dec : EqDecision fetcher.
Proof. solve_decision. Defined.

(** Where the main goroutine is. *)
Inductive main_pc :=
  | Receiving                 (* at [idResponse := <-resultsChan] *)
  | Ranging (idResponse : CurbIDResponse.t) (index : nat) (todo : list string)
                              (* in the range loop, before [requestsChan <- true] *)
  | Printing                  (* the loop is over, [readSecretsMap] runs *)
  | Finished (output : string)  (* [crawl] has returned; the text printed *)
  | Panicked.                 (* some goroutine panicked: the process is gone *)

Record state := mkState {
  secretsMap : secrets_map;
  fetching : Z;
  pc : main_pc;
  resultsChan : list CurbIDResponse.t;
  requestsChan : nat;
  fetchers : list fetcher;    (* goroutines inside [fetchID] *)
  leaving : nat;              (* goroutines back from [fetchID], before [<-requestsChan] *)
  started : list fetcher;     (* history: every goroutine started so far *)
  handled : list CurbIDResponse.t  (* history: every result recorded so far *)
}.

Definition alive (s : state) : Prop :=
  match pc s with
  | Finished _ | Panicked => False
  | _ => True
  end.

(** Standard output: [fmt.Print] is called by [readSecretsMap] only. *)
Definition stdout (s : state) : string :=
  match pc s with
  | Finished output => output
  | _ => ""
  end.

(** [crawl(id, session)] up to the loop: the map is empty, [fetching] is 1
    and the goroutine for [id] is running. *)
Definition init (id : string) : state :=
  let root := mkFetcher id rootID 0 false in
  mkState ∅ 1 Receiving [] 0 [root] 0 [root] [].

(** The entry appended for a result. *)
Definition collected (r : CurbIDResponse.t) : Secret.t :=
  Secret.mk (ID r) (Secret r) (OrderIndex r).

(** [value := secretsMap[idResponse.ParentID]] and
    [secretsMap[idResponse.ParentID] = append(value, Secret{...})]. *)
Definition record_result (m : secrets_map) (r : CurbIDResponse.t) : secrets_map :=
  <[ParentID r := default [] (m !! ParentID r) ++ [collected r]]> m.

(** The test that makes the loop panic on a result. *)
Definition unexpected_message (r : CurbIDResponse.t) : Prop :=
  Message r ≠ "" ∧ Depth r ≠ 0.

Global Instance unexpected_message_dec r : Decision (unexpected_message r).
Proof. unfold unexpected_message. apply _. Defined.

(** The post statement [fetching--] and the loop test [fetching > 0]. *)
Definition next_iteration (s : state) : state :=
  let n := fetching s - 1 in
  mkState (secretsMap s) n (if decide (n > 0) then Receiving else Printing)
    (resultsChan s) (requestsChan s) (fetchers s) (leaving s)
    (started s) (handled s).

(** One pass of the loop body from the receive up to the range loop, for the
    result [r] taken from the channel whose remaining content is [queue]. *)
Definition receive (s : state) (r : CurbIDResponse.t)
    (queue : list CurbIDResponse.t) : state :=
  if decide (unexpected_message r) then
    mkState (secretsMap s) (fetching s) Panicked queue (requestsChan s)
      (fetchers s) (leaving s) (started s) (handled s)
  else
    let s1 pc1 :=
      mkState (record_result (secretsMap s) r) (fetching s) pc1 queue
        (requestsChan s) (fetchers s) (leaving s) (started s) (handled s ++ [r]) in
    if decide (Secret r ≠ NO_SECRET) then next_iteration (s1 Receiving)
    else s1 (Ranging r 0 (Next r)).

(** The goroutine the range loop starts for the child [id] at [index] of the
    result [r]: its parent is [idResponse.ID]. *)
Definition child_fetcher (r : CurbIDResponse.t) (index : nat) (id : string) : fetcher :=
  mkFetcher id (ID r) (Z.of_nat index) true.

(** One pass of the range loop body: [requestsChan <- true], [fetching++]
    and the [go] statement. *)
Definition schedule (s : state) (r : CurbIDResponse.t) (index : nat)
    (id : string) (todo : list string) : state :=
  let g := child_fetcher r index id in
  mkState (secretsMap s) (fetching s + 1) (Ranging r (S index) todo)
    (resultsChan s) (S (requestsChan s)) (fetchers s ++ [g]) (leaving s)
    (started s ++ [g]) (handled s).

(** [fetchID] sends its result and returns. *)
Definition deliver (s : state) (before after : list fetcher) (g : fetcher)
    (r : CurbIDResponse.t) : state :=
  mkState (secretsMap s) (fetching s) (pc s) (resultsChan s ++ [r])
    (requestsChan s) (before ++ after)
    (if gated g then S (leaving s) else leaving s) (started s) (handled s).

Definition panic (s : state) : state :=
  mkState (secretsMap s) (fetching s) Panicked (resultsChan s)
    (requestsChan s) (fetchers s) (leaving s) (started s) (handled s).

(** [<-requestsChan] at the end of a goroutine of the range loop. *)
Definition release (s : state) : state :=
  mkState (secretsMap s) (fetching s) (pc s) (resultsChan s)
    (pred (requestsChan s)) (fetchers s) (pred (leaving s))
    (started s) (handled s).

Definition finish (s : state) (m : secrets_map) (output : string) : state :=
  mkState m (fetching s) (Finished output) (resultsChan s)
    (requestsChan s) (fetchers s) (leaving s) (started s) (handled s).

Section Crawl.
Context `{SliceSort}.

(** The servers' side: [net id outcome] when a request for [id] can come
    to [outcome]. *)
Variable net : string -> http_outcome -> Prop.

Inductive step : state -> state -> Prop :=
  | step_receive s r queue :
      pc s = Receiving ->
      resultsChan s = r :: queue ->
      step s (receive s r queue)
  | step_schedule s r index id todo :
      pc s = Ranging r index (id :: todo) ->
      (requestsChan s < requestsCap)%nat ->
      step s (schedule s r index id todo)
  | step_range_done s r index :
      pc s = Ranging r index [] ->
      step s (next_iteration s)
  | step_deliver s before g after outcome r :
      alive s ->
      fetchers s = before ++ g :: after ->
      net (f_id g) outcome ->
      fetchID outcome (f_parent g) (f_index g) = Some r ->
      (N.of_nat (length (resultsChan s)) < resultsCap)%N ->
      step s (deliver s before after g r)
  | step_fetch_panic s before g after outcome :
      alive s ->
      fetchers s = before ++ g :: after ->
      net (f_id g) outcome ->
      fetchID outcome (f_parent g) (f_index g) = None ->
      step s (panic s)
  | step_release s :
      alive s ->
      (0 < leaving s)%nat ->
      step s (release s)
  | step_print s fuel m output :
      pc s = Printing ->
      readSecretsMap fuel (secretsMap s) rootID = Some (m, output) ->
      step s (finish s m output).

(** States of a run of [crawl(id, session)]. *)
Inductive reachable (id : string) : state -> Prop :=
  | reachable_init : reachable id (init id)
  | reachable_step s s' : reachable id s -> step s s' -> reachable id s'.
End Crawl.

(** *** Running a schedule

    The transition system leaves open which goroutine moves next and what the
    servers answer.  Given both, a run is a function: [server] fixes the
    answers and a list of actions fixes the interleaving. *)

Inductive action :=
  | Main              (* the main goroutine takes its next step *)
  | Fetch (n : nat)   (* the [n]-th goroutine inside [fetchID] completes it *)
  | Release.          (* a goroutine back from [fetchID] frees its slot *)

Global Instance alive_dec s : Decision (alive s).
Proof. unfold alive. destruct (pc s); apply _. Defined.

Section Run.
Context `{SliceSort}.
Variable server : string -> http_outcome.

(** [fuel] is the depth allowed to the printer. *)
Definition act (fuel : nat) (a : action) (s : state) : option state :=
match a with
| Main =>
    match pc s with
    | Receiving =>
        match resultsChan s with
        | r :: queue => Some (receive s r queue)
        | [] => None
        end
    | Ranging r index (id :: todo) =>
        if decide (requestsChan s < requestsCap)%nat
        then Some (schedule s r index id todo) else None
    | Ranging r index [] => Some (next_iteration s)
    | Printing =>
        match readSecretsMap fuel (secretsMap s) rootID with
        | Some (m, output) => Some (finish s m output)
        | None => None
        end
    | Finished _ | Panicked => None
    end
| Fetch n =>
    if decide (alive s) then
      match fetchers s !! n with
      | Some g =>
          match fetchID (server (f_id g)) (f_parent g) (f_index g) with
          | Some r =>
              if decide (N.of_nat (length (resultsChan s)) < resultsCap)%N
              then Some (deliver s (take n (fetchers s))
                           (drop (S n) (fetchers s)) g r)
              else None
          | None => Some (panic s)
          end
      | None => None
      end
    else None
| Release =>
    if decide (alive s ∧ (0 < leaving s)%nat) then Some (release s) else None
end.

Fixpoint run (fuel : nat) (actions : list action) (s : state) : option state :=
match actions with
| [] => Some s
| a :: rest =>
    match act fuel a s with
    | Some s' => run fuel rest s'
    | None => None
    end
end.
End Run.

(** The servers that answer as [server] says. *)
Definition serves (server : string -> http_outcome) : string -> http_outcome -> Prop :=
  fun id outcome => outcome = server id.

(** *** Every interleaving

    For a given server the states of all runs can be listed by running the
    schedule function in every possible way.  A list that is closed under
    one step and holds the first state holds them all (see
    [closed_reachable]), and whether a list is closed is a computation. *)

Global Instance main_pc_eq_dec : EqDecision main_pc.
Proof. solve_decision. Defined.

Global Instance state_eq_dec : EqDecision state.
Proof. solve_decision. Defined.

Section Explore.
Context `{SliceSort}.
Variable server : string -> http_outcome.
Variable fuel : nat.

(** Every state one step away. *)
Definition successors (s : state) : list state :=
  omap (fun a => act server fuel a s)
    (Main :: Release :: (Fetch <$> seq 0 (length (fetchers s)))).

Definition insert_new (seen : list state) (s : state) : list state :=
  if bool_decide (s ∈ seen) then seen else seen ++ [s].

(** Breadth first, for at most [rounds] rounds. *)
Fixpoint explore (rounds : nat) (seen frontier : list state) : list state :=
  match rounds with
  | O => seen
  | S rounds' =>
      let next := filter (fun s => s ∉ seen)
                    (foldl insert_new [] (flat_map successors frontier)) in
      match next with
      | [] => seen
      | _ => explore rounds' (seen ++ next) next
      end
  end.

(** [all] holds the successors of its states, and the printer returns
    within [fuel] wherever it runs. *)
Definition closed (all : list state) : bool :=
  forallb (fun s =>
             forallb (fun s' => bool_decide (s' ∈ all)) (successors s)
             && match pc s with
                | Printing => bool_decide (is_Some (readSecretsMap fuel (secretsMap s) rootID))
                | _ => true
                end) all.
End Explore.

(** The output, if the traversal has completed, is [expected]. *)
Definition prints (expected : string) (s : state) : bool :=
  match pc s with
  | Finished output => bool_decide (output = expected)
  | _ => true
  end.

(** Nothing has been printed and the traversal has not completed. *)
Definition silent (s : state) : bool :=
  match pc s with
  | Finished _ => false
  | _ => true
  end.

(** ** [getSession] and [main] *)

Module Session.
Record t := mk { SessionID : string }.
End Session.

(** One member of the top-level object stored into a [Session]. *)
Definition store_session (s : Session.t) (member : string * json)
    : option Session.t :=
  let '(key, v) := member in
  if decide (fold_key key = "session") then
    Session.mk <$> unmarshal_string (Session.SessionID s) v
  else Some s.

Fixpoint store_sessions (s : Session.t) (members : list (string * json))
    : option Session.t :=
  match members with
  | [] => Some s
  | member :: rest =>
      match store_session s member with
      | Some s' => store_sessions s' rest
      | None => None
      end
  end.

(** The step of [getSession] that returned the error. *)
Inductive session_error :=
  | NewRequestFailed
  | DoFailed
  | ReadAllFailed
  | UnmarshalFailed.

(** [getSession()] given the outcome of its round trip.  The status of the
    response is not looked at.  [json.Unmarshal(body, s)] is given the
    pointer itself, so the text [null] leaves [*s] as it is and is no
    error. *)
Definition getSession (outcome : http_outcome) : session_error + string :=
  match outcome with
  | RequestError => inl NewRequestFailed
  | TransportError => inl DoFailed
  | BodyError _ => inl ReadAllFailed
  | Response _ body =>
      match read_json (ToLower body) with
      | Read (JObject members) _ =>
          match store_sessions (Session.mk "") members with
          | Some s => inr (Session.SessionID s)
          | None => inl UnmarshalFailed
          end
      | Read JNull _ => inr ""
      | _ => inl UnmarshalFailed
      end
  end.

(** What [main] does after [getSession]: print the error and return, or
    call [crawl("start", session)]. *)
Inductive main_result :=
  | PrintsError (err : session_error)
  | Crawls (id session : string).

Definition main (reply : http_outcome) : main_result :=
  match getSession reply with
  | inl err => PrintsError err
  | inr session => Crawls "start" session
  end.

(** ** Vocabulary of the statements *)

(** [part] occurs in [whole]. *)
Definition occurs_in (part whole : string) : Prop :=
  exists before after, whole = before +:+ part +:+ after.

(** A slice whose order indices strictly increase. *)
Definition listed_order (l : list Secret.t) : Prop := StronglySorted less l.

Definition same_entries (m m' : secrets_map) : Prop :=
  forall k, option_Forall2 (≡ₚ) (m !! k) (m' !! k).

(** The identifiers the walk from [rootID] calls [readSecretsMap] on. *)
Inductive reach (m : secrets_map) : string -> Prop :=
  | reach_root : reach m rootID
  | reach_entry k bucket e :
      reach m k -> m !! k = Some bucket -> e ∈ bucket ->
      reach m (Secret.ID e).

(** The servers never send a body that overwrites the parent [fetchID] was
    called with. *)
Definition keeps_lineage (net : string -> http_outcome -> Prop) : Prop :=
  forall id outcome parent index r,
    net id outcome -> fetchID outcome parent index = Some r -> ParentID r = parent.

(** The servers never send a body that overwrites the order index [fetchID]
    was called with. *)
Definition keeps_index (net : string -> http_outcome -> Prop) : Prop :=
  forall id outcome parent index r,
    net id outcome -> fetchID outcome parent index = Some r -> OrderIndex r = index.

(** The goroutines the range loop starts for a result. *)
Definition kids (r : CurbIDResponse.t) : list fetcher :=
  if decide (Secret r = NO_SECRET) then imap (child_fetcher r) (Next r) else [].

(** [r] is a result the goroutine [g] can send. *)
Definition answers (net : string -> http_outcome -> Prop)
    (g : fetcher) (r : CurbIDResponse.t) : Prop :=
  exists outcome,
    net (f_id g) outcome ∧ fetchID outcome (f_parent g) (f_index g) = Some r.

(** *** Bodies written plainly

    A descriptor as a server writes it when every string is spelled out byte
    for byte: no escape, no quote, ASCII only. *)

Definition plain_char (c : ascii) : bool :=
  ((32 <=? code c) && (code c <? 128))%N
  && negb (c =? quote)%char && negb (c =? backslash)%char.

Fixpoint plain (s : string) : bool :=
  match s with
  | EmptyString => true
  | String c rest => plain_char c && plain rest
  end.

Definition quoted (s : string) : string := String quote (s +:+ String quote "").

Fixpoint render_elements (ids : list string) : string :=
  match ids with
  | [] => ""
  | [id] => quoted id
  | id :: rest => quoted id +:+ "," +:+ render_elements rest
  end.

Definition render (id secret message : string) (children : list string) : string :=
  "{" +:+ quoted "id" +:+ ":" +:+ quoted id
  +:+ "," +:+ quoted "secret" +:+ ":" +:+ quoted secret
  +:+ "," +:+ quoted "message" +:+ ":" +:+ quoted message
  +:+ "," +:+ quoted "next" +:+ ":[" +:+ render_elements children +:+ "]}".

(** The descriptor [render] writes for a single child, with the child
    written as a bare string instead of a list. *)
Definition render_scalar (id secret message child : string) : string :=
  "{" +:+ quoted "id" +:+ ":" +:+ quoted id
  +:+ "," +:+ quoted "secret" +:+ ":" +:+ quoted secret
  +:+ "," +:+ quoted "message" +:+ ":" +:+ quoted message
  +:+ "," +:+ quoted "next" +:+ ":" +:+ quoted child +:+ "}".

(** Two outcomes that are the same, or are responses of the same status
    whose bodies, made of ASCII bytes, read once lower-cased as the same
    object but for one member named next, which holds the single child [x]
    as a bare string in the one and as the list of [x] in the other. *)
Inductive same_but_form : http_outcome -> http_outcome -> Prop :=
  | same_outcome outcome : same_but_form outcome outcome
  | scalar_for_list status body body' before key x after :
      ascii_only body = true -> ascii_only body' = true ->
      fold_key key = "next" ->
      read_json (ToLower body)
        = Read (JObject (before ++ (key, JString x) :: after)) "" ->
      read_json (ToLower body')
        = Read (JObject (before ++ (key, JArray [JString x]) :: after)) "" ->
      same_but_form (Response status body) (Response status body')
  | list_for_scalar status body body' before key x after :
      ascii_only body = true -> ascii_only body' = true ->
      fold_key key = "next" ->
      read_json (ToLower body)
        = Read (JObject (before ++ (key, JArray [JString x]) :: after)) "" ->
      read_json (ToLower body')
        = Read (JObject (before ++ (key, JString x) :: after)) "" ->
      same_but_form (Response status body) (Response status body').

(** Bodies of the examples are written with an apostrophe where the wire has
    a double quote. *)

Fixpoint wire (text : string) : string :=
  match text with
  | EmptyString => EmptyString
  | String c rest =>
      String (if (c =? "'")%char then quote else c) (wire rest)
  end.

(** *** Bodies without escapes

    Vocabulary for what lower-casing a body does to the values read
    from it. *)

(** No backslash: a text that writes no escape sequence. *)
Fixpoint escape_free (s : string) : bool :=
  match s with
  | EmptyString => true
  | String c rest => negb (c =? backslash)%char && escape_free rest
  end.

(** A JSON value with the letters of its strings, keys and number literals
    in lower case. *)
Fixpoint lower_json (v : json) : json :=
  match v with
  | JNull => JNull
  | JBool b => JBool b
  | JNumber literal => JNumber (ToLower literal)
  | JString s => JString (ToLower s)
  | JArray elems => JArray (map lower_json elems)
  | JObject members =>
      JObject (map (fun member => (ToLower member.1, lower_json member.2)) members)
  end.

(** A member with its key and its value in lower case. *)
Definition lower_member (member : string * json) : string * json :=
  (ToLower member.1, lower_json member.2).

(** A literal and the unread rest, both in lower case. *)
Definition lower_pair (p : string * string) : string * string :=
  (ToLower p.1, ToLower p.2).

(** [r'] holds the values of [r] in lower case. *)
Definition lowered (r r' : CurbIDResponse.t) : Prop :=
  ID r' = ToLower (ID r) ∧ Depth r' = Depth r
  ∧ Secret r' = ToLower (Secret r) ∧ Message r' = ToLower (Message r)
  ∧ Next r' = ToLower <$> Next r.

(** *** Walks

    Vocabulary for what [readSecretsMap] does to a map. *)

(** [k'] is the identifier of an entry filed under [k]. *)
Definition filed_below (m : secrets_map) (k k' : string) : Prop :=
  exists bucket e, m !! k = Some bucket ∧ e ∈ bucket ∧ Secret.ID e = k'.

(** No two entries of a bucket share an order index. *)
Definition no_ties (m : secrets_map) : Prop :=
  forall k bucket, m !! k = Some bucket -> NoDup (Secret.OrderIndex <$> bucket).

(** Two walks came to the same: both ran out of depth, or both returned,
    with the same text and maps that hold the same entries. *)
Definition same_walk (x x' : option (secrets_map * string)) : Prop :=
  match x, x' with
  | Some (m, out), Some (m', out') => out = out' ∧ same_entries m m'
  | None, None => True
  | _, _ => False
  end.

(** [text] is what a walk from [k] prints, in a map that holds the entries
    recorded for the results [rs]. *)
Definition walk_of `{SliceSort} (rs : list CurbIDResponse.t) (k text : string) : Prop :=
  exists fuel m m',
    same_entries (foldl record_result ∅ rs) m
    ∧ readSecretsMap fuel m k = Some (m', text).

(** Every entry ranks below the bucket it is filed in. *)
Definition ranked (rank : string -> nat) (m : secrets_map) : Prop :=
  forall k k', filed_below m k k' -> (rank k' < rank k)%nat.

(** The bucket of [k], if there is one, is sorted by order index. *)
Definition sorted_at (m : secrets_map) (k : string) : Prop :=
  forall bucket, m !! k = Some bucket -> StronglySorted not_after bucket.

(** ** Trees

    A tree of nodes as a server can describe it: each node has an
    identifier, a fragment and its children in listed order. *)
#[local] Unset Elimination Schemes.
Inductive tree := Node (id fragment : string) (children : list tree).
#[local] Set Elimination Schemes.

Definition tree_id (t : tree) : string := let 'Node id _ _ := t in id.
Definition tree_fragment (t : tree) : string := let 'Node _ fragment _ := t in fragment.
Definition tree_children (t : tree) : list tree := let 'Node _ _ children := t in children.

(** The entry recorded for the node [t] listed at position [index]. *)
Definition entry (index : nat) (t : tree) : Secret.t :=
  Secret.mk (tree_id t) (tree_fragment t) (Z.of_nat index).

Section Forest.
Context {A : Type}.
Variable f : nat -> tree -> list A.

(** [f] over the trees of a list, each with its position, from [index] on. *)
Fixpoint forest (index : nat) (ts : list tree) : list A :=
  match ts with
  | [] => []
  | t :: ts' => f index t ++ forest (S index) ts'
  end.
End Forest.

(** The entries a traversal of [t] records, each with the key it is filed
    under: that of [t] under [parent], those of its subtrees after it. *)
Fixpoint filed (parent : string) (index : nat) (t : tree) : list (string * Secret.t) :=
  match t with
  | Node id fragment children =>
      (parent, Secret.mk id fragment (Z.of_nat index)) :: forest (filed id) 0 children
  end.

(** The identifiers in [t]. *)
Fixpoint tree_ids (t : tree) : list string :=
  match t with
  | Node id _ children => id :: forest (fun _ => tree_ids) 0 children
  end.

Fixpoint height (t : tree) : nat :=
  match t with
  | Node _ _ children => S (foldr (fun c n => Nat.max (height c) n) 0%nat children)
  end.

(** The fragments of [t] depth first, children in listed order; the empty
    fragment and the marker are not printed. *)
Fixpoint depth_first (t : tree) : string :=
  match t with
  | Node id fragment children =>
      emit (Secret.mk id fragment 0)
      +:+ foldr (fun c rest => depth_first c +:+ rest) "" children
  end.

Definition depth_first_children (t : tree) : string :=
  foldr (fun c rest => depth_first c +:+ rest) "" (tree_children t).

(** The key and entry of a recorded result. *)
Definition filing (r : CurbIDResponse.t) : string * Secret.t :=
  (ParentID r, collected r).

(** The entries a bucket holds, none when the key is missing. *)
Definition bucket_of (m : secrets_map) (k : string) : list Secret.t :=
  default [] (m !! k).

(** The bucket of every node of [t] holds the entries of its children. *)
#[local] Unset Elimination Schemes.
Inductive holds (m : secrets_map) : tree -> Prop :=
  | holds_node id fragment children :
      bucket_of m id ≡ₚ imap entry children ->
      Forall (holds m) children ->
      holds m (Node id fragment children).
#[local] Set Elimination Schemes.

(** The entries of a list filed under the key [k]. *)
Abbreviation filed_under k := (filter (fun p : string * Secret.t => p.1 = k)).

(** *** Bodies

    Vocabulary for what the decoder does with the members of a body. *)

(** An element of a list [UnmarshalJSON] accepts: a string or [null]. *)
Definition string_or_null (v : json) : Prop :=
  v = JNull ∨ exists s, v = JString s.

(** No member of the object is named [name]. *)
Definition absent (name : string) (members : list (string * json)) : Prop :=
  Forall (fun member => fold_key member.1 ≠ name) members.

(** The fields of the response, by the names the decoder knows them. *)
Definition field_names : list string :=
  ["id"; "depth"; "secret"; "message"; "next"; "parentid"; "orderindex"].

(** A member the decoder passes over: its value is [null], or its name is
    that of no field. *)
Definition passed_over (member : string * json) : Prop :=
  member.2 = JNull ∨ fold_key member.1 ∉ field_names.

(** A session body as a server writes it plainly. *)
Definition render_session (token : string) : string :=
  "{" +:+ quoted "session" +:+ ":" +:+ quoted token +:+ "}".

(** *** Servers that describe a tree *)

(** A unit of work: the subtree listed at position [j_index] by the node
    [j_parent]. *)
Record job := mkJob { j_parent : string; j_index : nat; j_tree : tree }.

(** What the traversal of the subtree of a job files. *)
Definition job_filed (j : job) : list (string * Secret.t) :=
  filed (j_parent j) (j_index j) (j_tree j).

(** [g] is the goroutine of the job. *)
Definition fetcher_of (j : job) (g : fetcher) : Prop :=
  f_id g = tree_id (j_tree j) ∧ f_parent g = j_parent j
  ∧ f_index g = Z.of_nat (j_index j).

(** [r] is the result for the root of the subtree of the job. *)
Definition result_of (j : job) (r : CurbIDResponse.t) : Prop :=
  ID r = tree_id (j_tree j) ∧ Secret r = tree_fragment (j_tree j)
  ∧ Next r = tree_id <$> tree_children (j_tree j)
  ∧ ParentID r = j_parent j ∧ OrderIndex r = Z.of_nat (j_index j).

(** The jobs for the children of [c] from position [from] on. *)
Definition child_jobs (c : tree) (from : nat) : list job :=
  imap (fun k c' => mkJob (tree_id c) (from + k) c') (drop from (tree_children c)).

(** The servers describe the tree: whenever the fetch of a node succeeds,
    the result carries the identifier, the fragment and the children of the
    node, and the lineage the goroutine was given; and only nodes whose
    fragment is the marker have children. *)
#[local] Unset Elimination Schemes.
Inductive described (net : string -> http_outcome -> Prop) : tree -> Prop :=
  | described_node id fragment children :
      (forall outcome parent index r,
         net id outcome -> fetchID outcome parent index = Some r ->
         ID r = id ∧ Secret r = fragment ∧ Next r = tree_id <$> children
         ∧ ParentID r = parent ∧ OrderIndex r = index) ->
      (children ≠ [] -> fragment = NO_SECRET) ->
      Forall (described net) children ->
      described net (Node id fragment children).
#[local] Set Elimination Schemes.

(** The number of nodes. *)
Definition size (t : tree) : nat := length (tree_ids t).

(** What is left to do, as a number that every step brings down: ten for
    each node not yet fetched, eight for each goroutine inside [fetchID],
    five for each result in the channel, one for each slot to give back,
    and one or two for the main goroutine. *)
Definition work_left (t : tree) (s : state) : Z :=
  match pc s with
  | Panicked => 0
  | Finished _ => 0
  | _ =>
      10 * (Z.of_nat (size t) - Z.of_nat (length (handled s))
            - Z.of_nat (length (resultsChan s)) - Z.of_nat (length (fetchers s)))
      + 8 * Z.of_nat (length (fetchers s))
      + 5 * Z.of_nat (length (resultsChan s))
      + Z.of_nat (leaving s)
      + match pc s with Ranging _ _ _ => 2 | _ => 1 end
  end.

(** A member that names a field and holds a value the field cannot take. *)
Definition wrongly_typed (member : string * json) : Prop :=
  let name := fold_key member.1 in
  (name ∈ ["id"; "secret"; "message"; "parentid"] ∧ ¬ string_or_null member.2)
  ∨ (name ∈ ["depth"; "orderindex"] ∧ unmarshal_int 0 member.2 = None)
  ∨ (name = "next" ∧ NextWrapper_UnmarshalJSON member.2 = None).

(** * Part II: facts about the model *)

(** ** The sort *)

Lemma insert_left_perm x l : insert_left x l ≡ₚ x :: l.
Proof.
  induction l as [|y l IH]; simpl; [done|].
  case_decide; [|done].
  rewrite IH. apply Permutation_swap.
Qed.

Lemma insertion_loop_perm acc l : insertion_loop acc l ≡ₚ acc ++ l.
Proof.
  revert acc. induction l as [|x l IH]; intros acc; simpl.
  - rewrite app_nil_r. apply reverse_Permutation.
  - rewrite IH, insert_left_perm. simpl. apply Permutation_middle.
Qed.

(** The reversed prefix is sorted downwards. *)
Definition not_before (a b : Secret.t) : Prop := not_after b a.

Lemma insert_left_sorted x l :
  StronglySorted not_before l -> StronglySorted not_before (insert_left x l).
Proof.
  induction l as [|y l IH]; intros Hs; simpl.
  - repeat constructor.
  - apply StronglySorted_cons in Hs as [Hy Hl].
    case_decide as Hlt.
    + apply StronglySorted_cons. split; [|by apply IH].
      rewrite insert_left_perm. constructor; [|done].
      unfold not_before, not_after, less in *. lia.
    + apply StronglySorted_cons. split.
      * assert (not_before x y) by (unfold not_before, not_after, less in *; lia).
        constructor; [done|].
        eapply Forall_impl; [exact Hy|].
        unfold not_before, not_after in *. intros; lia.
      * by apply StronglySorted_cons.
Qed.

Lemma StronglySorted_rev_flip l :
  StronglySorted not_before l -> StronglySorted not_after (reverse l).
Proof.
  induction l as [|x l IH]; intros Hs; [constructor|].
  apply StronglySorted_cons in Hs as [Hx Hl].
  rewrite reverse_cons. apply StronglySorted_app. split_and!.
  - intros a b Ha Hb. apply list_elem_of_singleton in Hb as ->.
    rewrite elem_of_reverse in Ha. rewrite Forall_forall in Hx. exact (Hx a Ha).
  - by apply IH.
  - repeat constructor.
Qed.

Lemma insertion_loop_sorted acc l :
  StronglySorted not_before acc -> StronglySorted not_after (insertion_loop acc l).
Proof.
  revert acc. induction l as [|x l IH]; intros acc Hs; simpl.
  - by apply StronglySorted_rev_flip.
  - apply IH. by apply insert_left_sorted.
Qed.

Global Instance insertion_SliceSort : SliceSort := {|
  sort_slice := insertion_sort;
  sort_slice_perm l := insertion_loop_perm [] l;
  sort_slice_sorted l := insertion_loop_sorted [] l (SSorted_nil _)
|}.

Lemma listed_order_not_after l : listed_order l -> StronglySorted not_after l.
Proof.
  induction 1 as [|x l Hl IH Hx]; constructor; [done|].
  eapply Forall_impl; [exact Hx|]. unfold less, not_after. intros; lia.
Qed.

Lemma listed_order_index_inj l x y :
  listed_order l -> x ∈ l -> y ∈ l ->
  Secret.OrderIndex x = Secret.OrderIndex y -> x = y.
Proof.
  induction 1 as [|z l Hl IH Hz]; intros Hx Hy Heq.
  - by apply elem_of_nil in Hx.
  - rewrite Forall_forall in Hz. unfold less in Hz.
    apply elem_of_cons in Hx as [->|Hx]; apply elem_of_cons in Hy as [->|Hy].
    + done.
    + specialize (Hz _ Hy). lia.
    + specialize (Hz _ Hx). lia.
    + by apply IH.
Qed.

(** Sorting any arrival order of a bucket gives back the listed order: a
    sorted slice is determined by its elements when the indices differ. *)
Lemma sort_slice_listed `{SliceSort} arrival listed :
  arrival ≡ₚ listed -> listed_order listed -> sort_slice arrival = listed.
Proof.
  intros Hperm Hlisted.
  apply (StronglySorted_unique_strong not_after).
  - intros x y Hx Hy Hxy Hyx.
    rewrite sort_slice_perm, Hperm in Hx.
    apply (listed_order_index_inj listed); [done..|].
    unfold not_after in *. lia.
  - apply sort_slice_sorted.
  - by apply listed_order_not_after.
  - by rewrite sort_slice_perm.
Qed.

(** ** Strings and lists *)

Lemma append_nil_l (s : string) : "" +:+ s = s.
Proof. reflexivity. Qed.

Lemma append_cons c (s t : string) : String c s +:+ t = String c (s +:+ t).
Proof. reflexivity. Qed.

Lemma append_nil_r (s : string) : s +:+ "" = s.
Proof.
  induction s as [|c s IH]; [done|]. by rewrite append_cons, IH.
Qed.

Lemma append_assoc (s1 s2 s3 : string) : (s1 +:+ s2) +:+ s3 = s1 +:+ s2 +:+ s3.
Proof.
  induction s1 as [|c s1 IH]; [done|]. by rewrite !append_cons, IH.
Qed.

Lemma length_append (s1 s2 : string) :
  String.length (s1 +:+ s2) = (String.length s1 + String.length s2)%nat.
Proof.
  induction s1 as [|c s1 IH]; [done|]. rewrite append_cons. simpl. by rewrite IH.
Qed.

Lemma occurs_in_refl s : occurs_in s s.
Proof. exists "", "". by rewrite append_nil_l, append_nil_r. Qed.

Lemma occurs_in_append_l part s1 s2 : occurs_in part s1 -> occurs_in part (s1 +:+ s2).
Proof.
  intros (before & after & ->). exists before, (after +:+ s2).
  by rewrite !append_assoc.
Qed.

Lemma occurs_in_append_r part s1 s2 : occurs_in part s2 -> occurs_in part (s1 +:+ s2).
Proof.
  intros (before & after & ->). exists (s1 +:+ before), after.
  by rewrite !append_assoc.
Qed.

Lemma occurs_in_trans s1 s2 s3 : occurs_in s1 s2 -> occurs_in s2 s3 -> occurs_in s1 s3.
Proof.
  intros H12 (before & after & ->).
  by apply occurs_in_append_r, occurs_in_append_l.
Qed.

Lemma elem_of_snoc {A} (x y : A) (l : list A) : x ∈ l ++ [y] <-> x ∈ l ∨ x = y.
Proof. rewrite elem_of_app, list_elem_of_singleton. done. Qed.

Lemma filter_all {A} (P : A -> Prop) `{forall x, Decision (P x)} (l : list A) :
  Forall P l -> filter P l = l.
Proof.
  induction 1 as [|x l Hx _ IH]; [done|].
  by rewrite filter_cons_True, IH.
Qed.

Lemma filter_none {A} (P : A -> Prop) `{!forall x, Decision (P x)} (l : list A) :
  Forall (fun x => ¬ P x) l -> filter P l = [].
Proof.
  induction 1 as [|x l Hx _ IH]; [done|].
  by rewrite filter_cons_False.
Qed.

Lemma filter_agree {A} (P Q : A -> Prop) `{!forall x, Decision (P x)}
    `{!forall x, Decision (Q x)} (l : list A) :
  Forall (fun x => P x <-> Q x) l -> filter P l = filter Q l.
Proof.
  induction 1 as [|x l Hx _ IH]; [done|].
  rewrite !filter_cons, IH. repeat case_decide; tauto.
Qed.

Lemma filter_fmap_snd {A B} (P : B -> Prop) `{!forall x, Decision (P x)}
    (l : list (A * B)) :
  filter P l.*2 = (filter (fun p => P p.2) l).*2.
Proof.
  induction l as [|p l IH]; [done|].
  rewrite fmap_cons, !filter_cons, IH. by case_decide.
Qed.

Lemma filter_fmap_fst {A B} (P : A -> Prop) `{!forall x, Decision (P x)}
    (l : list (A * B)) :
  filter P l.*1 = (filter (fun p => P p.1) l).*1.
Proof.
  induction l as [|p l IH]; [done|].
  rewrite fmap_cons, !filter_cons, IH. by case_decide.
Qed.

Lemma Forall2_fst_snd {A B} (R : A -> B -> Prop) (l : list (A * B)) :
  Forall (fun p => R p.1 p.2) l -> Forall2 R l.*1 l.*2.
Proof. induction 1; by constructor. Qed.

Lemma drop_middle {A} (before after : list A) x :
  drop (S (length before)) (before ++ x :: after) = after.
Proof.
  rewrite cons_middle, app_assoc.
  apply drop_app_length'. rewrite length_app. simpl. lia.
Qed.

(** ** The printer *)

Section PrinterFacts.
Context `{SliceSort}.

Lemma range_secrets_mono
    (rec rec' : secrets_map -> string -> option (secrets_map * string)) :
  (forall m id x, rec m id = Some x -> rec' m id = Some x) ->
  forall l m x, range_secrets rec l m = Some x -> range_secrets rec' l m = Some x.
Proof.
  intros Hrec l. induction l as [|secret l IH]; intros m x; simpl; [done|].
  destruct (rec m (Secret.ID secret)) as [[m1 below]|] eqn:E; [|done].
  rewrite (Hrec _ _ _ E).
  destruct (range_secrets rec l m1) as [[m2 after]|] eqn:E2; [|done].
  by rewrite (IH _ _ E2).
Qed.

(** More depth never changes what a walk returns. *)
Lemma readSecretsMap_S fuel m id x :
  readSecretsMap fuel m id = Some x -> readSecretsMap (S fuel) m id = Some x.
Proof.
  revert m id x. induction fuel as [|fuel IH]; intros m id x; [done|].
  intros Hx. simpl in Hx |- *.
  destruct (m !! id) as [secretList|]; [|done].
  eapply range_secrets_mono; [|exact Hx]. exact IH.
Qed.

Lemma readSecretsMap_mono fuel fuel' m id x :
  (fuel <= fuel')%nat ->
  readSecretsMap fuel m id = Some x -> readSecretsMap fuel' m id = Some x.
Proof.
  induction 1 as [|fuel' _ IH]; [done|].
  intros Hx. apply readSecretsMap_S. by apply IH.
Qed.

(** The text of a completed walk does not depend on the depth allowed. *)
Lemma readSecretsMap_deterministic fuel fuel' m id x x' :
  readSecretsMap fuel m id = Some x ->
  readSecretsMap fuel' m id = Some x' -> x = x'.
Proof.
  intros Hx Hx'.
  apply (readSecretsMap_mono _ (fuel `max` fuel')) in Hx; [|lia].
  apply (readSecretsMap_mono _ (fuel `max` fuel')) in Hx'; [|lia].
  congruence.
Qed.

Lemma readSecretsMap_absent fuel m id :
  m !! id = None -> readSecretsMap (S fuel) m id = Some (m, "").
Proof. intros Hid. simpl. by rewrite Hid. Qed.
End PrinterFacts.

(** Whatever order the entries of a bucket arrived in, the walk goes through
    them in the listed order. *)
Lemma listing_order_restored `{SliceSort} fuel m p arrival listed :
  m !! p = Some arrival -> arrival ≡ₚ listed -> listed_order listed ->
  readSecretsMap (S fuel) m p
  = range_secrets (readSecretsMap fuel) listed (<[p := listed]> m).
Proof.
  intros Hp Hperm Hlisted. simpl.
  by rewrite Hp, (sort_slice_listed _ _ Hperm Hlisted).
Qed.

(** [sort.Slice] reorders buckets in place; the keys of the map and the
    entries of each bucket stay. *)

Lemma same_entries_refl m : same_entries m m.
Proof. intros k. destruct (m !! k); by constructor. Qed.

Lemma same_entries_trans m1 m2 m3 :
  same_entries m1 m2 -> same_entries m2 m3 -> same_entries m1 m3.
Proof.
  intros H12 H23 k. specialize (H12 k). specialize (H23 k).
  destruct H12 as [l1 l2 Hl|]; inversion H23; subst; constructor.
  by etrans.
Qed.

Lemma same_entries_sym m1 m2 : same_entries m1 m2 -> same_entries m2 m1.
Proof.
  intros H12 k. specialize (H12 k). destruct H12; by constructor.
Qed.

Lemma same_entries_lookup m m' k bucket :
  same_entries m m' -> m !! k = Some bucket ->
  exists bucket', m' !! k = Some bucket' ∧ bucket ≡ₚ bucket'.
Proof.
  intros Hmm Hk. specialize (Hmm k). rewrite Hk in Hmm.
  inversion Hmm; subst. eauto.
Qed.

Lemma same_entries_sorted `{SliceSort} m k bucket :
  m !! k = Some bucket -> same_entries m (<[k := sort_slice bucket]> m).
Proof.
  intros Hk k'. rewrite lookup_insert. case_decide as Hkk.
  - subst k'. rewrite Hk. constructor. symmetry. apply sort_slice_perm.
  - destruct (m !! k'); by constructor.
Qed.

Lemma range_secrets_same_entries
    (rec : secrets_map -> string -> option (secrets_map * string)) :
  (forall m id m' out, rec m id = Some (m', out) -> same_entries m m') ->
  forall l m m' out,
    range_secrets rec l m = Some (m', out) -> same_entries m m'.
Proof.
  intros Hrec l. induction l as [|secret l IH]; intros m m' out; simpl.
  - intros [= <- _]. apply same_entries_refl.
  - destruct (rec m (Secret.ID secret)) as [[m1 below]|] eqn:E; [|done].
    destruct (range_secrets rec l m1) as [[m2 after]|] eqn:E2; [|done].
    intros [= <- _]. eapply same_entries_trans; eauto.
Qed.

Lemma readSecretsMap_same_entries `{SliceSort} fuel m id m' out :
  readSecretsMap fuel m id = Some (m', out) -> same_entries m m'.
Proof.
  revert m id m' out. induction fuel as [|fuel IH]; intros m id m' out; [done|].
  simpl. destruct (m !! id) as [bucket|] eqn:Hid.
  - intros Hwalk. eapply same_entries_trans; [by apply same_entries_sorted|].
    eapply range_secrets_same_entries; [|exact Hwalk]. exact IH.
  - intros [= <- _]. apply same_entries_refl.
Qed.

Lemma reach_same_entries m m' k :
  same_entries m m' -> reach m k -> reach m' k.
Proof.
  intros Hmm. induction 1 as [|k bucket e _ IH Hk He]; [constructor|].
  destruct (same_entries_lookup _ _ _ _ Hmm Hk) as (bucket' & Hk' & Hperm).
  eapply reach_entry; [done..|]. by rewrite <- Hperm.
Qed.

(** A walk that returns has printed the fragment of every entry of its
    bucket, and has walked from each of them. *)
Lemma range_secrets_entry
    (rec : secrets_map -> string -> option (secrets_map * string)) l e :
  (forall m id m' out, rec m id = Some (m', out) -> same_entries m m') ->
  e ∈ l ->
  forall m m' out,
    range_secrets rec l m = Some (m', out) ->
    occurs_in (emit e) out
    ∧ exists m1 m1' below,
        same_entries m m1
        ∧ rec m1 (Secret.ID e) = Some (m1', below)
        ∧ occurs_in below out.
Proof.
  intros Hrec. induction l as [|secret l IH]; intros He m m' out; simpl.
  - by apply elem_of_nil in He.
  - destruct (rec m (Secret.ID secret)) as [[m1 below]|] eqn:E; [|done].
    destruct (range_secrets rec l m1) as [[m2 after]|] eqn:E2; [|done].
    intros [= <- <-].
    apply elem_of_cons in He as [->|He].
    + split.
      * apply occurs_in_append_l, occurs_in_refl.
      * exists m, m1, below. split_and!; [apply same_entries_refl|done|].
        apply occurs_in_append_r, occurs_in_append_l, occurs_in_refl.
    + destruct (IH He _ _ _ E2) as (Hemit & m3 & m3' & below3 & Hsame & Hwalk & Hocc).
      split.
      * by apply occurs_in_append_r, occurs_in_append_r.
      * exists m3, m3', below3. split_and!; [|done|].
        -- eapply same_entries_trans; [|exact Hsame]. by eapply Hrec.
        -- by apply occurs_in_append_r, occurs_in_append_r.
Qed.

Lemma readSecretsMap_entry `{SliceSort} fuel m k m' out bucket e :
  readSecretsMap fuel m k = Some (m', out) ->
  m !! k = Some bucket -> e ∈ bucket ->
  occurs_in (emit e) out
  ∧ exists fuel1 m1 m1' below,
      same_entries m m1
      ∧ readSecretsMap fuel1 m1 (Secret.ID e) = Some (m1', below)
      ∧ occurs_in below out.
Proof.
  destruct fuel as [|fuel]; [done|]. simpl. intros Hwalk Hk He.
  rewrite Hk in Hwalk.
  eapply (range_secrets_entry _ _ e) in Hwalk as (Hemit & m1 & m1' & below & Hsame & Hbelow & Hocc).
  - split; [done|]. exists fuel, m1, m1', below. split_and!; [|done..].
    eapply same_entries_trans; [|exact Hsame]. by apply same_entries_sorted.
  - intros ????. apply readSecretsMap_same_entries.
  - by rewrite sort_slice_perm.
Qed.

(** Every identifier the walk from the root can come to is walked, and what
    is printed from there is part of the output. *)
Lemma reach_walked `{SliceSort} m k :
  reach m k ->
  forall fuel m0 m0' out,
    same_entries m m0 ->
    readSecretsMap fuel m0 rootID = Some (m0', out) ->
    exists fuel1 m1 m1' below,
      same_entries m m1
      ∧ readSecretsMap fuel1 m1 k = Some (m1', below)
      ∧ occurs_in below out.
Proof.
  induction 1 as [|k bucket e _ IH Hk He]; intros fuel m0 m0' out Hsame Hwalk.
  - exists fuel, m0, m0', out. split_and!; [done..|]. apply occurs_in_refl.
  - destruct (IH _ _ _ _ Hsame Hwalk) as (fuel1 & m1 & m1' & below & Hsame1 & Hwalk1 & Hocc1).
    destruct (same_entries_lookup _ _ _ _ Hsame1 Hk) as (bucket1 & Hk1 & Hperm).
    rewrite Hperm in He.
    destruct (readSecretsMap_entry _ _ _ _ _ _ _ Hwalk1 Hk1 He)
      as (_ & fuel2 & m2 & m2' & below2 & Hsame2 & Hwalk2 & Hocc2).
    exists fuel2, m2, m2', below2. split_and!; [|done|].
    + by eapply same_entries_trans.
    + by eapply occurs_in_trans.
Qed.

(** The fragment of every entry in a bucket the walk comes to is part of
    the output. *)
Lemma reach_printed `{SliceSort} m k bucket e fuel m' out :
  reach m k -> m !! k = Some bucket -> e ∈ bucket ->
  readSecretsMap fuel m rootID = Some (m', out) ->
  occurs_in (emit e) out.
Proof.
  intros Hreach Hk He Hwalk.
  destruct (reach_walked _ _ Hreach _ _ _ _ (same_entries_refl m) Hwalk)
    as (fuel1 & m1 & m1' & below & Hsame1 & Hwalk1 & Hocc1).
  destruct (same_entries_lookup _ _ _ _ Hsame1 Hk) as (bucket1 & Hk1 & Hperm).
  rewrite Hperm in He.
  destruct (readSecretsMap_entry _ _ _ _ _ _ _ Hwalk1 Hk1 He) as [Hemit _].
  by eapply occurs_in_trans.
Qed.

(** What the printer prints for the entry of a result that holds a secret,
    the empty one included. *)
Lemma emit_secret r : Secret r ≠ NO_SECRET -> emit (collected r) = Secret r.
Proof.
  intros Hsecret. unfold emit. simpl.
  case_decide as Hprint; [done|].
  destruct (decide (Secret r = "")) as [->|Hne]; [done|].
  destruct Hprint. done.
Qed.

Lemma emit_no_secret r : Secret r = NO_SECRET -> emit (collected r) = "".
Proof.
  intros Hno. unfold emit. simpl. case_decide as Hprint; [|done].
  by destruct Hprint.
Qed.

Lemma range_secrets_never
    (rec : secrets_map -> string -> option (secrets_map * string)) l e :
  (forall m id m' out, rec m id = Some (m', out) -> same_entries m m') ->
  e ∈ l ->
  forall m,
    (forall m1, same_entries m m1 -> rec m1 (Secret.ID e) = None) ->
    range_secrets rec l m = None.
Proof.
  intros Hrec. induction l as [|secret l IH]; intros He m Hnever; simpl.
  - by apply elem_of_nil in He.
  - destruct (rec m (Secret.ID secret)) as [[m1 below]|] eqn:E; [|done].
    apply elem_of_cons in He as [->|He].
    + by rewrite (Hnever m (same_entries_refl m)) in E.
    + rewrite (IH He m1); [done|].
      intros m2 Hsame. apply Hnever.
      eapply same_entries_trans; [|exact Hsame]. by eapply Hrec.
Qed.

(** The printer has no guard against an entry filed under its own
    identifier: the walk of such a bucket does not return, whatever depth
    it is allowed. *)
Lemma own_parent_never_returns `{SliceSort} fuel :
  forall m k bucket e,
    m !! k = Some bucket -> e ∈ bucket -> Secret.ID e = k ->
    readSecretsMap fuel m k = None.
Proof.
  induction fuel as [|fuel IH]; intros m k bucket e Hk He Hid; [done|].
  simpl. rewrite Hk.
  apply (range_secrets_never _ _ e).
  - intros ????. apply readSecretsMap_same_entries.
  - by rewrite sort_slice_perm.
  - intros m1 Hsame. rewrite Hid.
    assert (same_entries m m1) as Hsame'.
    { eapply same_entries_trans; [|exact Hsame]. by apply same_entries_sorted. }
    destruct (same_entries_lookup _ _ _ _ Hsame' Hk) as (bucket1 & Hk1 & Hperm).
    eapply IH; [exact Hk1| |exact Hid]. by rewrite <- Hperm.
Qed.

(** ** The reader always returns

    Every call of the reader is on a shorter text than the call around it,
    so the recursion budget [read_json] supplies is never used up. *)

Lemma skip_ws_length s : (String.length (skip_ws s) <= String.length s)%nat.
Proof.
  induction s as [|c s IH]; simpl; [lia|]. case_match; simpl; lia.
Qed.

Lemma read_chars_shorter_aux n :
  forall s text rest,
    (String.length s <= n)%nat ->
    read_chars s = Some (text, rest) ->
    (String.length rest < String.length s)%nat.
Proof.
  induction n as [|n IH]; intros s text rest Hn.
  - destruct s; [done|simpl in Hn; lia].
  - destruct s as [|c s]; [done|]. simpl in Hn. simpl.
    repeat (case_match; try done; simplify_eq/=);
      repeat match goal with
             | E : read_chars ?s' = Some _ |- _ =>
                 apply IH in E; [|simpl in *; lia]
             end;
      intros [= _ <-]; simpl in *; lia.
Qed.

Lemma read_chars_shorter s text rest :
  read_chars s = Some (text, rest) ->
  (String.length rest < String.length s)%nat.
Proof. by apply (read_chars_shorter_aux (String.length s)). Qed.

Lemma read_digits_length s ds rest :
  read_digits s = (ds, rest) ->
  String.length s = (String.length ds + String.length rest)%nat.
Proof.
  revert ds rest. induction s as [|c s IH]; intros ds rest; simpl.
  - by intros [= <- <-].
  - case_match.
    + destruct (read_digits s) as [ds' rest'] eqn:E.
      intros [= <- <-]. simpl. by rewrite (IH _ _ eq_refl).
    + by intros [= <- <-].
Qed.

Lemma read_digits1_shorter s ds rest :
  read_digits1 s = Some (ds, rest) ->
  (String.length rest < String.length s)%nat.
Proof.
  unfold read_digits1. destruct (read_digits s) as [ds' rest'] eqn:E.
  apply read_digits_length in E. destruct ds'; [done|].
  intros [= <- <-]. simpl in E. lia.
Qed.

Lemma read_unsigned_shorter s lit rest :
  read_unsigned s = Some (lit, rest) ->
  (String.length rest < String.length s)%nat.
Proof.
  unfold read_unsigned, read_int_part, read_fraction, read_exponent.
  repeat (case_match; try done; simplify_eq/=);
    repeat match goal with
           | E : read_digits1 _ = Some _ |- _ => apply read_digits1_shorter in E
           end;
    intros [= _ <-]; simpl in *; lia.
Qed.

Lemma read_number_shorter s lit rest :
  read_number s = Some (lit, rest) ->
  (String.length rest < String.length s)%nat.
Proof.
  unfold read_number. destruct s as [|c s]; [done|].
  case_match.
  - destruct (read_unsigned s) as [[lit' rest']|] eqn:E; [|done].
    apply read_unsigned_shorter in E. intros [= _ <-]. simpl. lia.
  - apply read_unsigned_shorter.
Qed.

Lemma strip_length p s rest :
  strip p s = Some rest -> (String.length rest <= String.length s)%nat.
Proof.
  revert s. induction p as [|a p IH]; intros [|b s]; simpl; try done.
  - by intros [= <-].
  - by intros [= <-].
  - case_match; [|done]. intros Hs%IH. lia.
Qed.

Ltac shorter_facts :=
  repeat match goal with
         | E : read_chars _ = Some _ |- _ => apply read_chars_shorter in E
         | E : read_number _ = Some _ |- _ => apply read_number_shorter in E
         | E : read_unsigned _ = Some _ |- _ => apply read_unsigned_shorter in E
         | E : strip _ _ = Some _ |- _ => apply strip_length in E
         | E : skip_ws ?s = _ |- _ =>
             let H := fresh in
             pose proof (skip_ws_length s) as H; rewrite E in H; clear E
         end.

Lemma read_shorter fuel :
  (forall depth s v rest,
     read_value fuel depth s = Read v rest ->
     (String.length rest < String.length s)%nat)
  ∧ (forall depth s vs rest,
       read_elements fuel depth s = Read vs rest ->
       (String.length rest < String.length s)%nat)
  ∧ (forall depth s ms rest,
       read_members fuel depth s = Read ms rest ->
       (String.length rest < String.length s)%nat).
Proof.
  induction fuel as [|fuel (IHv & IHe & IHm)]; [done|].
  split_and!; intros depth s ? rest; simpl;
    repeat (case_match; try done; simplify_eq/=);
    repeat match goal with
           | E : read_value fuel _ _ = Read _ _ |- _ => apply IHv in E
           | E : read_elements fuel _ _ = Read _ _ |- _ => apply IHe in E
           | E : read_members fuel _ _ = Read _ _ |- _ => apply IHm in E
           end;
    shorter_facts;
    intros [= _ <-]; simpl in *; lia.
Qed.

Lemma read_not_exhausted fuel :
  (forall depth s,
     (2 * String.length s + 1 <= fuel)%nat ->
     read_value fuel depth s ≠ Exhausted)
  ∧ (forall depth s,
       (2 * String.length s + 2 <= fuel)%nat ->
       read_elements fuel depth s ≠ Exhausted)
  ∧ (forall depth s,
       (2 * String.length s + 1 <= fuel)%nat ->
       read_members fuel depth s ≠ Exhausted).
Proof.
  induction fuel as [|fuel (IHv & IHe & IHm)]; [split_and!; intros; lia|].
  destruct (read_shorter fuel) as (Sv & Se & Sm).
  split_and!; intros depth s Hfuel; simpl;
    repeat (case_match; try done; simplify_eq/=);
    repeat match goal with
           | E : read_value fuel _ _ = Read _ _ |- _ => apply Sv in E
           | E : read_elements fuel _ _ = Read _ _ |- _ => apply Se in E
           | E : read_members fuel _ _ = Read _ _ |- _ => apply Sm in E
           end;
    shorter_facts;
    repeat match goal with
           | E : read_value fuel ?d ?s' = Exhausted |- _ =>
               apply (IHv d s') in E; [done|simpl in *; lia]
           | E : read_elements fuel ?d ?s' = Exhausted |- _ =>
               apply (IHe d s') in E; [done|simpl in *; lia]
           | E : read_members fuel ?d ?s' = Exhausted |- _ =>
               apply (IHm d s') in E; [done|simpl in *; lia]
           end;
    done.
Qed.

Lemma read_json_fuel body : read_json body ≠ Exhausted.
Proof.
  unfold read_json.
  destruct (read_value _ 0 body) eqn:E; try done.
  - by case_match.
  - by apply (proj1 (read_not_exhausted _)) in E.
Qed.

(** ** Lower-casing *)

Lemma lower_byte_idemp c : lower_byte (lower_byte c) = lower_byte c.
Proof. destruct c as [[] [] [] [] [] [] [] []]; reflexivity. Qed.

Lemma ToLower_idemp body : ToLower (ToLower body) = ToLower body.
Proof.
  induction body as [|c body IH]; simpl; [done|].
  by rewrite lower_byte_idemp, IH.
Qed.

Lemma ToLower_append s1 s2 : ToLower (s1 +:+ s2) = ToLower s1 +:+ ToLower s2.
Proof.
  induction s1 as [|c s1 IH]; [done|].
  rewrite append_cons. simpl. by rewrite IH, append_cons.
Qed.

(** ** Reading a plainly written body *)

Lemma plain_char_ordinary c :
  plain_char c = true ->
  (c =? quote)%char = false ∧ (c =? backslash)%char = false
  ∧ (code c <? 32)%N = false.
Proof.
  unfold plain_char. intros Hc.
  repeat (apply andb_prop in Hc as [Hc ?]).
  split_and!; [by apply negb_true_iff..|].
  apply N.ltb_ge. by apply N.leb_le.
Qed.

Lemma read_chars_ordinary c rest :
  plain_char c = true ->
  read_chars (String c rest) =
    match read_chars rest with
    | Some (text, after) => Some (String c text, after)
    | None => None
    end.
Proof.
  intros (Hq & Hb & Hctl)%plain_char_ordinary. simpl.
  by rewrite Hq, Hb, Hctl.
Qed.

(** A plain string is read back as it stands, up to its closing quote. *)
Lemma read_chars_plain s rest :
  plain s = true -> read_chars (s +:+ String quote rest) = Some (s, rest).
Proof.
  induction s as [|c s IH]; intros Hs.
  - reflexivity.
  - simpl in Hs. apply andb_prop in Hs as [Hc Hs].
    rewrite append_cons, read_chars_ordinary, IH by done. reflexivity.
Qed.

Lemma quoted_append s rest : quoted s +:+ rest = String quote (s +:+ String quote rest).
Proof. unfold quoted. by rewrite append_cons, append_assoc. Qed.

Lemma plain_char_lower c : plain_char c = true -> plain_char (lower_byte c) = true.
Proof. destruct c as [[] [] [] [] [] [] [] []]; by vm_compute. Qed.

Lemma plain_ToLower s : plain s = true -> plain (ToLower s) = true.
Proof.
  induction s as [|c s IH]; [done|]. simpl.
  intros [Hc Hs]%andb_prop. by rewrite plain_char_lower, IH.
Qed.

Lemma ToLower_quoted s : ToLower (quoted s) = quoted (ToLower s).
Proof. unfold quoted. simpl. by rewrite ToLower_append. Qed.

Lemma ToLower_render_elements ids :
  ToLower (render_elements ids) = render_elements (ToLower <$> ids).
Proof.
  induction ids as [|id [|id' ids] IH]; [done| |].
  - apply ToLower_quoted.
  - change (render_elements (id :: id' :: ids))
      with (quoted id +:+ "," +:+ render_elements (id' :: ids)).
    by rewrite !ToLower_append, ToLower_quoted, IH.
Qed.

Lemma ToLower_render id secret message children :
  ToLower (render id secret message children)
  = render (ToLower id) (ToLower secret) (ToLower message) (ToLower <$> children).
Proof.
  unfold render.
  by rewrite !ToLower_append, !ToLower_quoted, ToLower_render_elements.
Qed.

Lemma read_value_string fuel depth s text after :
  read_chars s = Some (text, after) ->
  read_value (S fuel) depth (String quote s) = Read (JString text) after.
Proof. intros Hs. simpl. by rewrite Hs. Qed.

Lemma read_value_quoted fuel depth s rest :
  plain s = true ->
  read_value (S fuel) depth (quoted s +:+ rest) = Read (JString s) rest.
Proof.
  intros Hs. rewrite quoted_append.
  apply read_value_string. by apply read_chars_plain.
Qed.

Lemma read_elements_last fuel depth s v rest :
  read_value fuel depth s = Read v (String "]" rest) ->
  read_elements (S fuel) depth s = Read [v] rest.
Proof. intros Hv. simpl. by rewrite Hv. Qed.

Lemma read_elements_more fuel depth s v rest vs after :
  read_value fuel depth s = Read v (String "," rest) ->
  read_elements fuel depth rest = Read vs after ->
  read_elements (S fuel) depth s = Read (v :: vs) after.
Proof. intros Hv Hvs. simpl. rewrite Hv. simpl. by rewrite Hvs. Qed.

Lemma read_elements_rendered ids fuel depth rest :
  ids ≠ [] -> Forall (fun id => plain id = true) ids ->
  (length ids < fuel)%nat ->
  read_elements fuel depth (render_elements ids +:+ String "]" rest)
  = Read (JString <$> ids) rest.
Proof.
  intros Hne Hplain. revert fuel.
  induction Hplain as [|id ids Hid Hids IH]; [done|]. intros fuel Hfuel.
  destruct fuel as [|fuel]; [simpl in Hfuel; lia|].
  destruct fuel as [|fuel]; [simpl in Hfuel; lia|].
  destruct ids as [|id' ids].
  - apply read_elements_last. by apply read_value_quoted.
  - change (render_elements (id :: id' :: ids))
      with (quoted id +:+ "," +:+ render_elements (id' :: ids)).
    rewrite !append_assoc.
    eapply read_elements_more; [by apply read_value_quoted|].
    apply IH; [done|]. simpl in *. lia.
Qed.

Lemma read_value_array fuel depth c rest vs after :
  (depth < maxNestingDepth)%N ->
  (c =? "]")%char = false -> is_ws c = false ->
  read_elements fuel (N.succ depth) (String c rest) = Read vs after ->
  read_value (S fuel) depth (String "[" (String c rest)) = Read (JArray vs) after.
Proof.
  intros Hdepth Hc Hws Hvs.
  apply N.leb_gt in Hdepth.
  simpl. by rewrite Hdepth, Hws, Hc, Hvs.
Qed.

Lemma read_value_rendered_list ids fuel depth rest :
  (depth < maxNestingDepth)%N ->
  Forall (fun id => plain id = true) ids ->
  (length ids < fuel)%nat ->
  read_value (S fuel) depth ("[" +:+ render_elements ids +:+ String "]" rest)
  = Read (JArray (JString <$> ids)) rest.
Proof.
  intros Hdepth Hplain Hfuel.
  destruct ids as [|id ids].
  - apply N.leb_gt in Hdepth. simpl. by rewrite Hdepth.
  - pose proof (read_elements_rendered (id :: ids) fuel (N.succ depth) rest) as Hvs.
    assert (exists tail, render_elements (id :: ids) +:+ String "]" rest
                         = String quote tail) as [tail Htail].
    { destruct ids; simpl; unfold quoted; rewrite ?append_cons; eauto. }
    rewrite append_cons, append_nil_l, Htail in *.
    apply read_value_array; [done..|]. by apply Hvs.
Qed.

Lemma read_members_last fuel depth s key rest v after :
  read_chars s = Some (key, String ":" rest) ->
  read_value fuel depth rest = Read v (String "}" after) ->
  read_members (S fuel) depth (String quote s) = Read [(key, v)] after.
Proof. intros Hkey Hv. simpl. rewrite Hkey. simpl. by rewrite Hv. Qed.

Lemma read_members_more fuel depth s key rest v rest' ms after :
  read_chars s = Some (key, String ":" rest) ->
  read_value fuel depth rest = Read v (String "," rest') ->
  read_members fuel depth rest' = Read ms after ->
  read_members (S fuel) depth (String quote s) = Read ((key, v) :: ms) after.
Proof. intros Hkey Hv Hms. simpl. rewrite Hkey. simpl. rewrite Hv. simpl. by rewrite Hms. Qed.

Lemma read_value_object fuel depth rest ms after :
  (depth < maxNestingDepth)%N ->
  read_members fuel (N.succ depth) (String quote rest) = Read ms after ->
  read_value (S fuel) depth (String "{" (String quote rest)) = Read (JObject ms) after.
Proof.
  intros Hdepth Hms. apply N.leb_gt in Hdepth.
  simpl. by rewrite Hdepth, Hms.
Qed.

(** The text [render] writes reads back as the object it spells. *)
Lemma read_value_rendered id secret message children fuel :
  plain id = true -> plain secret = true -> plain message = true ->
  Forall (fun child => plain child = true) children ->
  (length children + 6 < fuel)%nat ->
  read_value fuel 0 (render id secret message children)
  = Read (JObject [("id", JString id); ("secret", JString secret);
                   ("message", JString message);
                   ("next", JArray (JString <$> children))]) "".
Proof.
  intros Hid Hsecret Hmessage Hchildren Hfuel.
  do 6 (destruct fuel as [|fuel]; [lia|]).
  unfold render. rewrite !quoted_append, !append_cons, !append_nil_l.
  apply read_value_object; [done|].
  eapply read_members_more;
    [by apply (read_chars_plain "id")|by apply read_value_string, read_chars_plain|].
  eapply read_members_more;
    [by apply (read_chars_plain "secret")|by apply read_value_string, read_chars_plain|].
  eapply read_members_more;
    [by apply (read_chars_plain "message")|by apply read_value_string, read_chars_plain|].
  eapply read_members_last; [by apply (read_chars_plain "next")|].
  apply (read_value_rendered_list children); [done..|lia].
Qed.

Lemma length_render_elements ids :
  (length ids <= String.length (render_elements ids))%nat.
Proof.
  induction ids as [|id [|id' ids] IH]; [done| |].
  - simpl. lia.
  - change (render_elements (id :: id' :: ids))
      with (quoted id +:+ "," +:+ render_elements (id' :: ids)).
    rewrite !length_append. simpl in *. lia.
Qed.

Lemma read_json_rendered id secret message children :
  plain id = true -> plain secret = true -> plain message = true ->
  Forall (fun child => plain child = true) children ->
  read_json (render id secret message children)
  = Read (JObject [("id", JString id); ("secret", JString secret);
                   ("message", JString message);
                   ("next", JArray (JString <$> children))]) "".
Proof.
  intros Hid Hsecret Hmessage Hchildren. unfold read_json.
  rewrite read_value_rendered; [done..|].
  pose proof (length_render_elements children).
  unfold render. rewrite !length_append. simpl. lia.
Qed.

Lemma ToLower_render_scalar id secret message child :
  ToLower (render_scalar id secret message child)
  = render_scalar (ToLower id) (ToLower secret) (ToLower message) (ToLower child).
Proof. unfold render_scalar. by rewrite !ToLower_append, !ToLower_quoted. Qed.

Lemma read_value_rendered_scalar id secret message child fuel :
  plain id = true -> plain secret = true -> plain message = true ->
  plain child = true ->
  (6 < fuel)%nat ->
  read_value fuel 0 (render_scalar id secret message child)
  = Read (JObject [("id", JString id); ("secret", JString secret);
                   ("message", JString message); ("next", JString child)]) "".
Proof.
  intros Hid Hsecret Hmessage Hchild Hfuel.
  do 6 (destruct fuel as [|fuel]; [lia|]).
  unfold render_scalar. rewrite !quoted_append, !append_cons, !append_nil_l.
  apply read_value_object; [done|].
  eapply read_members_more;
    [by apply (read_chars_plain "id")|by apply read_value_string, read_chars_plain|].
  eapply read_members_more;
    [by apply (read_chars_plain "secret")|by apply read_value_string, read_chars_plain|].
  eapply read_members_more;
    [by apply (read_chars_plain "message")|by apply read_value_string, read_chars_plain|].
  eapply read_members_last; [by apply (read_chars_plain "next")|].
  destruct fuel as [|fuel]; [lia|].
  by apply read_value_string, read_chars_plain.
Qed.

Lemma read_json_rendered_scalar id secret message child :
  plain id = true -> plain secret = true -> plain message = true ->
  plain child = true ->
  read_json (render_scalar id secret message child)
  = Read (JObject [("id", JString id); ("secret", JString secret);
                   ("message", JString message); ("next", JString child)]) "".
Proof.
  intros Hid Hsecret Hmessage Hchild. unfold read_json.
  rewrite read_value_rendered_scalar; [done..|].
  unfold render_scalar. rewrite !length_append. simpl. lia.
Qed.

(** ** Decoding *)

Lemma unmarshal_string_list_strings ids :
  unmarshal_string_list (JArray (JString <$> ids)) = Some ids.
Proof.
  simpl. induction ids as [|id ids IH]; [done|].
  rewrite fmap_cons. simpl. by rewrite IH.
Qed.

Lemma NextWrapper_strings ids :
  NextWrapper_UnmarshalJSON (JArray (JString <$> ids)) = Some ids.
Proof.
  unfold NextWrapper_UnmarshalJSON. by rewrite unmarshal_string_list_strings.
Qed.

Lemma store_member_id r x :
  store_member r ("id", JString x)
  = Some (mk x (Depth r) (Secret r) (Message r) (Next r) (ParentID r) (OrderIndex r)).
Proof. reflexivity. Qed.

Lemma store_member_secret r x :
  store_member r ("secret", JString x)
  = Some (mk (ID r) (Depth r) x (Message r) (Next r) (ParentID r) (OrderIndex r)).
Proof. reflexivity. Qed.

Lemma store_member_message r x :
  store_member r ("message", JString x)
  = Some (mk (ID r) (Depth r) (Secret r) x (Next r) (ParentID r) (OrderIndex r)).
Proof. reflexivity. Qed.

Lemma store_member_next r v ids :
  NextWrapper_UnmarshalJSON v = Some ids ->
  store_member r ("next", v)
  = Some (mk (ID r) (Depth r) (Secret r) (Message r) ids (ParentID r) (OrderIndex r)).
Proof.
  intros Hids.
  change (store_member r ("next", v))
    with (ids ← NextWrapper_UnmarshalJSON v;
          Some (mk (ID r) (Depth r) (Secret r) (Message r) ids
                  (ParentID r) (OrderIndex r))).
  by rewrite Hids.
Qed.

Ltac store_member_cases :=
  unfold store_member;
  repeat case_decide; try congruence;
  repeat match goal with
         | |- context [unmarshal_string ?old ?v] => destruct (unmarshal_string old v)
         | |- context [unmarshal_int ?old ?v] => destruct (unmarshal_int old v)
         | |- context [NextWrapper_UnmarshalJSON ?v] => destruct (NextWrapper_UnmarshalJSON v)
         end;
  simpl; try done; by intros [= <-].

Lemma store_member_Secret r key v r' :
  fold_key key ≠ "secret" -> store_member r (key, v) = Some r' ->
  Secret r' = Secret r.
Proof. intros Hkey. store_member_cases. Qed.

Lemma store_member_ParentID r key v r' :
  fold_key key ≠ "parentid" -> store_member r (key, v) = Some r' ->
  ParentID r' = ParentID r.
Proof. intros Hkey. store_member_cases. Qed.

Lemma store_member_OrderIndex r key v r' :
  fold_key key ≠ "orderindex" -> store_member r (key, v) = Some r' ->
  OrderIndex r' = OrderIndex r.
Proof. intros Hkey. store_member_cases. Qed.

Lemma store_member_ID r key v r' :
  fold_key key ≠ "id" -> store_member r (key, v) = Some r' ->
  ID r' = ID r.
Proof. intros Hkey. store_member_cases. Qed.

(** A field is left as it was when no member of the body has its name. *)
Lemma store_members_untouched {A} (field : CurbIDResponse.t -> A) (name : string) :
  (forall r key v r',
     fold_key key ≠ name -> store_member r (key, v) = Some r' ->
     field r' = field r) ->
  forall members r r',
    Forall (fun member => fold_key member.1 ≠ name) members ->
    store_members r members = Some r' ->
    field r' = field r.
Proof.
  intros Hone members. induction members as [|[key v] members IH];
    intros r r' Hkeys; simpl.
  - by intros [= <-].
  - apply Forall_cons in Hkeys as [Hkey Hkeys].
    destruct (store_member r (key, v)) as [r1|] eqn:E; [|done].
    intros Hrest. rewrite (IH _ _ Hkeys Hrest). by eapply Hone.
Qed.

Lemma fetchID_200 body parent index :
  fetchID (Response 200 body) parent index
  = json_Unmarshal (ToLower body) (fresh parent index).
Proof. reflexivity. Qed.

(** C9, amended (first part).  What [fetchID] sends is decoded from the
    lower-cased body, values and field names alike: a body and its
    lower-case form give the same result. *)
Lemma fetchID_ToLower outcome_status body parent index :
  fetchID (Response outcome_status body) parent index
  = fetchID (Response outcome_status (ToLower body)) parent index.
Proof. simpl. by rewrite ToLower_idemp. Qed.

(** What [fetchID] returns was stored, member by member, into a response
    that starts out with the marker for a secret and the lineage the
    goroutine was given. *)
Lemma fetchID_stored outcome parent index r :
  fetchID outcome parent index = Some r ->
  exists body members,
    outcome = Response 200 body
    ∧ read_json (ToLower body) = Read (JObject members) ""
    ∧ store_members (mk "" 0 NO_SECRET "" [] parent index) members = Some r.
Proof.
  destruct outcome as [| | |status body]; simpl; try done.
  case_decide as Hstatus; [done|].
  subst status.
  unfold json_Unmarshal.
  destruct (read_json (ToLower body)) as [v rest| |] eqn:Hread; try done.
  destruct v as [| | | | |members]; try done.
  intros Hstore. exists body, members. split_and!; [done| |done].
  unfold read_json in Hread |- *.
  destruct (read_value _ _ _) as [v rest'| |]; try done.
  destruct (skip_ws rest'); [|done]. by injection Hread as -> <-.
Qed.

(** Servers whose bodies name neither a parent nor an order index keep the
    lineage. *)
Lemma fetchID_lineage outcome parent index r body members :
  outcome = Response 200 body ->
  read_json (ToLower body) = Read (JObject members) "" ->
  Forall (fun member => fold_key member.1 ≠ "parentid") members ->
  Forall (fun member => fold_key member.1 ≠ "orderindex") members ->
  fetchID outcome parent index = Some r ->
  ParentID r = parent ∧ OrderIndex r = index.
Proof.
  intros -> Hread Hp Hi Hfetch.
  destruct (fetchID_stored _ _ _ _ Hfetch) as (body' & members' & [= <-] & Hread' & Hstore).
  rewrite Hread in Hread'. injection Hread' as <-.
  split.
  - by rewrite (store_members_untouched ParentID "parentid"
                  store_member_ParentID _ _ _ Hp Hstore).
  - by rewrite (store_members_untouched OrderIndex "orderindex"
                  store_member_OrderIndex _ _ _ Hi Hstore).
Qed.

(** C9, amended (second part).  When the source writes the identifier, the
    fragment, the message and the children plainly, each value [fetchID]
    sends is the lower-case form of the value written. *)
Lemma plain_body_lowercased id secret message children parent index :
  plain id = true -> plain secret = true -> plain message = true ->
  Forall (fun child => plain child = true) children ->
  fetchID (Response 200 (render id secret message children)) parent index
  = Some (mk (ToLower id) 0 (ToLower secret) (ToLower message)
            (ToLower <$> children) parent index).
Proof.
  intros Hid Hsecret Hmessage Hchildren.
  rewrite fetchID_200. unfold json_Unmarshal.
  rewrite ToLower_render, read_json_rendered;
    [|by apply plain_ToLower..|].
  - cbn [store_members].
    rewrite store_member_id, store_member_secret, store_member_message.
    by rewrite (store_member_next _ _ _ (NextWrapper_strings _)).
  - apply Forall_fmap. eapply Forall_impl; [exact Hchildren|].
    intros child. apply plain_ToLower.
Qed.

(** What [json.Unmarshal] stores for a descriptor written plainly, in
    either form of its single child. *)
Lemma json_Unmarshal_rendered_scalar id secret message child idResponse :
  plain id = true -> plain secret = true -> plain message = true ->
  plain child = true ->
  json_Unmarshal (render_scalar id secret message child) idResponse
  = Some (mk id (Depth idResponse) secret message [child]
            (ParentID idResponse) (OrderIndex idResponse)).
Proof.
  intros Hid Hsecret Hmessage Hchild.
  unfold json_Unmarshal. rewrite read_json_rendered_scalar by done.
  cbn [store_members].
  rewrite store_member_id, store_member_secret, store_member_message.
  by rewrite (store_member_next _ _ [child]).
Qed.

Lemma json_Unmarshal_rendered id secret message children idResponse :
  plain id = true -> plain secret = true -> plain message = true ->
  Forall (fun child => plain child = true) children ->
  json_Unmarshal (render id secret message children) idResponse
  = Some (mk id (Depth idResponse) secret message children
            (ParentID idResponse) (OrderIndex idResponse)).
Proof.
  intros Hid Hsecret Hmessage Hchildren.
  unfold json_Unmarshal. rewrite read_json_rendered by done.
  cbn [store_members].
  rewrite store_member_id, store_member_secret, store_member_message.
  by rewrite (store_member_next _ _ _ (NextWrapper_strings _)).
Qed.

Lemma store_member_Next r key v r' :
  fold_key key ≠ "next" -> store_member r (key, v) = Some r' ->
  Next r' = Next r.
Proof. intros Hkey. store_member_cases. Qed.

Lemma store_members_app_inv r members members' r' :
  store_members r (members ++ members') = Some r' ->
  exists r1, store_members r members = Some r1
             ∧ store_members r1 members' = Some r'.
Proof.
  revert r. induction members as [|member members IH]; intros r; simpl.
  - intros Hstore. by exists r.
  - destruct (store_member r member) as [r1|]; [apply IH|done].
Qed.

(** The last member named next decides the children: when it holds the
    value [v], the children stored are those [UnmarshalJSON] makes of
    [v]. *)
Lemma store_members_next r before key v after r' :
  fold_key key = "next" ->
  Forall (fun member => fold_key member.1 ≠ "next") after ->
  store_members r (before ++ (key, v) :: after) = Some r' ->
  NextWrapper_UnmarshalJSON v = Some (Next r').
Proof.
  intros Hkey Hafter Hstore.
  apply store_members_app_inv in Hstore as (r1 & _ & Hstore).
  simpl in Hstore.
  destruct (store_member r1 (key, v)) as [r2|] eqn:Hmember; [|done].
  rewrite (store_members_untouched Next "next" store_member_Next _ _ _ Hafter Hstore).
  revert Hmember. unfold store_member. rewrite Hkey. simpl.
  destruct (NextWrapper_UnmarshalJSON v); simpl; [|done].
  by intros [= <-].
Qed.

(** The member next stores the same children in either form. *)
Lemma store_members_either_form idResponse before key x after :
  fold_key key = "next" ->
  store_members idResponse (before ++ (key, JString x) :: after)
  = store_members idResponse (before ++ (key, JArray [JString x]) :: after).
Proof.
  intros Hkey. revert idResponse.
  induction before as [|member before IH]; intros idResponse; simpl.
  - assert (store_member idResponse (key, JString x)
            = store_member idResponse (key, JArray [JString x])) as ->; [|done].
    unfold store_member. by rewrite Hkey.
  - destruct (store_member idResponse member); [apply IH|done].
Qed.

Lemma ascii_only_append s1 s2 :
  ascii_only s1 = true -> ascii_only s2 = true -> ascii_only (s1 +:+ s2) = true.
Proof.
  unfold ascii_only. induction s1 as [|c s1 IH]; [done|]. simpl.
  intros [Hc Hs1]%andb_prop Hs2. by rewrite Hc, IH.
Qed.

Lemma plain_ascii_only s : plain s = true -> ascii_only s = true.
Proof.
  unfold ascii_only. induction s as [|c s IH]; [done|]. simpl.
  intros [Hc Hs]%andb_prop. rewrite IH by done.
  unfold plain_char in Hc. repeat (apply andb_prop in Hc as [Hc ?]).
  by rewrite andb_true_r.
Qed.

Lemma ascii_only_quoted s : plain s = true -> ascii_only (quoted s) = true.
Proof.
  intros Hs. unfold quoted.
  apply (ascii_only_append (String quote "") (s +:+ String quote "")); [done|].
  apply ascii_only_append; [by apply plain_ascii_only|done].
Qed.

Lemma ascii_only_render_scalar id secret message child :
  plain id = true -> plain secret = true -> plain message = true ->
  plain child = true ->
  ascii_only (render_scalar id secret message child) = true.
Proof.
  intros Hid Hsecret Hmessage Hchild. unfold render_scalar.
  repeat (apply ascii_only_append; [first [by apply ascii_only_quoted|done]|]).
  done.
Qed.

Lemma ascii_only_render_one id secret message child :
  plain id = true -> plain secret = true -> plain message = true ->
  plain child = true ->
  ascii_only (render id secret message [child]) = true.
Proof.
  intros Hid Hsecret Hmessage Hchild. unfold render.
  repeat (apply ascii_only_append; [first [by apply ascii_only_quoted|done]|]).
  done.
Qed.

(** The two descriptors written plainly for a single child differ in the
    form of that child only. *)
Lemma rendered_same_but_form status id secret message child :
  plain id = true -> plain secret = true -> plain message = true ->
  plain child = true ->
  same_but_form (Response status (render_scalar id secret message child))
                (Response status (render id secret message [child])).
Proof.
  intros Hid Hsecret Hmessage Hchild.
  apply (scalar_for_list status _ _
           [("id", JString (ToLower id)); ("secret", JString (ToLower secret));
            ("message", JString (ToLower message))]
           "next" (ToLower child) []).
  - by apply ascii_only_render_scalar.
  - by apply ascii_only_render_one.
  - done.
  - rewrite ToLower_render_scalar.
    by apply read_json_rendered_scalar; apply plain_ToLower.
  - rewrite ToLower_render.
    apply (read_json_rendered _ _ _ [ToLower child]); try (by apply plain_ToLower).
    repeat constructor. by apply plain_ToLower.
Qed.

Lemma same_but_form_fetchID outcome outcome' parent index :
  same_but_form outcome outcome' ->
  fetchID outcome parent index = fetchID outcome' parent index.
Proof.
  destruct 1 as [|status body body' before key x after _ _ Hkey Hread Hread'
                 |status body body' before key x after _ _ Hkey Hread Hread'];
    [done| |]; unfold fetchID; (case_decide; [done|]);
    unfold json_Unmarshal; rewrite Hread, Hread';
    [|symmetry]; by apply store_members_either_form.
Qed.

(** *** Servers that answer alike *)

Section Served.
Context `{SliceSort}.
Variables net net' : string -> http_outcome -> Prop.
Hypothesis served :
  forall id outcome, net id outcome ->
    exists outcome', net' id outcome'
      ∧ forall parent index,
          fetchID outcome parent index = fetchID outcome' parent index.

(** The loop sees the servers only through what [fetchID] returns. *)
Lemma step_served s s' : step net s s' -> step net' s s'.
Proof.
  destruct 1 as [s r q Hpc Hq|s r i c todo Hpc Hlt|s r i Hpc
    |s before g after outcome r Halive Hg Hnet Hfetch Hroom
    |s before g after outcome Halive Hg Hnet Hfetch
    |s Halive Hleaving|s fuel m out Hpc Hwalk].
  - by apply step_receive.
  - by apply step_schedule.
  - by eapply step_range_done.
  - destruct (served _ _ Hnet) as (outcome' & Hnet' & Hsame).
    apply (step_deliver net' s before g after outcome'); try done.
    by rewrite <- Hsame.
  - destruct (served _ _ Hnet) as (outcome' & Hnet' & Hsame).
    apply (step_fetch_panic net' s before g after outcome'); try done.
    by rewrite <- Hsame.
  - by apply step_release.
  - by eapply step_print.
Qed.

Lemma reachable_served id s : reachable net id s -> reachable net' id s.
Proof.
  induction 1 as [|s s' _ IH Hstep]; [constructor|].
  eapply reachable_step; [exact IH|]. by apply step_served.
Qed.
End Served.

(** ** Lower-casing and reading

    Reading commutes with lower-casing on texts without backslash. *)

Local Ltac by_bytes c := destruct c as [[] [] [] [] [] [] [] []]; reflexivity.

Lemma lower_byte_quote c : (lower_byte c =? quote)%char = (c =? quote)%char.
Proof. by_bytes c. Qed.
Lemma lower_byte_backslash c : (lower_byte c =? backslash)%char = (c =? backslash)%char.
Proof. by_bytes c. Qed.
Lemma lower_byte_control c : (code (lower_byte c) <? 32)%N = (code c <? 32)%N.
Proof. by_bytes c. Qed.
Lemma lower_byte_ws c : is_ws (lower_byte c) = is_ws c.
Proof. by_bytes c. Qed.
Lemma lower_byte_digit c : is_digit (lower_byte c) = is_digit c.
Proof. by_bytes c. Qed.
Lemma lower_byte_zero c : (lower_byte c =? "0")%char = (c =? "0")%char.
Proof. by_bytes c. Qed.
Lemma lower_byte_point c : (lower_byte c =? ".")%char = (c =? ".")%char.
Proof. by_bytes c. Qed.
Lemma lower_byte_minus c : (lower_byte c =? "-")%char = (c =? "-")%char.
Proof. by_bytes c. Qed.
Lemma lower_byte_sign c :
  ((lower_byte c =? "+") || (lower_byte c =? "-"))%char = ((c =? "+") || (c =? "-"))%char.
Proof. by_bytes c. Qed.
Lemma lower_byte_exponent c :
  ((lower_byte c =? "e") || (lower_byte c =? "E"))%char = ((c =? "e") || (c =? "E"))%char.
Proof. by_bytes c. Qed.
Lemma lower_byte_comma c : (lower_byte c =? ",")%char = (c =? ",")%char.
Proof. by_bytes c. Qed.
Lemma lower_byte_colon c : (lower_byte c =? ":")%char = (c =? ":")%char.
Proof. by_bytes c. Qed.
Lemma lower_byte_bracket c : (lower_byte c =? "]")%char = (c =? "]")%char.
Proof. by_bytes c. Qed.
Lemma lower_byte_brace c : (lower_byte c =? "}")%char = (c =? "}")%char.
Proof. by_bytes c. Qed.

Lemma lower_byte_other c : between 65 90 c = false -> lower_byte c = c.
Proof. intros Hc. unfold lower_byte. by rewrite Hc. Qed.

(** A capital letter starts no JSON value. *)
Lemma capital_starts_nothing c :
  between 65 90 c = true ->
  (c =? "{")%char = false ∧ (c =? "[")%char = false ∧ (c =? quote)%char = false
  ∧ (c =? "t")%char = false ∧ (c =? "f")%char = false ∧ (c =? "n")%char = false
  ∧ (c =? "-")%char = false ∧ (c =? "0")%char = false ∧ is_digit c = false.
Proof. destruct c as [[] [] [] [] [] [] [] []]; intros Hc; try done. Qed.

Lemma skip_ws_ToLower s : skip_ws (ToLower s) = ToLower (skip_ws s).
Proof.
  induction s as [|c s IH]; [done|]. simpl. rewrite lower_byte_ws.
  by destruct (is_ws c).
Qed.

Lemma escape_free_skip_ws s : escape_free s = true -> escape_free (skip_ws s) = true.
Proof.
  induction s as [|c s IH]; [done|]. intros Hs. simpl.
  destruct (is_ws c); [|done]. simpl in Hs. apply andb_prop in Hs as [_ Hs]. auto.
Qed.

Lemma escape_free_tail c s : escape_free (String c s) = true -> escape_free s = true.
Proof. simpl. by intros [_ Hs]%andb_prop. Qed.

(** *** String literals *)

Lemma read_chars_lower s text after :
  escape_free s = true ->
  read_chars s = Some (text, after) ->
  read_chars (ToLower s) = Some (ToLower text, ToLower after)
  ∧ escape_free after = true.
Proof.
  revert text. induction s as [|c s IH]; intros text Hs; [done|].
  simpl in Hs. apply andb_prop in Hs as [Hc Hs]. apply negb_true_iff in Hc.
  cbn [read_chars ToLower]. rewrite lower_byte_quote, lower_byte_backslash, lower_byte_control, Hc.
  destruct (c =? quote)%char.
  - intros [= <- <-]. by split.
  - destruct (code c <? 32)%N; [done|].
    destruct (read_chars s) as [[text' after']|] eqn:Hread; [|done].
    intros [= <- <-]. destruct (IH _ Hs eq_refl) as [-> Hafter]. by split.
Qed.

(** *** Number literals *)

Lemma read_digits_lower s :
  read_digits (ToLower s) = (ToLower (read_digits s).1, ToLower (read_digits s).2).
Proof.
  induction s as [|c s IH]; [done|].
  cbn [read_digits ToLower]. rewrite lower_byte_digit.
  destruct (is_digit c); [|done].
  rewrite IH. by destruct (read_digits s).
Qed.

Lemma escape_free_read_digits s :
  escape_free s = true -> escape_free (read_digits s).2 = true.
Proof.
  induction s as [|c s IH]; [done|]. intros Hs.
  cbn [read_digits]. destruct (is_digit c); [|done].
  apply escape_free_tail in Hs. specialize (IH Hs).
  by destruct (read_digits s).
Qed.

Lemma read_digits1_lower s :
  read_digits1 (ToLower s) = lower_pair <$> read_digits1 s.
Proof.
  unfold read_digits1. rewrite read_digits_lower.
  destruct (read_digits s) as [[|d ds] after]; done.
Qed.

Lemma escape_free_read_digits1 s ds after :
  escape_free s = true -> read_digits1 s = Some (ds, after) ->
  escape_free after = true.
Proof.
  intros Hs. unfold read_digits1.
  pose proof (escape_free_read_digits s Hs) as Hafter.
  destruct (read_digits s) as [[|d ds'] after']; [done|].
  by intros [= <- <-].
Qed.

Lemma read_int_part_lower s :
  read_int_part (ToLower s) = lower_pair <$> read_int_part s.
Proof.
  destruct s as [|c s]; [done|].
  unfold read_int_part. cbn [ToLower]. rewrite lower_byte_zero.
  destruct (c =? "0")%char; [done|].
  apply (read_digits1_lower (String c s)).
Qed.

Lemma escape_free_read_int_part s lit after :
  escape_free s = true -> read_int_part s = Some (lit, after) ->
  escape_free after = true.
Proof.
  destruct s as [|c s]; [done|]. intros Hs. unfold read_int_part.
  destruct (c =? "0")%char.
  - intros [= <- <-]. by eapply escape_free_tail.
  - by apply escape_free_read_digits1.
Qed.

Lemma read_fraction_lower s :
  read_fraction (ToLower s) = lower_pair <$> read_fraction s.
Proof.
  destruct s as [|c s]; [done|].
  unfold read_fraction. cbn [ToLower]. rewrite lower_byte_point.
  destruct (c =? ".")%char eqn:Hc; [|done].
  rewrite read_digits1_lower.
  destruct (read_digits1 s) as [[ds after]|]; [|done].
  apply Ascii.eqb_eq in Hc as ->. done.
Qed.

Lemma escape_free_read_fraction s lit after :
  escape_free s = true -> read_fraction s = Some (lit, after) ->
  escape_free after = true.
Proof.
  destruct s as [|c s]; [by intros _ [= <- <-]|]. intros Hs. unfold read_fraction.
  destruct (c =? ".")%char; [|by intros [= <- <-]].
  destruct (read_digits1 s) as [[ds after']|] eqn:Hds; [|done].
  intros [= <- <-]. eapply escape_free_read_digits1; [|done].
  by eapply escape_free_tail.
Qed.

Lemma read_exponent_lower s :
  read_exponent (ToLower s) = lower_pair <$> read_exponent s.
Proof.
  destruct s as [|c s]; [done|].
  unfold read_exponent. cbn [ToLower]. rewrite lower_byte_exponent.
  destruct ((c =? "e") || (c =? "E"))%char; [|done].
  destruct s as [|sg s]; [done|].
  cbn [ToLower]. rewrite lower_byte_sign.
  destruct ((sg =? "+") || (sg =? "-"))%char.
  - rewrite read_digits1_lower. by destruct (read_digits1 s) as [[ds after]|].
  - change (String (lower_byte sg) (ToLower s)) with (ToLower (String sg s)).
    rewrite (read_digits1_lower (String sg s)).
    by destruct (read_digits1 (String sg s)) as [[ds after]|].
Qed.

Lemma escape_free_read_exponent s lit after :
  escape_free s = true -> read_exponent s = Some (lit, after) ->
  escape_free after = true.
Proof.
  destruct s as [|c s]; [by intros _ [= <- <-]|]. intros Hs. unfold read_exponent.
  destruct ((c =? "e") || (c =? "E"))%char; [|by intros [= <- <-]].
  apply escape_free_tail in Hs.
  destruct s as [|sg s]; [done|].
  destruct ((sg =? "+") || (sg =? "-"))%char.
  - destruct (read_digits1 s) as [[ds after']|] eqn:Hds; [|done].
    intros [= <- <-]. eapply escape_free_read_digits1; [|done].
    by eapply escape_free_tail.
  - destruct (read_digits1 (String sg s)) as [[ds after']|] eqn:Hds; [|done].
    intros [= <- <-]. by eapply escape_free_read_digits1.
Qed.

Lemma read_unsigned_lower s :
  read_unsigned (ToLower s) = lower_pair <$> read_unsigned s.
Proof.
  unfold read_unsigned. rewrite read_int_part_lower.
  destruct (read_int_part s) as [[i s1]|]; [|done]. simpl.
  rewrite read_fraction_lower.
  destruct (read_fraction s1) as [[f s2]|]; [|done]. simpl.
  rewrite read_exponent_lower.
  destruct (read_exponent s2) as [[e s3]|]; [|done]. simpl.
  unfold lower_pair. simpl. by rewrite !ToLower_append.
Qed.

Lemma escape_free_read_unsigned s lit after :
  escape_free s = true -> read_unsigned s = Some (lit, after) ->
  escape_free after = true.
Proof.
  intros Hs. unfold read_unsigned.
  destruct (read_int_part s) as [[i s1]|] eqn:Hi; [|done].
  destruct (read_fraction s1) as [[f s2]|] eqn:Hf; [|done].
  destruct (read_exponent s2) as [[e s3]|] eqn:He; [|done].
  intros [= <- <-].
  eapply escape_free_read_exponent; [|done].
  eapply escape_free_read_fraction; [|done].
  by eapply escape_free_read_int_part.
Qed.

Lemma read_number_lower s :
  read_number (ToLower s) = lower_pair <$> read_number s.
Proof.
  destruct s as [|c s]; [done|].
  unfold read_number. cbn [ToLower]. rewrite lower_byte_minus.
  destruct (c =? "-")%char.
  - rewrite read_unsigned_lower. by destruct (read_unsigned s) as [[lit after]|].
  - apply (read_unsigned_lower (String c s)).
Qed.

Lemma escape_free_read_number s lit after :
  escape_free s = true -> read_number s = Some (lit, after) ->
  escape_free after = true.
Proof.
  destruct s as [|c s]; [done|]. intros Hs. unfold read_number.
  destruct (c =? "-")%char.
  - destruct (read_unsigned s) as [[lit' after']|] eqn:Hu; [|done].
    intros [= <- <-]. eapply escape_free_read_unsigned; [|done].
    by eapply escape_free_tail.
  - by apply escape_free_read_unsigned.
Qed.

(** *** Literal names *)

Lemma strip_lower p s after :
  ToLower p = p -> strip p s = Some after ->
  strip p (ToLower s) = Some (ToLower after).
Proof.
  revert s. induction p as [|a p IH]; intros s Hp; simpl.
  - by intros [= <-].
  - destruct s as [|b s]; [done|]. simpl.
    injection Hp as Ha Hp.
    destruct (a =? b)%char eqn:Hab; [|done].
    apply Ascii.eqb_eq in Hab as <-. rewrite Ha, Ascii.eqb_refl. by apply IH.
Qed.

Lemma escape_free_strip p s after :
  escape_free s = true -> strip p s = Some after -> escape_free after = true.
Proof.
  revert s. induction p as [|a p IH]; intros s Hs; simpl.
  - by intros [= <-].
  - destruct s as [|b s]; [done|].
    destruct (a =? b)%char; [|done]. apply IH. by eapply escape_free_tail.
Qed.

(** A capital letter starts no value. *)
Lemma read_value_capital fuel depth s c rest :
  skip_ws s = String c rest -> between 65 90 c = true ->
  read_value (S fuel) depth s = Invalid.
Proof.
  intros Hskip Hc.
  destruct (capital_starts_nothing c Hc)
    as (H1 & H2 & H3 & H4 & H5 & H6 & H7 & H8 & H9).
  cbn [read_value]. rewrite Hskip, H1, H2, H3, H4, H5, H6.
  unfold read_number. rewrite H7. unfold read_unsigned, read_int_part.
  rewrite H8. unfold read_digits1. cbn [read_digits]. by rewrite H9.
Qed.

(** *** Values

    A text without backslash that reads as a value reads, once lower-cased,
    as that value in lower case. *)
Lemma readers_lower fuel :
  (forall depth s v rest,
     escape_free s = true -> read_value fuel depth s = Read v rest ->
     read_value fuel depth (ToLower s) = Read (lower_json v) (ToLower rest)
     ∧ escape_free rest = true)
  ∧ (forall depth s vs rest,
     escape_free s = true -> read_elements fuel depth s = Read vs rest ->
     read_elements fuel depth (ToLower s) = Read (map lower_json vs) (ToLower rest)
     ∧ escape_free rest = true)
  ∧ (forall depth s ms rest,
     escape_free s = true -> read_members fuel depth s = Read ms rest ->
     read_members fuel depth (ToLower s) = Read (map lower_member ms) (ToLower rest)
     ∧ escape_free rest = true).
Proof.
  induction fuel as [|fuel (IHv & IHe & IHm)]; [by split_and!|].
  split_and!.
  - intros depth s v rest Hs Hread.
    pose proof (escape_free_skip_ws s Hs) as Hs'.
    destruct (skip_ws s) as [|c body] eqn:Hskip.
    { cbn [read_value] in Hread. by rewrite Hskip in Hread. }
    destruct (between 65 90 c) eqn:Hc.
    { by rewrite (read_value_capital _ _ _ _ _ Hskip Hc) in Hread. }
    pose proof (escape_free_tail _ _ Hs') as Hbody.
    cbn [read_value] in Hread |- *.
    rewrite skip_ws_ToLower. rewrite Hskip in Hread |- *.
    cbn [ToLower]. rewrite (lower_byte_other c Hc).
    destruct (c =? "{")%char.
    { destruct (maxNestingDepth <=? depth)%N; [done|].
      rewrite skip_ws_ToLower.
      pose proof (escape_free_skip_ws body Hbody) as Hbody'.
      destruct (skip_ws body) as [|c1 rest1]; [done|].
      cbn [ToLower]. rewrite lower_byte_brace.
      destruct (c1 =? "}")%char.
      - injection Hread as <- <-. split; [done|]. by eapply escape_free_tail.
      - destruct (read_members fuel (N.succ depth) body) as [ms after| |] eqn:Hms;
          try done.
        injection Hread as <- <-.
        destruct (IHm _ _ _ _ Hbody Hms) as [-> Hafter]. by split. }
    destruct (c =? "[")%char.
    { destruct (maxNestingDepth <=? depth)%N; [done|].
      rewrite skip_ws_ToLower.
      pose proof (escape_free_skip_ws body Hbody) as Hbody'.
      destruct (skip_ws body) as [|c1 rest1]; [done|].
      cbn [ToLower]. rewrite lower_byte_bracket.
      destruct (c1 =? "]")%char.
      - injection Hread as <- <-. split; [done|]. by eapply escape_free_tail.
      - destruct (read_elements fuel (N.succ depth) body) as [es after| |] eqn:Hes;
          try done.
        injection Hread as <- <-.
        destruct (IHe _ _ _ _ Hbody Hes) as [-> Hafter]. by split. }
    destruct (c =? quote)%char.
    { destruct (read_chars body) as [[text after]|] eqn:Htext; [|done].
      injection Hread as <- <-.
      destruct (read_chars_lower _ _ _ Hbody Htext) as [-> Hafter]. by split. }
    destruct (c =? "t")%char.
    { destruct (strip "rue" body) as [after|] eqn:Hstrip; [|done].
      injection Hread as <- <-.
      rewrite (strip_lower "rue" body after eq_refl Hstrip).
      split; [done|]. apply (escape_free_strip _ _ _ Hbody Hstrip). }
    destruct (c =? "f")%char.
    { destruct (strip "alse" body) as [after|] eqn:Hstrip; [|done].
      injection Hread as <- <-.
      rewrite (strip_lower "alse" body after eq_refl Hstrip).
      split; [done|]. apply (escape_free_strip _ _ _ Hbody Hstrip). }
    destruct (c =? "n")%char.
    { destruct (strip "ull" body) as [after|] eqn:Hstrip; [|done].
      injection Hread as <- <-.
      rewrite (strip_lower "ull" body after eq_refl Hstrip).
      split; [done|]. apply (escape_free_strip _ _ _ Hbody Hstrip). }
    destruct (read_number (String c body)) as [[lit after]|] eqn:Hnumber; [|done].
    injection Hread as <- <-.
    pose proof (read_number_lower (String c body)) as Hlower.
    cbn [ToLower] in Hlower. rewrite (lower_byte_other c Hc), Hnumber in Hlower.
    rewrite Hlower. split; [done|].
    apply (escape_free_read_number _ _ _ Hs' Hnumber).
  - intros depth s vs rest Hs Hread.
    cbn [read_elements] in Hread |- *.
    destruct (read_value fuel depth s) as [v after| |] eqn:Hv; try done.
    destruct (IHv _ _ _ _ Hs Hv) as [-> Hafter].
    rewrite skip_ws_ToLower.
    pose proof (escape_free_skip_ws after Hafter) as Hafter'.
    destruct (skip_ws after) as [|c rest1]; [done|].
    pose proof (escape_free_tail _ _ Hafter') as Hrest1.
    cbn [ToLower]. rewrite lower_byte_comma, lower_byte_bracket.
    destruct (c =? ",")%char.
    + destruct (read_elements fuel depth rest1) as [vs' after'| |] eqn:Hvs; try done.
      injection Hread as <- <-.
      destruct (IHe _ _ _ _ Hrest1 Hvs) as [-> Hafter'']. by split.
    + destruct (c =? "]")%char; [|done].
      injection Hread as <- <-. by split.
  - intros depth s ms rest Hs Hread.
    cbn [read_members] in Hread |- *.
    rewrite skip_ws_ToLower.
    pose proof (escape_free_skip_ws s Hs) as Hs'.
    destruct (skip_ws s) as [|q body]; [done|].
    pose proof (escape_free_tail _ _ Hs') as Hbody.
    cbn [ToLower]. rewrite lower_byte_quote.
    destruct (q =? quote)%char; [|done].
    destruct (read_chars body) as [[key after_key]|] eqn:Hkey; [|done].
    destruct (read_chars_lower _ _ _ Hbody Hkey) as [-> Hafter_key].
    rewrite skip_ws_ToLower.
    pose proof (escape_free_skip_ws after_key Hafter_key) as Hafter_key'.
    destruct (skip_ws after_key) as [|colon rest1]; [done|].
    pose proof (escape_free_tail _ _ Hafter_key') as Hrest1.
    cbn [ToLower]. rewrite lower_byte_colon.
    destruct (colon =? ":")%char; [|done].
    destruct (read_value fuel depth rest1) as [v after| |] eqn:Hv; try done.
    destruct (IHv _ _ _ _ Hrest1 Hv) as [-> Hafter].
    rewrite skip_ws_ToLower.
    pose proof (escape_free_skip_ws after Hafter) as Hafter'.
    destruct (skip_ws after) as [|c rest2]; [done|].
    pose proof (escape_free_tail _ _ Hafter') as Hrest2.
    cbn [ToLower]. rewrite lower_byte_comma, lower_byte_brace.
    destruct (c =? ",")%char.
    + destruct (read_members fuel depth rest2) as [ms' after'| |] eqn:Hms; try done.
      injection Hread as <- <-.
      destruct (IHm _ _ _ _ Hrest2 Hms) as [-> Hafter'']. by split.
    + destruct (c =? "}")%char; [|done].
      injection Hread as <- <-. by split.
Qed.

Lemma length_ToLower s : String.length (ToLower s) = String.length s.
Proof. induction s as [|c s IH]; simpl; congruence. Qed.

(** A body without backslash that reads as a value reads, once lower-cased,
    as that value in lower case. *)
Lemma read_json_lower body v rest :
  escape_free body = true ->
  read_json body = Read v rest ->
  read_json (ToLower body) = Read (lower_json v) "".
Proof.
  intros Hbody. unfold read_json. rewrite length_ToLower.
  destruct (read_value _ 0 body) as [v' rest'| |] eqn:Hv; try done.
  destruct (readers_lower (2 * String.length body + 1)) as (IHv & _ & _).
  destruct (IHv _ _ _ _ Hbody Hv) as [-> _].
  rewrite skip_ws_ToLower.
  destruct (skip_ws rest'); [|done].
  by intros [= <- <-].
Qed.

(** *** Decoding *)

Lemma lower_byte_197 c : (code (lower_byte c) =? 197)%N = (code c =? 197)%N.
Proof. by_bytes c. Qed.
Lemma lower_byte_191 c : (code (lower_byte c) =? 191)%N = (code c =? 191)%N.
Proof. by_bytes c. Qed.
Lemma lower_byte_226 c : (code (lower_byte c) =? 226)%N = (code c =? 226)%N.
Proof. by_bytes c. Qed.
Lemma lower_byte_132 c : (code (lower_byte c) =? 132)%N = (code c =? 132)%N.
Proof. by_bytes c. Qed.
Lemma lower_byte_170 c : (code (lower_byte c) =? 170)%N = (code c =? 170)%N.
Proof. by_bytes c. Qed.

Lemma fold_key_cons c rest :
  fold_key (String c rest) =
    match rest with
    | String c1 rest1 =>
        if ((code c =? 197) && (code c1 =? 191))%N then String "s" (fold_key rest1)
        else
          match rest1 with
          | String c2 rest2 =>
              if ((code c =? 226) && (code c1 =? 132) && (code c2 =? 170))%N
              then String "k" (fold_key rest2)
              else String (lower_byte c) (fold_key rest)
          | EmptyString => String (lower_byte c) (fold_key rest)
          end
    | EmptyString => String (lower_byte c) EmptyString
    end.
Proof. by destruct rest. Qed.

(** Keys are matched ignoring case, so lower-casing a key changes nothing
    to the field it names. *)
Lemma fold_key_ToLower key : fold_key (ToLower key) = fold_key key.
Proof.
  assert (forall n k, (String.length k <= n)%nat -> fold_key (ToLower k) = fold_key k)
    as Hn; [|by eapply Hn].
  clear key. induction n as [|n IH]; intros k Hk.
  { destruct k; [done|simpl in Hk; lia]. }
  destruct k as [|c rest]; [done|].
  change (ToLower (String c rest)) with (String (lower_byte c) (ToLower rest)).
  rewrite (fold_key_cons c rest), (fold_key_cons (lower_byte c) (ToLower rest)).
  simpl in Hk.
  destruct rest as [|c1 rest1]; [by rewrite lower_byte_idemp|].
  change (ToLower (String c1 rest1)) with (String (lower_byte c1) (ToLower rest1)).
  cbv iota. rewrite lower_byte_197, lower_byte_191, lower_byte_idemp.
  simpl in Hk.
  destruct ((code c =? 197) && (code c1 =? 191))%N.
  { rewrite IH; [done|lia]. }
  destruct rest1 as [|c2 rest2].
  { change (ToLower EmptyString) with EmptyString. cbv iota.
    change (String (lower_byte c1) EmptyString) with (ToLower (String c1 EmptyString)).
    rewrite IH; [done|simpl; lia]. }
  change (ToLower (String c2 rest2)) with (String (lower_byte c2) (ToLower rest2)).
  cbv iota. rewrite lower_byte_226, lower_byte_132, lower_byte_170.
  simpl in Hk.
  destruct ((code c =? 226) && (code c1 =? 132) && (code c2 =? 170))%N.
  { rewrite IH; [done|lia]. }
  change (String (lower_byte c1) (String (lower_byte c2) (ToLower rest2)))
    with (ToLower (String c1 (String c2 rest2))).
  rewrite IH; [done|simpl; lia].
Qed.

Lemma unmarshal_string_lower old old' v s :
  unmarshal_string old v = Some s ->
  exists s', unmarshal_string old' (lower_json v) = Some s'
             ∧ (old' = ToLower old -> s' = ToLower s).
Proof.
  destruct v; simpl; try done.
  - intros [= <-]. by exists old'.
  - intros [= <-]. by eexists.
Qed.

Lemma digit_lower c : is_digit c = true -> lower_byte c = c.
Proof. destruct c as [[] [] [] [] [] [] [] []]; intros Hc; try done. Qed.

Lemma digits_value_lower acc s z : digits_value acc s = Some z -> ToLower s = s.
Proof.
  revert acc. induction s as [|c s IH]; intros acc; [done|]. simpl.
  destruct (is_digit c) eqn:Hc; [|done].
  intros Hz. by rewrite (digit_lower c Hc), (IH _ Hz).
Qed.

Lemma unmarshal_int_lower old old' v z :
  unmarshal_int old v = Some z ->
  exists z', unmarshal_int old' (lower_json v) = Some z'
             ∧ (old' = old -> z' = z).
Proof.
  destruct v as [| |lit| | |]; try done.
  - intros [= <-]. by exists old'.
  - intros Hz. exists z. split; [|done].
    assert (ToLower lit = lit) as Hlit.
    { destruct lit as [|c rest]; [done|]. cbn [unmarshal_int] in Hz.
      destruct (c =? "-")%char eqn:Hc.
      - apply Ascii.eqb_eq in Hc as ->.
        destruct rest as [|c1 rest]; [done|].
        destruct (digits_value 0 (String c1 rest)) as [z0|] eqn:Hdigits; [|done].
        cbn [ToLower]. f_equal. apply (digits_value_lower _ _ _ Hdigits).
      - destruct (digits_value 0 (String c rest)) as [z0|] eqn:Hdigits; [|done].
        apply (digits_value_lower _ _ _ Hdigits). }
    cbn [lower_json]. by rewrite Hlit.
Qed.

Lemma unmarshal_string_list_lower v :
  unmarshal_string_list (lower_json v)
  = fmap (M:=option) (fmap (M:=list) ToLower) (unmarshal_string_list v).
Proof.
  destruct v as [| | | |elems|]; try done.
  cbn [lower_json unmarshal_string_list].
  induction elems as [|v elems IH]; [done|].
  cbn [map]. cbn [mapM]. rewrite IH.
  destruct v; try done; simpl;
    by destruct (mapM (unmarshal_string "") elems).
Qed.

Lemma NextWrapper_lower v ids :
  NextWrapper_UnmarshalJSON v = Some ids ->
  NextWrapper_UnmarshalJSON (lower_json v) = Some (ToLower <$> ids).
Proof.
  unfold NextWrapper_UnmarshalJSON. rewrite unmarshal_string_list_lower.
  destruct (unmarshal_string_list v) as [l|] eqn:Hlist.
  - by intros [= <-].
  - simpl. destruct v; try done. by intros [= <-].
Qed.

Lemma store_member_lower r r' member r1 :
  lowered r r' ->
  store_member r member = Some r1 ->
  exists r1', store_member r' (lower_member member) = Some r1' ∧ lowered r1 r1'.
Proof.
  destruct member as [key v].
  intros (Hid & Hdepth & Hsecret & Hmessage & Hnext).
  unfold lower_member, store_member. cbn [fst snd]. rewrite fold_key_ToLower.
  repeat case_decide.
  - destruct (unmarshal_string (ID r) v) as [s|] eqn:Hs; [|done].
    intros [= <-].
    destruct (unmarshal_string_lower _ (ID r') _ _ Hs) as (s' & -> & Hs').
    eexists. split; [done|]. by split_and!; simpl; auto.
  - destruct (unmarshal_int (Depth r) v) as [z|] eqn:Hz; [|done].
    intros [= <-].
    destruct (unmarshal_int_lower _ (Depth r') _ _ Hz) as (z' & -> & Hz').
    eexists. split; [done|]. by split_and!; simpl; auto.
  - destruct (unmarshal_string (Secret r) v) as [s|] eqn:Hs; [|done].
    intros [= <-].
    destruct (unmarshal_string_lower _ (Secret r') _ _ Hs) as (s' & -> & Hs').
    eexists. split; [done|]. by split_and!; simpl; auto.
  - destruct (unmarshal_string (Message r) v) as [s|] eqn:Hs; [|done].
    intros [= <-].
    destruct (unmarshal_string_lower _ (Message r') _ _ Hs) as (s' & -> & Hs').
    eexists. split; [done|]. by split_and!; simpl; auto.
  - destruct (NextWrapper_UnmarshalJSON v) as [ids|] eqn:Hids; [|done].
    intros [= <-]. rewrite (NextWrapper_lower _ _ Hids).
    eexists. split; [done|]. by split_and!; simpl; auto.
  - destruct (unmarshal_string (ParentID r) v) as [s|] eqn:Hs; [|done].
    intros [= <-].
    destruct (unmarshal_string_lower _ (ParentID r') _ _ Hs) as (s' & -> & Hs').
    eexists. split; [done|]. by split_and!; simpl; auto.
  - destruct (unmarshal_int (OrderIndex r) v) as [z|] eqn:Hz; [|done].
    intros [= <-].
    destruct (unmarshal_int_lower _ (OrderIndex r') _ _ Hz) as (z' & -> & Hz').
    eexists. split; [done|]. by split_and!; simpl; auto.
  - intros [= <-]. exists r'. by split_and!.
Qed.

Lemma store_members_lower members r r' r1 :
  lowered r r' ->
  store_members r members = Some r1 ->
  exists r1', store_members r' (map lower_member members) = Some r1'
              ∧ lowered r1 r1'.
Proof.
  revert r r'. induction members as [|member members IH]; intros r r' Hr; simpl.
  - intros [= <-]. by exists r'.
  - destruct (store_member r member) as [r2|] eqn:Hmember; [|done].
    destruct (store_member_lower _ _ _ _ Hr Hmember) as (r2' & -> & Hr2).
    by apply IH.
Qed.

(** What [fetchID] sends for a body without backslash is the lower-case
    form of what the body says: of its identifier, its fragment, its message
    and its children; the depth is the same. *)
Lemma escape_free_body_lowercased body parent index sent :
  escape_free body = true ->
  json_Unmarshal body (fresh parent index) = Some sent ->
  exists r,
    fetchID (Response 200 body) parent index = Some r
    ∧ ID r = ToLower (ID sent) ∧ Secret r = ToLower (Secret sent)
    ∧ Message r = ToLower (Message sent) ∧ Next r = ToLower <$> Next sent
    ∧ Depth r = Depth sent.
Proof.
  intros Hbody. rewrite fetchID_200. unfold json_Unmarshal.
  destruct (read_json body) as [v rest| |] eqn:Hread; try done.
  rewrite (read_json_lower _ _ _ Hbody Hread).
  destruct v as [| | | | |members]; try done.
  intros Hstore. cbn [lower_json].
  destruct (store_members_lower members (fresh parent index) (fresh parent index) sent)
    as (r & Hr & (Hid & Hdepth & Hsecret & Hmessage & Hnext)); [by split_and!|done|].
  exists r. by split_and!.
Qed.

(** ** The loop body *)

Lemma record_result_lookup m r k :
  record_result m r !! k =
    if decide (ParentID r = k)
    then Some (default [] (m !! k) ++ [collected r])
    else m !! k.
Proof.
  unfold record_result. rewrite lookup_insert.
  case_decide; [by subst|done].
Qed.

(** After any sequence of results, the bucket of [k] holds the entries of
    the results whose parent is [k], in the order they were received. *)
Lemma foldl_record_result_lookup (rs : list CurbIDResponse.t) m k :
  foldl record_result m rs !! k =
    match filter (fun r => ParentID r = k) rs with
    | [] => m !! k
    | own => Some (default [] (m !! k) ++ (collected <$> own))
    end.
Proof.
  revert m. induction rs as [|r rs IH]; intros m; simpl; [done|].
  rewrite IH, record_result_lookup, filter_cons.
  case_decide as Hk; simpl.
  - destruct (filter _ rs) as [|r' own]; simpl; [done|].
    by rewrite <- app_assoc.
  - by destruct (filter _ rs).
Qed.

Lemma foldl_record_result_bucket (rs : list CurbIDResponse.t) r :
  r ∈ rs ->
  foldl record_result ∅ rs !! ParentID r
    = Some (collected <$> filter (fun r0 => ParentID r0 = ParentID r) rs).
Proof.
  intros Hr. rewrite foldl_record_result_lookup, lookup_empty.
  destruct (filter _ rs) as [|r' own] eqn:E; [|reflexivity].
  assert (r ∈ filter (fun r0 => ParentID r0 = ParentID r) rs) as Hin
    by (by apply list_elem_of_filter).
  rewrite E in Hin. by apply elem_of_nil in Hin.
Qed.

Lemma reach_record_result m r k : reach m k -> reach (record_result m r) k.
Proof.
  induction 1 as [|k bucket e _ IH Hk He]; [constructor|].
  destruct (decide (ParentID r = k)) as [Heq|Hne].
  - apply (reach_entry _ k (bucket ++ [collected r])); [done| |set_solver].
    by rewrite record_result_lookup, decide_True, Hk.
  - apply (reach_entry _ k bucket); [done| |done].
    by rewrite record_result_lookup, decide_False.
Qed.

Lemma reach_recorded m r :
  reach m (ParentID r) -> reach (record_result m r) (ID r).
Proof.
  intros Hparent%(reach_record_result _ r).
  eapply (reach_entry _ _ _ (collected r)); [exact Hparent| |].
  - rewrite record_result_lookup. by rewrite decide_True.
  - set_solver.
Qed.

Lemma receive_unchanged s r queue :
  fetchers (receive s r queue) = fetchers s
  ∧ started (receive s r queue) = started s
  ∧ requestsChan (receive s r queue) = requestsChan s
  ∧ leaving (receive s r queue) = leaving s
  ∧ resultsChan (receive s r queue) = queue.
Proof. unfold receive. by repeat case_decide. Qed.

Lemma receive_recorded s r queue :
  ¬ unexpected_message r ->
  secretsMap (receive s r queue) = record_result (secretsMap s) r
  ∧ handled (receive s r queue) = handled s ++ [r].
Proof. intros Hok. unfold receive. rewrite decide_False by done. by case_decide. Qed.

Lemma receive_panics s r queue :
  unexpected_message r ->
  receive s r queue =
    mkState (secretsMap s) (fetching s) Panicked queue (requestsChan s)
      (fetchers s) (leaving s) (started s) (handled s).
Proof. intros Hbad. unfold receive. by rewrite decide_True. Qed.

(** The result held a secret: the pass ends at once, with [continue]. *)
Lemma receive_secret s r queue :
  ¬ unexpected_message r -> Secret r ≠ NO_SECRET ->
  pc (receive s r queue) = Receiving ∨ pc (receive s r queue) = Printing.
Proof.
  intros Hok Hsecret. unfold receive, next_iteration.
  rewrite decide_False, decide_True by done. simpl. case_decide; auto.
Qed.

(** The result held no secret: the pass goes on to the range loop. *)
Lemma receive_no_secret s r queue :
  ¬ unexpected_message r -> Secret r = NO_SECRET ->
  pc (receive s r queue) = Ranging r 0 (Next r).
Proof.
  intros Hok Hsecret. unfold receive.
  rewrite decide_False by done. by rewrite decide_False by (by intros []).
Qed.

(** ** Invariants of [crawl] *)

Section CrawlFacts.
Context `{SliceSort}.
Variable net : string -> http_outcome -> Prop.

Abbreviation step := (step net).
Abbreviation reachable := (reachable net).

(** Nothing happens once [crawl] has returned or the process has
    panicked. *)
Lemma step_alive s s' : step s s' -> alive s.
Proof.
  unfold alive. destruct 1 as [s r q Hpc _|s r i c todo Hpc _|s r i Hpc
    | | | |s fuel m out Hpc _]; try done; by rewrite Hpc.
Qed.

Lemma panicked_stuck s s' : pc s = Panicked -> ¬ step s s'.
Proof. intros Hpc Hstep%step_alive. unfold alive in Hstep. by rewrite Hpc in Hstep. Qed.

Lemma finished_stuck s s' output : pc s = Finished output -> ¬ step s s'.
Proof. intros Hpc Hstep%step_alive. unfold alive in Hstep. by rewrite Hpc in Hstep. Qed.

(** *** The map is the record of the results handled *)

Definition map_inv (s : state) : Prop :=
  match pc s with
  | Finished output =>
      exists fuel,
        readSecretsMap fuel (foldl record_result ∅ (handled s)) rootID
          = Some (secretsMap s, output)
  | _ => secretsMap s = foldl record_result ∅ (handled s)
  end.

Lemma map_inv_step s s' : map_inv s -> step s s' -> map_inv s'.
Proof.
  unfold map_inv.
  destruct 2 as [s r q Hpc Hq|s r i c todo Hpc Hcap|s r i Hpc
    |s before g after outcome r Halive _ _ _ _
    |s before g after outcome Halive _ _ _
    |s Halive _|s fuel m out Hpc Hwalk]; simpl.
  - rewrite Hpc in H0. unfold receive.
    repeat case_decide; simpl; try done;
      rewrite ?foldl_snoc; try case_decide; simpl; by rewrite ?H0.
  - by rewrite Hpc in H0.
  - rewrite Hpc in H0. by case_decide.
  - unfold alive in Halive. by destruct (pc s).
  - unfold alive in Halive. by destruct (pc s).
  - unfold alive in Halive. by destruct (pc s).
  - rewrite Hpc in H0. exists fuel. by rewrite <- H0.
Qed.

Lemma map_inv_reachable id s : reachable id s -> map_inv s.
Proof.
  induction 1 as [|s s' _ IH Hstep]; [done|]. by eapply map_inv_step.
Qed.

(** *** Termination detection

    [fetching] counts the goroutines still inside [fetchID], the results
    waiting in the channel, and the result being ranged over.  So the loop
    ends with nothing in flight and nothing unread. *)

Definition count_inv (s : state) : Prop :=
  match pc s with
  | Receiving =>
      fetching s = Z.of_nat (length (fetchers s) + length (resultsChan s))
      ∧ fetching s > 0
  | Ranging _ _ _ =>
      fetching s = Z.of_nat (length (fetchers s) + length (resultsChan s)) + 1
  | Printing | Finished _ => fetchers s = [] ∧ resultsChan s = []
  | Panicked => True
  end.

Lemma count_inv_next_iteration s :
  fetching s = Z.of_nat (length (fetchers s) + length (resultsChan s)) + 1 ->
  count_inv (next_iteration s).
Proof.
  intros Hn. unfold count_inv, next_iteration. simpl.
  case_decide; simpl; [lia|].
  destruct (fetchers s), (resultsChan s); simpl in *; try done; lia.
Qed.

Lemma count_inv_step s s' : count_inv s -> step s s' -> count_inv s'.
Proof.
  intros Hs.
  destruct 1 as [s r q Hpc Hq|s r i c todo Hpc Hcap|s r i Hpc
    |s before g after outcome r Halive Hg _ _ _
    |s before g after outcome Halive _ _ _
    |s Halive _|s fuel m out Hpc Hwalk]; unfold count_inv in Hs.
  - rewrite Hpc, Hq in Hs. destruct Hs as [Hn _]. simpl in Hn.
    unfold receive. case_decide; [done|].
    case_decide.
    + apply count_inv_next_iteration. simpl. lia.
    + unfold count_inv. simpl. lia.
  - rewrite Hpc in Hs. unfold count_inv. simpl. rewrite length_app. simpl. lia.
  - rewrite Hpc in Hs. by apply count_inv_next_iteration.
  - unfold count_inv. simpl. rewrite Hg in Hs.
    rewrite !length_app in *. simpl in *.
    destruct (pc s); try done; try lia.
    + by destruct Hs as [? _], before.
    + by destruct Hs as [? _], before.
  - done.
  - done.
  - rewrite Hpc in Hs. done.
Qed.

Lemma count_inv_reachable id s : reachable id s -> count_inv s.
Proof.
  induction 1 as [|s s' _ IH Hstep]; [|by eapply count_inv_step].
  unfold count_inv. simpl. lia.
Qed.

(** *** Admission

    Every goroutine of the range loop holds one slot of [requestsChan]
    until it has received from it.  The goroutine of the start node holds
    none, and runs while nothing else does. *)

Definition slots_inv (id : string) (s : state) : Prop :=
  (requestsChan s <= requestsCap)%nat
  ∧ ((Forall (fun g => gated g = true) (fetchers s)
      ∧ requestsChan s = (length (fetchers s) + leaving s)%nat)
     ∨ (fetchers s = [mkFetcher id rootID 0 false]
        ∧ resultsChan s = [] ∧ requestsChan s = 0%nat ∧ leaving s = 0%nat
        ∧ (pc s = Receiving ∨ pc s = Panicked))).

Lemma slots_inv_step id s s' : slots_inv id s -> step s s' -> slots_inv id s'.
Proof.
  intros [Hcap Hs].
  destruct 1 as [s r q Hpc Hq|s r i c todo Hpc Hlt|s r i Hpc
    |s before g after outcome r Halive Hg _ _ _
    |s before g after outcome Halive _ _ _
    |s Halive Hleaving|s fuel m out Hpc Hwalk].
  - assert (requestsChan (receive s r q) = requestsChan s
            ∧ fetchers (receive s r q) = fetchers s
            ∧ leaving (receive s r q) = leaving s) as (Hr & Hf & Hl).
    { unfold receive. by repeat case_decide. }
    split; [by rewrite Hr|]. rewrite Hr, Hf, Hl.
    destruct Hs as [?|(_ & Hempty & _)]; [by left|].
    by rewrite Hq in Hempty.
  - split; [simpl; lia|]. simpl.
    destruct Hs as [[Hall Hn]|(_ & _ & _ & _ & [Hpc'|Hpc'])];
      [|by rewrite Hpc in Hpc'..].
    left. split.
    + apply Forall_app. split; [done|]. by repeat constructor.
    + rewrite length_app. simpl. lia.
  - split; [done|]. simpl.
    destruct Hs as [?|(_ & _ & _ & _ & [Hpc'|Hpc'])];
      [by left|by rewrite Hpc in Hpc'..].
  - split; [done|]. simpl. left.
    destruct Hs as [[Hall Hn]|(Hroot & _ & Hr & Hl & _)].
    + rewrite Hg in Hall, Hn.
      apply Forall_app in Hall as [Hb Ha].
      apply Forall_cons in Ha as [Hgated Ha].
      rewrite Hgated. split; [by apply Forall_app|].
      rewrite !length_app in *. simpl in *. lia.
    + rewrite Hg in Hroot.
      destruct before as [|? [|]]; simplify_eq/=.
      split; [constructor|lia].
  - split; [done|]. simpl.
    destruct Hs as [?|(? & ? & ? & ? & _)]; [by left|].
    right. by eauto 10.
  - split; [simpl; lia|]. simpl.
    destruct Hs as [[Hall Hn]|(_ & _ & _ & Hl & _)]; [|lia].
    left. split; [done|lia].
  - split; [done|]. simpl.
    destruct Hs as [?|(_ & _ & _ & _ & [Hpc'|Hpc'])];
      [by left|by rewrite Hpc in Hpc'..].
Qed.

Lemma slots_inv_reachable id s : reachable id s -> slots_inv id s.
Proof.
  induction 1 as [|s s' _ IH Hstep]; [|by eapply slots_inv_step].
  split; [simpl; unfold requestsCap; lia|].
  right. by eauto 10.
Qed.

(** *** The range loop

    While the loop ranges over the children of a result [r], that result
    carried no secret and has been recorded, and the goroutines started
    last are those of the children passed so far, in the order of
    [idResponse.Next.IDs], each with its position as order index. *)

Definition ranging_inv (s : state) : Prop :=
  forall r index todo,
    pc s = Ranging r index todo ->
    Secret r = NO_SECRET
    ∧ last (handled s) = Some r
    ∧ exists passed before,
        Next r = passed ++ todo
        ∧ length passed = index
        ∧ started s = before ++ imap (child_fetcher r) passed.

Lemma ranging_inv_step s s' : ranging_inv s -> step s s' -> ranging_inv s'.
Proof.
  intros Hs.
  destruct 1 as [s r q Hpc Hq|s r i c todo Hpc Hlt|s r i Hpc
    |s before g after outcome r Halive Hg _ _ _
    |s before g after outcome Halive _ _ _
    |s Halive Hleaving|s fuel m out Hpc Hwalk];
    intros r' index' todo'; simpl; try done.
  - unfold receive. case_decide; [done|].
    case_decide as Hsecret.
    + unfold next_iteration. simpl. by case_decide.
    + simpl. intros [= <- <- <-].
      split; [by destruct (decide (Secret r = NO_SECRET))|].
      split; [by rewrite last_snoc|].
      exists [], (started s). simpl. by rewrite app_nil_r.
  - intros [= <- <- <-].
    destruct (Hs _ _ _ Hpc) as (Hsecret & Hlast & passed & before & HNext & Hlen & Hstarted).
    split_and!; [done..|].
    exists (passed ++ [c]), before. split_and!.
    + by rewrite <- app_assoc.
    + rewrite length_app. simpl. lia.
    + rewrite Hstarted, imap_app, <- app_assoc. simpl.
      by rewrite Hlen, Nat.add_0_r.
  - unfold next_iteration. simpl. by case_decide.
  - apply Hs.
  - apply Hs.
Qed.

Lemma ranging_inv_reachable id s : reachable id s -> ranging_inv s.
Proof.
  induction 1 as [|s s' _ IH Hstep]; [|by eapply ranging_inv_step].
  intros r index todo. simpl. done.
Qed.

(** *** Where goroutines come from

    Apart from the goroutine of the start node, every goroutine was
    started for a child listed by a recorded result without secret, with
    that result's [ID] field as its parent. *)

Definition started_for (s : state) (g : fetcher) : Prop :=
  exists r index,
    r ∈ handled s ∧ Secret r = NO_SECRET
    ∧ Next r !! index = Some (f_id g)
    ∧ g = child_fetcher r index (f_id g).

Definition lineage_inv (id : string) (s : state) : Prop :=
  forall g, g ∈ started s ->
    g = mkFetcher id rootID 0 false ∨ started_for s g.

Lemma started_for_handled s s' g :
  (forall r, r ∈ handled s -> r ∈ handled s') ->
  started_for s g -> started_for s' g.
Proof. intros Hsub (r & index & Hr & ?). exists r, index. auto. Qed.

Lemma lineage_inv_step id s s' :
  ranging_inv s -> lineage_inv id s -> step s s' -> lineage_inv id s'.
Proof.
  intros Hranging Hs.
  destruct 1 as [s r q Hpc Hq|s r i c todo Hpc Hlt|s r i Hpc
    |s before g after outcome r Halive Hg _ _ _
    |s before g after outcome Halive _ _ _
    |s Halive Hleaving|s fuel m out Hpc Hwalk];
    intros g'; simpl; try apply Hs.
  - assert (started (receive s r q) = started s
            ∧ forall r', r' ∈ handled s -> r' ∈ handled (receive s r q))
      as [Hst Hsub].
    { unfold receive. repeat case_decide; simpl; (split; [done|]);
        intros r'; rewrite ?elem_of_app; auto. }
    rewrite Hst. intros [->|Hg']%Hs; [by left|right].
    by eapply started_for_handled.
  - destruct (Hranging _ _ _ Hpc) as (Hsecret & Hlast & passed & before & HNext & Hlen & _).
    intros [Hg'|Hg']%elem_of_app;
      [|apply list_elem_of_singleton in Hg' as ->].
    + destruct (Hs _ Hg') as [->|Hfor]; [by left|right].
      by eapply started_for_handled.
    + right. exists r, i. simpl. split_and!; [|done| |done].
      * apply last_Some in Hlast as [l' ->]. set_solver.
      * rewrite HNext, lookup_app_r by lia.
        by replace (i - length passed)%nat with 0%nat by lia.
Qed.

Lemma lineage_inv_reachable id s : reachable id s -> lineage_inv id s.
Proof.
  induction 1 as [|s s' Hs IH Hstep].
  - intros g Hg. left. simpl in Hg. by apply list_elem_of_singleton in Hg.
  - eapply lineage_inv_step; [|done..]. by eapply ranging_inv_reachable.
Qed.
End CrawlFacts.

(** In every state of a run, the bucket of [k] holds the entries of the
    results recorded with parent [k]. *)
Lemma recorded_buckets `{SliceSort} net id s k bucket :
  reachable net id s ->
  secretsMap s !! k = Some bucket ->
  bucket ≡ₚ collected <$> filter (fun r => ParentID r = k) (handled s).
Proof.
  intros Hreach%map_inv_reachable Hk.
  assert (forall bucket0,
            foldl record_result ∅ (handled s) !! k = Some bucket0 ->
            bucket0 = collected <$> filter (fun r => ParentID r = k) (handled s))
    as Hrecorded.
  { intros bucket0. rewrite foldl_record_result_lookup, lookup_empty.
    destruct (filter _ (handled s)); [done|]. by intros [= <-]. }
  unfold map_inv in Hreach. destruct (pc s) eqn:Hpc;
    try (rewrite Hreach in Hk; by rewrite (Hrecorded _ Hk)).
  destruct Hreach as [fuel Hwalk].
  apply readSecretsMap_same_entries, same_entries_sym in Hwalk.
  destruct (same_entries_lookup _ _ _ _ Hwalk Hk) as (bucket0 & Hk0 & Hperm).
  by rewrite Hperm, (Hrecorded _ Hk0).
Qed.

(** *** Lineage

    When the servers keep the lineage, every bucket is one the walk from the
    root comes to. *)

Section Lineage.
Context `{SliceSort}.
Variable net : string -> http_outcome -> Prop.
Hypothesis Hnet : keeps_lineage net.

(** Every bucket is one the walk from the root comes to. *)
Definition reach_inv (s : state) : Prop :=
  (forall r, r ∈ resultsChan s -> reach (secretsMap s) (ParentID r))
  ∧ (forall g, g ∈ fetchers s -> reach (secretsMap s) (f_parent g))
  ∧ (forall r, r ∈ handled s -> reach (secretsMap s) (ParentID r))
  ∧ (forall r index todo,
       pc s = Ranging r index todo -> reach (secretsMap s) (ID r)).

Lemma reach_inv_next_iteration s :
  (forall r, r ∈ resultsChan s -> reach (secretsMap s) (ParentID r)) ->
  (forall g, g ∈ fetchers s -> reach (secretsMap s) (f_parent g)) ->
  (forall r, r ∈ handled s -> reach (secretsMap s) (ParentID r)) ->
  reach_inv (next_iteration s).
Proof.
  intros H1 H2 H3. unfold reach_inv, next_iteration. simpl.
  split_and!; [done..|]. intros r index todo. by case_decide.
Qed.

Lemma reach_inv_step s s' : reach_inv s -> step net s s' -> reach_inv s'.
Proof.
  intros (Hq & Hf & Hh & Hr).
  destruct 1 as [s r q Hpc Hqueue|s r i c todo Hpc Hlt|s r i Hpc
    |s before g after outcome r Halive Hg Hout Hfetch _
    |s before g after outcome Halive _ _ _
    |s Halive Hleaving|s fuel m out Hpc Hwalk].
  - rewrite Hqueue in Hq.
    destruct (decide (unexpected_message r)) as [Hbad|Hok].
    { rewrite receive_panics by done. split_and!; simpl; [|done..].
      intros r' Hr'. apply Hq. set_solver. }
    assert (reach (secretsMap s) (ParentID r)) as Hparent by (apply Hq; set_solver).
    destruct (receive_unchanged s r q) as (Ef & _ & _ & _ & Eq).
    destruct (receive_recorded s r q Hok) as [Em Eh].
    unfold reach_inv. rewrite Ef, Eq, Em, Eh. split_and!.
    + intros r' Hr'. apply reach_record_result, Hq. set_solver.
    + intros g Hg. by apply reach_record_result, Hf.
    + intros r' [Hr'| ->]%elem_of_snoc;
        apply reach_record_result; auto.
    + intros r' index todo Hpc'.
      destruct (decide (Secret r = NO_SECRET)) as [Hno|Hsecret].
      * rewrite receive_no_secret in Hpc' by done.
        injection Hpc' as <- _ _. by apply reach_recorded.
      * by destruct (receive_secret s r q Hok Hsecret) as [E|E];
          rewrite E in Hpc'.
  - split_and!; simpl; [done| |done|].
    + intros g [Hg| ->]%elem_of_snoc; [by apply Hf|].
      simpl. by eapply Hr.
    + intros r' index' todo' [= <- _ _]. by eapply Hr.
  - by apply reach_inv_next_iteration.
  - split_and!; simpl; [| |done|done].
    + intros r' [Hr'| ->]%elem_of_snoc; [by apply Hq|].
      rewrite (Hnet _ _ _ _ _ Hout Hfetch). apply Hf. rewrite Hg. set_solver.
    + intros g' Hin. apply Hf. rewrite Hg.
      apply elem_of_app in Hin as [Hin|Hin]; set_solver.
  - done.
  - done.
  - pose proof (readSecretsMap_same_entries _ _ _ _ _ Hwalk) as Hsame.
    split_and!; simpl; [..|done]; intros; eapply reach_same_entries; eauto.
Qed.

Lemma reach_inv_reachable id s : reachable net id s -> reach_inv s.
Proof.
  induction 1 as [|s s' _ IH Hstep]; [|by eapply reach_inv_step].
  split_and!; simpl; [set_solver| |set_solver|done].
  intros g Hg. apply list_elem_of_singleton in Hg as ->. constructor.
Qed.

(** In a completed traversal, the output holds the fragment of every
    recorded result. *)
Lemma recorded_printed id s output r :
  reachable net id s -> pc s = Finished output -> r ∈ handled s ->
  occurs_in (emit (collected r)) output.
Proof.
  intros Hreach Hpc Hr.
  pose proof (map_inv_reachable _ _ _ Hreach) as Hmap.
  unfold map_inv in Hmap. rewrite Hpc in Hmap. destruct Hmap as [fuel Hwalk].
  destruct (reach_inv_reachable _ _ Hreach) as (_ & _ & Hh & _).
  pose proof (readSecretsMap_same_entries _ _ _ _ _ Hwalk) as Hsame.
  eapply (reach_printed _ (ParentID r) _ (collected r)); [| | |exact Hwalk].
  - eapply reach_same_entries; [by apply same_entries_sym|]. by apply Hh.
  - by apply foldl_record_result_bucket.
  - apply list_elem_of_fmap. exists r. split; [done|].
    by apply list_elem_of_filter.
Qed.
End Lineage.

(** ** The children of a result *)

Lemma kids_secret r : Secret r ≠ NO_SECRET -> kids r = [].
Proof. intros. unfold kids. by rewrite decide_False. Qed.

Lemma kids_no_secret r :
  Secret r = NO_SECRET -> kids r = imap (child_fetcher r) (Next r).
Proof. intros. unfold kids. by rewrite decide_True. Qed.

Lemma kids_parent r : Forall (fun g => f_parent g = ID r) (kids r).
Proof.
  unfold kids. case_decide; [|done].
  generalize (Next r). intros l.
  apply Forall_forall. intros g Hg.
  apply list_elem_of_lookup in Hg as [i Hi].
  rewrite list_lookup_imap in Hi.
  destruct (l !! i); [|done]. by injection Hi as <-.
Qed.

Lemma filter_kids p r :
  filter (fun g => f_parent g = p) (kids r)
  = if decide (ID r = p) then kids r else [].
Proof.
  pose proof (kids_parent r) as Hall. case_decide as Hp.
  - apply filter_all. by rewrite <- Hp.
  - apply filter_none. eapply Forall_impl; [done|]. simpl. congruence.
Qed.

Lemma filter_concat_kids p rs :
  filter (fun g => f_parent g = p) (concat (kids <$> rs))
  = concat (kids <$> filter (fun r => ID r = p) rs).
Proof.
  induction rs as [|r rs IH]; [done|].
  rewrite fmap_cons. simpl. rewrite filter_app, filter_kids, IH, filter_cons.
  by case_decide.
Qed.

Section Ledger.
Context `{SliceSort}.
Variable net : string -> http_outcome -> Prop.

(** *** The goroutines started

    The goroutines started so far are that of the start node and, for each
    result recorded, in the order of recording, those of its children;
    those of the result the loop is ranging over up to the position
    reached. *)
Definition ledger_inv (id : string) (s : state) : Prop :=
  match pc s with
  | Ranging r index todo =>
      exists recorded,
        handled s = recorded ++ [r]
        ∧ started s = mkFetcher id rootID 0 false
                      :: concat (kids <$> recorded)
                         ++ imap (child_fetcher r) (take index (Next r))
  | Panicked => True
  | _ => started s = mkFetcher id rootID 0 false :: concat (kids <$> handled s)
  end.

Lemma ledger_inv_next_iteration id s :
  started s = mkFetcher id rootID 0 false :: concat (kids <$> handled s) ->
  ledger_inv id (next_iteration s).
Proof. unfold ledger_inv, next_iteration. simpl. by case_decide. Qed.

Lemma ledger_inv_step id s s' :
  ranging_inv s -> ledger_inv id s -> step net s s' -> ledger_inv id s'.
Proof.
  intros Hranging Hs.
  destruct 1 as [s r q Hpc Hq|s r i c todo Hpc Hlt|s r i Hpc
    |s before g after outcome r Halive Hg _ _ _
    |s before g after outcome Halive _ _ _
    |s Halive Hleaving|s fuel m out Hpc Hwalk];
    unfold ledger_inv in Hs.
  - rewrite Hpc in Hs. unfold receive. case_decide; [done|].
    case_decide as Hsecret.
    + apply ledger_inv_next_iteration. simpl.
      rewrite Hs, fmap_app, concat_app. simpl.
      by rewrite kids_secret, !app_nil_r.
    + unfold ledger_inv. simpl. exists (handled s). split; [done|].
      by rewrite app_nil_r.
  - rewrite Hpc in Hs. destruct Hs as (recorded & Hhandled & Hstarted).
    destruct (Hranging _ _ _ Hpc) as (_ & _ & passed & _ & HNext & Hlen & _).
    unfold ledger_inv. simpl. exists recorded. split; [done|].
    rewrite Hstarted, HNext. subst i.
    rewrite take_app_length.
    replace (S (length passed)) with (length (passed ++ [c])) by (rewrite length_app; simpl; lia).
    rewrite (cons_middle c passed todo), app_assoc.
    rewrite take_app_length, imap_app. simpl.
    by rewrite Nat.add_0_r, <- !app_assoc.
  - rewrite Hpc in Hs. destruct Hs as (recorded & Hhandled & Hstarted).
    destruct (Hranging _ _ _ Hpc) as (Hno & _ & passed & _ & HNext & Hlen & _).
    apply ledger_inv_next_iteration.
    rewrite Hstarted, Hhandled, fmap_app, concat_app. simpl.
    rewrite kids_no_secret by done.
    rewrite app_nil_r in HNext. rewrite app_nil_r, HNext, <- Hlen.
    by rewrite firstn_all.
  - unfold ledger_inv, deliver. simpl. apply Hs.
  - unfold ledger_inv, panic. simpl. done.
  - unfold ledger_inv, release. simpl. apply Hs.
  - rewrite Hpc in Hs. unfold ledger_inv, finish. simpl. done.
Qed.

Lemma ledger_inv_reachable id s : reachable net id s -> ledger_inv id s.
Proof.
  induction 1 as [|s s' Hs IH Hstep]; [done|].
  eapply ledger_inv_step; [|done..]. by eapply ranging_inv_reachable.
Qed.

(** *** The results sent

    Unless the process has panicked, the goroutines started are those still
    inside [fetchID] and those that have sent their result, and the results
    recorded or waiting in the channel are the results these have sent. *)
Definition paired_inv (s : state) : Prop :=
  pc s = Panicked
  ∨ exists pairs : list (fetcher * CurbIDResponse.t),
      Forall (fun p => answers net p.1 p.2) pairs
      ∧ started s ≡ₚ fetchers s ++ pairs.*1
      ∧ handled s ++ resultsChan s ≡ₚ pairs.*2.

Lemma paired_inv_step s s' : paired_inv s -> step net s s' -> paired_inv s'.
Proof.
  intros Hs Hstep. pose proof (step_alive _ _ _ Hstep) as Hlive.
  destruct Hs as [Hs|(pairs & Hanswers & Hstarted & Hresults)];
    [unfold alive in Hlive; by rewrite Hs in Hlive|].
  destruct Hstep as [s r q Hpc Hq|s r i c todo Hpc Hlt|s r i Hpc
    |s before g after outcome r Halive Hg Hnet Hfetch _
    |s before g after outcome Halive _ _ _
    |s Halive Hleaving|s fuel m out Hpc Hwalk].
  - unfold receive. case_decide; [by left|]. right. exists pairs.
    rewrite Hq in Hresults.
    case_decide; unfold next_iteration; simpl;
      rewrite <- app_assoc; simpl; done.
  - right. exists pairs. simpl. split_and!; [done| |done].
    rewrite Hstarted, <- !app_assoc. apply Permutation_app_head, Permutation_app_comm.
  - right. by exists pairs.
  - right. exists ((g, r) :: pairs). simpl. split_and!.
    + constructor; [|done]. by exists outcome.
    + rewrite Hstarted, Hg, <- !app_assoc. simpl.
      apply Permutation_app_head. apply Permutation_middle.
    + rewrite app_assoc, <- Hresults. symmetry. apply Permutation_cons_append.
  - by left.
  - right. by exists pairs.
  - right. by exists pairs.
Qed.

Lemma paired_inv_reachable id s : reachable net id s -> paired_inv s.
Proof.
  induction 1 as [|s s' Hs IH Hstep]; [|by eapply paired_inv_step].
  right. exists []. by rewrite app_nil_r.
Qed.
End Ledger.

(** *** The children of a recorded result *)

Lemma elem_of_concat {A} (x : A) (l : list A) (ls : list (list A)) :
  x ∈ l -> l ∈ ls -> x ∈ concat ls.
Proof.
  intros Hx. induction 1 as [l ls|l l' ls _ IH]; simpl; apply elem_of_app; auto.
Qed.

Section Children.
Context `{SliceSort}.
Variable net : string -> http_outcome -> Prop.

(** When the traversal has completed, every child listed by a recorded
    result without secret has been fetched, and its result recorded. *)
Lemma children_answered id s output parent index child :
  reachable net id s -> pc s = Finished output ->
  parent ∈ handled s -> Secret parent = NO_SECRET ->
  Next parent !! index = Some child ->
  exists r,
    answers net (child_fetcher parent index child) r ∧ r ∈ handled s.
Proof.
  intros Hreach Hpc Hparent Hno Hchild.
  pose proof (ledger_inv_reachable _ _ _ Hreach) as Hledger.
  unfold ledger_inv in Hledger. rewrite Hpc in Hledger.
  pose proof (count_inv_reachable _ _ _ Hreach) as Hcount.
  unfold count_inv in Hcount. rewrite Hpc in Hcount.
  destruct Hcount as [Hfetchers Hchan].
  destruct (paired_inv_reachable _ _ _ Hreach)
    as [Hpanic|(pairs & Hanswers & Hstarted & Hresults)];
    [by rewrite Hpc in Hpanic|].
  rewrite Hfetchers in Hstarted. rewrite Hchan, app_nil_r in Hresults.
  simpl in Hstarted.
  assert (child_fetcher parent index child ∈ started s) as Hg.
  { rewrite Hledger. apply list_elem_of_further.
    apply (elem_of_concat _ (kids parent)).
    - rewrite kids_no_secret by done.
      apply (list_elem_of_lookup_2 _ index).
      by rewrite list_lookup_imap, Hchild.
    - apply list_elem_of_fmap. by exists parent. }
  rewrite Hstarted in Hg.
  apply list_elem_of_fmap in Hg as ([g r] & Hfst & Hin). simpl in Hfst. subst g.
  exists r. split.
  - rewrite Forall_forall in Hanswers. by apply (Hanswers _ Hin).
  - rewrite Hresults. apply list_elem_of_fmap. by exists (child_fetcher parent index child, r).
Qed.

(** When the traversal has completed, servers keeping the lineage, the
    results recorded under the identifier a single result [parent] reports
    are as many as the goroutines started for its children. *)
Lemma children_counted id s output parent :
  keeps_lineage net ->
  reachable net id s ->
  pc s = Finished output ->
  filter (fun r => ID r = ID parent) (handled s) = [parent] ->
  ID parent ≠ rootID ->
  length (filter (fun r => ParentID r = ID parent) (handled s))
  = length (kids parent).
Proof.
  intros Hnet Hreach Hpc Hparent Hroot.
  pose proof (ledger_inv_reachable _ _ _ Hreach) as Hledger.
  unfold ledger_inv in Hledger. rewrite Hpc in Hledger.
  pose proof (count_inv_reachable _ _ _ Hreach) as Hcount.
  unfold count_inv in Hcount. rewrite Hpc in Hcount.
  destruct Hcount as [Hfetchers Hchan].
  destruct (paired_inv_reachable _ _ _ Hreach)
    as [Hpanic|(pairs & Hanswers & Hstarted & Hresults)];
    [by rewrite Hpc in Hpanic|].
  rewrite Hfetchers in Hstarted. rewrite Hchan, app_nil_r in Hresults.
  simpl in Hstarted.
  set (mine := filter (fun p : fetcher * CurbIDResponse.t =>
                         f_parent p.1 = ID parent) pairs).
  assert (kids parent ≡ₚ mine.*1) as Hkids.
  { pose proof (filter_fmap_fst (fun g => f_parent g = ID parent) pairs) as Hfst.
    simpl in Hfst. unfold mine. rewrite <- Hfst.
    rewrite <- Hstarted, Hledger, filter_cons_False by (simpl; congruence).
    rewrite filter_concat_kids, Hparent. simpl. by rewrite app_nil_r. }
  pose proof (filter_fmap_snd (fun r => ParentID r = ID parent) pairs) as Hsnd.
  simpl in Hsnd. rewrite Hresults, Hsnd.
  rewrite (filter_agree _ (fun p => f_parent p.1 = ID parent)).
  - fold mine. by rewrite Hkids, !length_fmap.
  - eapply Forall_impl; [exact Hanswers|].
    intros [g r] (outcome & Hout & Hfetch). simpl in *.
    by rewrite (Hnet _ _ _ _ _ Hout Hfetch).
Qed.
End Children.

(** *** Entries in order

    Where the sort puts three entries whose order indices increase, and
    what the range over the sorted slice prints for them. *)

Lemma StronglySorted_middle {A} (R : A -> A -> Prop) (p q : list A) b :
  StronglySorted R (p ++ b :: q) ->
  Forall (fun x => R x b) p ∧ Forall (R b) q.
Proof.
  induction p as [|a p IH]; simpl; intros Hsorted.
  - apply StronglySorted_inv in Hsorted as [_ Hq]. by split.
  - apply StronglySorted_inv in Hsorted as [Hrest Ha].
    destruct (IH Hrest) as [Hp Hq]. split; [|done].
    constructor; [|done]. rewrite Forall_forall in Ha. apply Ha.
    apply elem_of_app. right. apply list_elem_of_here.
Qed.

(** In a sorted slice, entries whose order indices increase come in that
    order. *)
Lemma sorted_in_order (l : list Secret.t) e0 e1 e2 :
  StronglySorted not_after l ->
  e0 ∈ l -> e1 ∈ l -> e2 ∈ l ->
  less e0 e1 -> less e1 e2 ->
  exists l0 l1 l2 l3, l = l0 ++ e0 :: l1 ++ e1 :: l2 ++ e2 :: l3.
Proof.
  intros Hsorted H0 H1 H2 H01 H12. unfold less in *.
  apply list_elem_of_split in H1 as (p & q & ->).
  destruct (StronglySorted_middle _ _ _ _ Hsorted) as [Hp Hq].
  rewrite Forall_forall in Hp, Hq. unfold not_after in Hp, Hq.
  assert (e0 ∈ p) as H0p.
  { apply elem_of_app in H0 as [?|H0]; [done|].
    apply elem_of_cons in H0 as [->|H0]; [lia|]. specialize (Hq _ H0). lia. }
  assert (e2 ∈ q) as H2q.
  { apply elem_of_app in H2 as [H2|H2].
    - specialize (Hp _ H2). lia.
    - apply elem_of_cons in H2 as [->|H2]; [lia|done]. }
  apply list_elem_of_split in H0p as (l0 & l1 & ->).
  apply list_elem_of_split in H2q as (l2 & l3 & ->).
  exists l0, l1, l2, l3. by rewrite <- app_assoc.
Qed.

Section RangeFacts.
Context `{SliceSort}.

Lemma range_secrets_app_inv
    (rec : secrets_map -> string -> option (secrets_map * string)) l l' :
  (forall m id m' out, rec m id = Some (m', out) -> same_entries m m') ->
  forall m m' out,
    range_secrets rec (l ++ l') m = Some (m', out) ->
    exists m1 out1 out2,
      range_secrets rec l m = Some (m1, out1)
      ∧ range_secrets rec l' m1 = Some (m', out2)
      ∧ same_entries m m1
      ∧ out = out1 +:+ out2.
Proof.
  intros Hrec. induction l as [|e l IH]; intros m m' out; simpl.
  - intros Hrange. exists m, "", out. split_and!; [done..|apply same_entries_refl|done].
  - destruct (rec m (Secret.ID e)) as [[m0 below0]|] eqn:E; [|done].
    destruct (range_secrets rec (l ++ l') m0) as [[m2 after]|] eqn:E2; [|done].
    intros [= <- <-].
    destruct (IH _ _ _ E2) as (m1 & out1 & out2 & Hl & Hl' & Hsame & ->).
    rewrite Hl. exists m1, (emit e +:+ below0 +:+ out1), out2.
    split_and!; [done..| |].
    + eapply same_entries_trans; [by eapply Hrec|done].
    + by rewrite !append_assoc.
Qed.

Lemma range_secrets_cons_inv
    (rec : secrets_map -> string -> option (secrets_map * string)) e l :
  forall m m' out,
    range_secrets rec (e :: l) m = Some (m', out) ->
    exists m1 below1 rest,
      rec m (Secret.ID e) = Some (m1, below1)
      ∧ range_secrets rec l m1 = Some (m', rest)
      ∧ out = emit e +:+ below1 +:+ rest.
Proof.
  intros m m' out. simpl.
  destruct (rec m (Secret.ID e)) as [[m0 below0]|] eqn:E; [|done].
  destruct (range_secrets rec l m0) as [[m2 after]|] eqn:E2; [|done].
  intros [= <- <-]. by exists m0, below0, after.
Qed.

(** The range over a slice that holds [e0], [e1], [e2] in that order prints
    the fragment of each in that order, each followed by what the walk from
    it prints. *)
Lemma range_secrets_in_order fuel l0 l1 l2 l3 e0 e1 e2 m m' out :
  range_secrets (readSecretsMap fuel)
    (l0 ++ e0 :: l1 ++ e1 :: l2 ++ e2 :: l3) m = Some (m', out) ->
  exists below0 below1 below2 s0 s1 s2 s3 m0 m0' m1 m1' m2 m2',
    same_entries m m0 ∧ readSecretsMap fuel m0 (Secret.ID e0) = Some (m0', below0)
    ∧ same_entries m m1 ∧ readSecretsMap fuel m1 (Secret.ID e1) = Some (m1', below1)
    ∧ same_entries m m2 ∧ readSecretsMap fuel m2 (Secret.ID e2) = Some (m2', below2)
    ∧ out = s0 +:+ emit e0 +:+ below0 +:+ s1 +:+ emit e1 +:+ below1
               +:+ s2 +:+ emit e2 +:+ below2 +:+ s3
    ∧ (l1 = [] -> s1 = EmptyString) ∧ (l2 = [] -> s2 = EmptyString).
Proof.
  assert (forall m id m' out,
            readSecretsMap fuel m id = Some (m', out) -> same_entries m m') as Hrec.
  { intros ????. apply readSecretsMap_same_entries. }
  intros Hrange.
  apply (range_secrets_app_inv _ _ _ Hrec) in Hrange
    as (ma & s0 & rest0 & _ & Hrange & Hsame_a & ->).
  apply range_secrets_cons_inv in Hrange
    as (ma' & below0 & rest0' & Hwalk0 & Hrange & ->).
  apply (range_secrets_app_inv _ _ _ Hrec) in Hrange
    as (mb & s1 & rest1 & Hs1 & Hrange & Hsame_b & ->).
  apply range_secrets_cons_inv in Hrange
    as (mb' & below1 & rest1' & Hwalk1 & Hrange & ->).
  apply (range_secrets_app_inv _ _ _ Hrec) in Hrange
    as (mc & s2 & rest2 & Hs2 & Hrange & Hsame_c & ->).
  apply range_secrets_cons_inv in Hrange
    as (mc' & below2 & s3 & Hwalk2 & Hrange & ->).
  pose proof (Hrec _ _ _ _ Hwalk0) as Hsame_a'.
  pose proof (Hrec _ _ _ _ Hwalk1) as Hsame_b'.
  exists below0, below1, below2, s0, s1, s2, s3, ma, ma', mb, mb', mc, mc'.
  split_and!; try done.
  - eapply same_entries_trans; [exact Hsame_a|].
    eapply same_entries_trans; [exact Hsame_a'|]. exact Hsame_b.
  - eapply same_entries_trans; [exact Hsame_a|].
    eapply same_entries_trans; [exact Hsame_a'|].
    eapply same_entries_trans; [exact Hsame_b|].
    eapply same_entries_trans; [exact Hsame_b'|]. exact Hsame_c.
  - intros ->. simpl in Hs1. by injection Hs1 as _ <-.
  - intros ->. simpl in Hs2. by injection Hs2 as _ <-.
Qed.
End RangeFacts.

(** ** More on the printer *)

Lemma below_same_entries m m' k k' :
  same_entries m m' -> filed_below m k k' -> filed_below m' k k'.
Proof.
  intros Hsame (bucket & e & Hk & He & Hid).
  destruct (same_entries_lookup _ _ _ _ Hsame Hk) as (bucket' & Hk' & Hperm).
  exists bucket', e. split_and!; [done| |done]. by rewrite <- Hperm.
Qed.

Lemma no_ties_same_entries m m' : same_entries m m' -> no_ties m -> no_ties m'.
Proof.
  intros Hsame Hm k bucket' Hk'.
  destruct (same_entries_lookup _ _ _ _ (same_entries_sym _ _ Hsame) Hk')
    as (bucket & Hk & Hperm).
  rewrite Hperm. by eapply Hm.
Qed.

(** A sorted bucket without ties is in strictly increasing order. *)
Lemma sorted_no_ties l :
  StronglySorted not_after l -> NoDup (Secret.OrderIndex <$> l) -> listed_order l.
Proof.
  induction 1 as [|x l Hl IH Hx]; intros Hdup; [constructor|].
  rewrite fmap_cons in Hdup. apply NoDup_cons in Hdup as [Hnotin Hdup].
  constructor; [by apply IH|].
  rewrite Forall_forall in Hx |- *. intros y Hy.
  specialize (Hx y Hy). unfold not_after in Hx. unfold less.
  destruct (decide (Secret.OrderIndex x = Secret.OrderIndex y)) as [Heq|]; [|lia].
  destruct Hnotin. rewrite Heq. apply list_elem_of_fmap. by exists y.
Qed.

Section Walks.
Context `{SliceSort}.

Lemma sort_slice_no_ties bucket bucket' :
  bucket ≡ₚ bucket' -> NoDup (Secret.OrderIndex <$> bucket) ->
  sort_slice bucket' = sort_slice bucket.
Proof.
  intros Hperm Hdup. apply sort_slice_listed.
  - by rewrite sort_slice_perm.
  - apply sorted_no_ties; [apply sort_slice_sorted|].
    by rewrite sort_slice_perm.
Qed.

Lemma same_entries_insert m m' k bucket bucket' :
  same_entries m m' -> bucket ≡ₚ bucket' ->
  same_entries (<[k := bucket]> m) (<[k := bucket']> m').
Proof.
  intros Hsame Hperm k'. rewrite !lookup_insert.
  case_decide; [by constructor|apply Hsame].
Qed.

Lemma range_secrets_same_walk
    (rec : secrets_map -> string -> option (secrets_map * string)) l :
  (forall m id m' out, rec m id = Some (m', out) -> same_entries m m') ->
  (forall m m' id, same_entries m m' -> no_ties m ->
                   same_walk (rec m id) (rec m' id)) ->
  forall m m', same_entries m m' -> no_ties m ->
    same_walk (range_secrets rec l m) (range_secrets rec l m').
Proof.
  intros Hkeeps Hrec. induction l as [|secret l IH]; intros m m' Hsame Hties; simpl.
  - done.
  - specialize (Hrec m m' (Secret.ID secret) Hsame Hties).
    destruct (rec m (Secret.ID secret)) as [[m1 out1]|] eqn:E1;
      destruct (rec m' (Secret.ID secret)) as [[m1' out1']|] eqn:E1';
      simpl in Hrec; try done.
    destruct Hrec as [<- Hsame1].
    assert (no_ties m1) as Hties1.
    { eapply no_ties_same_entries; [|exact Hties]. by eapply Hkeeps. }
    specialize (IH m1 m1' Hsame1 Hties1).
    destruct (range_secrets rec l m1) as [[m2 out2]|];
      destruct (range_secrets rec l m1') as [[m2' out2']|];
      simpl in IH |- *; try done.
    destruct IH as [<- Hsame2]. done.
Qed.

(** Walks of maps that hold the same entries, in buckets without ties, come
    to the same. *)
Lemma readSecretsMap_same_walk fuel :
  forall m m' id, same_entries m m' -> no_ties m ->
    same_walk (readSecretsMap fuel m id) (readSecretsMap fuel m' id).
Proof.
  induction fuel as [|fuel IH]; intros m m' id Hsame Hties; [done|].
  simpl. pose proof (Hsame id) as Hid.
  destruct (m !! id) as [bucket|] eqn:Hk; inversion Hid as [? bucket' Hperm|]; subst.
  - rewrite (sort_slice_no_ties bucket bucket' Hperm) by (by eapply Hties).
    apply range_secrets_same_walk.
    + intros ????. apply readSecretsMap_same_entries.
    + exact IH.
    + by apply same_entries_insert.
    + eapply no_ties_same_entries; [|exact Hties]. by apply same_entries_sorted.
  - done.
Qed.

(** *** Cycles

    The walk of an identifier that is below itself, in one step or in
    several, never returns. *)
Lemma on_cycle_next m k :
  tc (filed_below m) k k -> exists k', filed_below m k k' ∧ tc (filed_below m) k' k'.
Proof.
  intros Hcycle. inversion Hcycle as [? ? Hstep|? k' ? Hstep Hrest]; subst.
  - exists k. split; [done|]. by apply tc_once.
  - exists k'. split; [done|]. eapply tc_r; [exact Hrest|exact Hstep].
Qed.

Lemma tc_below_same_entries m m' k k' :
  same_entries m m' -> tc (filed_below m) k k' -> tc (filed_below m') k k'.
Proof.
  intros Hsame. induction 1 as [k k' Hstep|k k1 k' Hstep _ IH].
  - apply tc_once. by eapply below_same_entries.
  - eapply tc_l; [|exact IH]. by eapply below_same_entries.
Qed.

Lemma cycle_never_returns fuel :
  forall m k, tc (filed_below m) k k -> readSecretsMap fuel m k = None.
Proof.
  induction fuel as [|fuel IH]; intros m k Hcycle; [done|].
  destruct (on_cycle_next _ _ Hcycle) as (k' & (bucket & e & Hk & He & Hid) & Hcycle').
  simpl. rewrite Hk.
  apply (range_secrets_never _ _ e).
  - intros ????. apply readSecretsMap_same_entries.
  - by rewrite sort_slice_perm.
  - intros m1 Hsame. rewrite Hid. apply IH.
    eapply tc_below_same_entries; [|exact Hcycle'].
    eapply same_entries_trans; [|exact Hsame]. by apply same_entries_sorted.
Qed.

(** *** Depth *)

Lemma ranked_same_entries rank m m' :
  same_entries m m' -> ranked rank m -> ranked rank m'.
Proof.
  intros Hsame Hm k k' Hbelow. apply Hm.
  eapply below_same_entries; [|exact Hbelow]. by apply same_entries_sym.
Qed.

Lemma range_secrets_returns
    (rec : secrets_map -> string -> option (secrets_map * string))
    (ok : secrets_map -> Prop) l :
  (forall m m', same_entries m m' -> ok m -> ok m') ->
  (forall m id m' out, rec m id = Some (m', out) -> same_entries m m') ->
  (forall m e, e ∈ l -> ok m -> is_Some (rec m (Secret.ID e))) ->
  forall m, ok m -> is_Some (range_secrets rec l m).
Proof.
  intros Hok Hkeeps. induction l as [|secret l IH]; intros Hrec m Hm; simpl.
  - done.
  - destruct (Hrec m secret) as [[m1 out1] E1]; [set_solver|done|].
    rewrite E1.
    destruct (IH (fun m e He => Hrec m e (list_elem_of_further _ _ _ He)) m1)
      as [[m2 out2] E2].
    + eapply Hok; [|exact Hm]. by eapply Hkeeps.
    + by rewrite E2.
Qed.

Lemma ranked_returns rank n :
  forall m id, ranked rank m -> (rank id < n)%nat ->
    is_Some (readSecretsMap n m id).
Proof.
  induction n as [|n IH]; intros m id Hranked Hid; [lia|].
  simpl. destruct (m !! id) as [bucket|] eqn:Hk; [|done].
  apply (range_secrets_returns _ (fun m1 => same_entries m m1)).
  - intros m1 m2 H12 H1. by eapply same_entries_trans.
  - intros ????. apply readSecretsMap_same_entries.
  - intros m1 e He Hsame. apply IH.
    + by eapply ranked_same_entries.
    + assert (rank (Secret.ID e) < rank id)%nat; [|lia].
      apply Hranked. exists bucket, e. split_and!; [done| |done].
      by rewrite sort_slice_perm in He.
  - by apply same_entries_sorted.
Qed.
End Walks.

(** *** The walk of a tree *)

Lemma tree_ind (P : tree -> Prop) :
  (forall id fragment children,
     Forall P children -> P (Node id fragment children)) ->
  forall t, P t.
Proof.
  intros Hnode. fix IH 1. intros [id fragment children].
  apply Hnode. induction children as [|c children IHc]; constructor.
  - apply IH.
  - exact IHc.
Qed.

Lemma bucket_of_same_entries m m' k :
  same_entries m m' -> bucket_of m k ≡ₚ bucket_of m' k.
Proof.
  intros Hsame. unfold bucket_of. specialize (Hsame k).
  by destruct Hsame.
Qed.

Lemma holds_same_entries m m' t : same_entries m m' -> holds m t -> holds m' t.
Proof.
  intros Hsame. induction t as [id fragment children IH] using tree_ind.
  inversion 1 as [? ? ? Hbucket Hchildren]; subst. constructor.
  - by rewrite <- (bucket_of_same_entries m m').
  - rewrite Forall_forall in IH, Hchildren |- *. auto.
Qed.

Lemma emit_entry index t : emit (entry index t) = emit (entry 0 t).
Proof. done. Qed.

Lemma depth_first_unfold t :
  depth_first t = emit (entry 0 t) +:+ depth_first_children t.
Proof. by destruct t. Qed.

(** The entries of the children of a node are in listed order. *)
Lemma listed_entries children n :
  listed_order (imap (fun i => entry (n + i)) children).
Proof.
  revert n. induction children as [|c children IH]; intros n; simpl; [constructor|].
  constructor.
  - rewrite (imap_ext _ (fun i => entry (S n + i))); [apply IH|].
    intros i x _. simpl. f_equal. lia.
  - apply Forall_forall. intros e He.
    apply list_elem_of_lookup in He as [i Hi].
    rewrite list_lookup_imap in Hi.
    destruct (children !! i); [|done]. injection Hi as <-.
    unfold less. simpl. lia.
Qed.

Section TreeWalk.
Context `{SliceSort}.

Lemma range_children h children :
  Forall (fun c => forall m, holds m c ->
            exists m', readSecretsMap (height c) m (tree_id c)
                       = Some (m', depth_first_children c)) children ->
  Forall (fun c => (height c <= h)%nat) children ->
  forall n m, Forall (holds m) children ->
    exists m', range_secrets (readSecretsMap h)
                 (imap (fun i => entry (n + i)) children) m
               = Some (m', foldr (fun c rest => depth_first c +:+ rest) "" children).
Proof.
  induction children as [|c children IH]; intros Hwalks Hheights n m Hholds; simpl.
  - by eexists.
  - apply Forall_cons in Hwalks as [Hwalk Hwalks].
    apply Forall_cons in Hheights as [Hheight Hheights].
    apply Forall_cons in Hholds as [Hc Hholds].
    destruct (Hwalk m Hc) as [m1 Hm1].
    apply (readSecretsMap_mono _ h) in Hm1; [|done].
    rewrite Hm1.
    destruct (IH Hwalks Hheights (S n) m1) as [m2 Hm2].
    { eapply Forall_impl; [exact Hholds|]. intros c'. apply holds_same_entries.
      by eapply readSecretsMap_same_entries. }
    rewrite (imap_ext _ (fun i => entry (S n + i))); last first.
    { intros i x _. simpl. f_equal. lia. }
    rewrite Hm2. exists m2. f_equal. f_equal.
    by rewrite depth_first_unfold, emit_entry, append_assoc.
Qed.

Lemma height_children c children :
  c ∈ children ->
  (height c <= foldr (fun c n => Nat.max (height c) n) 0%nat children)%nat.
Proof.
  induction children as [|c' children IH]; intros Hc; simpl.
  - by apply elem_of_nil in Hc.
  - apply elem_of_cons in Hc as [->|Hc]; [lia|]. specialize (IH Hc). lia.
Qed.

(** The walk of a node whose buckets are as the tree has them prints what
    lies below the node, depth first. *)
Lemma walk_children t :
  forall m, holds m t ->
    exists m', readSecretsMap (height t) m (tree_id t)
               = Some (m', depth_first_children t).
Proof.
  induction t as [id fragment children IH] using tree_ind.
  intros m Hholds. inversion Hholds as [? ? ? Hbucket Hchildren]; subst.
  simpl. unfold bucket_of in Hbucket.
  destruct (m !! id) as [bucket|] eqn:Hid; simpl in Hbucket.
  - rewrite (sort_slice_listed bucket (imap entry children) Hbucket
               (listed_entries children 0)).
    refine (range_children _ children IH _ 0%nat _ _).
    + apply Forall_forall. intros c Hc. by apply height_children.
    + eapply Forall_impl; [exact Hchildren|]. intros c. apply holds_same_entries.
      rewrite <- (sort_slice_listed bucket (imap entry children) Hbucket
                    (listed_entries children 0)).
      by apply same_entries_sorted.
  - symmetry in Hbucket. apply Permutation_nil_r in Hbucket.
    destruct children; [|done]. by eexists.
Qed.
End TreeWalk.

(** *** What a traversal of a tree files *)

Lemma forest_ids_cons index c children :
  forest (fun _ => tree_ids) index (c :: children)
  = tree_ids c ++ forest (fun _ => tree_ids) (S index) children.
Proof. done. Qed.

Lemma forest_ids_index n n' children :
  forest (fun _ => tree_ids) n children = forest (fun _ => tree_ids) n' children.
Proof.
  revert n n'. induction children as [|c children IH]; intros n n'; simpl; [done|].
  f_equal. apply IH.
Qed.

(** Under a key that is not an identifier of the tree, a traversal files at
    most the entry of the root. *)
Lemma filed_under_other t :
  forall k parent index, k ∉ tree_ids t ->
    filed_under k (filed parent index t)
    = if decide (parent = k) then [(parent, entry index t)] else [].
Proof.
  induction t as [id fragment children IH] using tree_ind.
  intros k parent index Hk. simpl in Hk |- *.
  apply not_elem_of_cons in Hk as [Hid Hk].
  assert (forall n, filed_under k (forest (filed id) n children) = []) as Hnone.
  { clear parent index. induction children as [|c children IHc]; intros n; simpl; [done|].
    apply Forall_cons in IH as [IHhead IHtail].
    rewrite forest_ids_cons in Hk. apply not_elem_of_app in Hk as [Hc Hk].
    rewrite filter_app, IHhead by done.
    rewrite decide_False by done. simpl. apply IHc; [done|].
    by rewrite (forest_ids_index _ 1). }
  rewrite filter_cons, Hnone. simpl. by case_decide.
Qed.

Lemma forest_filed_other id k children n :
  k ≠ id -> k ∉ forest (fun _ => tree_ids) 0 children ->
  filed_under k (forest (filed id) n children) = [].
Proof.
  revert n. induction children as [|c children IH]; intros n Hid Hk; simpl; [done|].
  rewrite forest_ids_cons in Hk. apply not_elem_of_app in Hk as [Hc Hk].
  rewrite filter_app, filed_under_other, decide_False by done.
  simpl. apply IH; [done|]. by rewrite (forest_ids_index _ 1).
Qed.

(** Under the identifier of a node a traversal files the entries of its
    children. *)
Lemma forest_filed_own id children n :
  id ∉ forest (fun _ => tree_ids) 0 children ->
  (filed_under id (forest (filed id) n children)).*2
  = imap (fun i => entry (n + i)) children.
Proof.
  revert n. induction children as [|c children IH]; intros n Hid; simpl; [done|].
  rewrite forest_ids_cons in Hid. apply not_elem_of_app in Hid as [Hc Hid].
  rewrite filter_app, filed_under_other, decide_True by done.
  simpl. rewrite Nat.add_0_r. f_equal.
  rewrite IH by (by rewrite (forest_ids_index _ 1)).
  apply imap_ext. intros i x _. simpl. f_equal. lia.
Qed.

(** Under an identifier inside one child, a traversal of the children files
    what the traversal of that child files. *)
Lemma forest_filed_inside id k before c after n :
  NoDup (id :: forest (fun _ => tree_ids) 0 (before ++ c :: after)) ->
  k ∈ tree_ids c ->
  filed_under k (forest (filed id) n (before ++ c :: after))
  = filed_under k (forest (filed (tree_id c)) 0 (tree_children c)).
Proof.
  revert n. induction before as [|b before IH]; intros n Hdup Hk.
  - simpl in Hdup |- *. apply NoDup_cons in Hdup as [Hid Hdup].
    apply not_elem_of_app in Hid as [Hidc Hid].
    apply NoDup_app in Hdup as (_ & Hdisjoint & _).
    rewrite filter_app.
    rewrite (forest_filed_other id k after (S n)); last first.
    { rewrite (forest_ids_index 0 1). by apply Hdisjoint. }
    { intros ->. done. }
    rewrite app_nil_r. destruct c as [idc fragment children]. simpl.
    rewrite filter_cons, decide_False; [done|].
    simpl. intros <-. done.
  - rewrite <- app_comm_cons in Hdup |- *.
    rewrite forest_ids_cons in Hdup. simpl.
    apply NoDup_cons in Hdup as [Hid Hdup].
    apply not_elem_of_app in Hid as [Hidb Hid].
    apply NoDup_app in Hdup as (_ & Hdisjoint & Hdup).
    assert (k ∈ forest (fun _ => tree_ids) 1 (before ++ c :: after)) as Hin.
    { clear -Hk. generalize 1%nat. induction before as [|b' before IHb]; intros n; simpl.
      - apply elem_of_app. by left.
      - apply elem_of_app. right. apply IHb. }
    rewrite filter_app, filed_under_other, decide_False.
    + simpl. apply IH; [|done]. constructor; [|by rewrite (forest_ids_index 0 1)].
      by rewrite (forest_ids_index 0 1).
    + intros ->. destruct Hid. done.
    + intros Hkb. by apply (Hdisjoint k).
Qed.

(** When the bucket of every identifier holds what a traversal of the
    children of a node files under it, the buckets are as the tree has
    them. *)
Lemma filed_holds m t :
  NoDup (tree_ids t) ->
  (forall k, k ∈ tree_ids t ->
     bucket_of m k
     ≡ₚ (filed_under k (forest (filed (tree_id t)) 0 (tree_children t))).*2) ->
  holds m t.
Proof.
  induction t as [id fragment children IH] using tree_ind.
  intros Hdup Hbuckets. simpl in Hdup, Hbuckets. constructor.
  - rewrite Hbuckets by set_solver.
    rewrite forest_filed_own; [done|]. by apply NoDup_cons in Hdup as [? _].
  - apply Forall_forall. intros c Hc.
    apply list_elem_of_split in Hc as (before & after & ->).
    rewrite Forall_forall in IH. apply IH; [set_solver| |].
    + apply NoDup_cons in Hdup as [_ Hdup]. clear -Hdup.
      revert Hdup. generalize 0%nat.
      induction before as [|b before IHb]; intros n; simpl.
      * by intros (? & _ & _)%NoDup_app.
      * intros (_ & _ & Hrest)%NoDup_app. by eapply IHb.
    + intros k Hk. rewrite <- (forest_filed_inside id k before c after 0 Hdup Hk).
      apply Hbuckets. right.
      clear -Hk. generalize 0%nat. induction before as [|b' before IHb]; intros n; simpl.
      * apply elem_of_app. by left.
      * apply elem_of_app. right. apply IHb.
Qed.

Lemma filter_filing k (rs : list CurbIDResponse.t) :
  collected <$> filter (fun r => ParentID r = k) rs
  = (filed_under k (filing <$> rs)).*2.
Proof.
  induction rs as [|r rs IH]; [done|].
  rewrite fmap_cons, !filter_cons.
  change ((filing r).1) with (ParentID r).
  case_decide; [rewrite !fmap_cons|]; by rewrite IH.
Qed.

Lemma bucket_of_recorded (rs : list CurbIDResponse.t) k :
  bucket_of (foldl record_result ∅ rs) k
  = collected <$> filter (fun r => ParentID r = k) rs.
Proof.
  unfold bucket_of. rewrite foldl_record_result_lookup, lookup_empty.
  by destruct (filter _ rs).
Qed.

(** Recording the results of a traversal of [t], in whatever order, and
    walking the map from [rootID] prints the fragments of [t] depth
    first. *)
Lemma recorded_tree_walk `{SliceSort} (rs : list CurbIDResponse.t) t :
  filing <$> rs ≡ₚ filed rootID 0 t ->
  NoDup (rootID :: tree_ids t) ->
  exists m', readSecretsMap (S (height t)) (foldl record_result ∅ rs) rootID
             = Some (m', depth_first t).
Proof.
  intros Hfiled Hdup.
  destruct (walk_children (Node rootID "" [t]) (foldl record_result ∅ rs))
    as [m' Hwalk].
  - apply filed_holds.
    + simpl. by rewrite app_nil_r.
    + intros k _. rewrite bucket_of_recorded, filter_filing, Hfiled.
      simpl. by rewrite app_nil_r.
  - exists m'. unfold depth_first_children in Hwalk. simpl in Hwalk.
    rewrite append_nil_r, Nat.max_0_r in Hwalk. exact Hwalk.
Qed.

(** *** Maps built from results *)

Lemma same_entries_recorded (rs rs' : list CurbIDResponse.t) :
  rs ≡ₚ rs' ->
  same_entries (foldl record_result ∅ rs) (foldl record_result ∅ rs').
Proof.
  intros Hperm k. rewrite !foldl_record_result_lookup, !lookup_empty.
  assert (filter (fun r => ParentID r = k) rs ≡ₚ filter (fun r => ParentID r = k) rs')
    as Hfilter by (by rewrite Hperm).
  destruct (filter _ rs) as [|r own]; destruct (filter _ rs') as [|r' own'].
  - constructor.
  - by apply Permutation_nil_cons in Hfilter.
  - symmetry in Hfilter. by apply Permutation_nil_cons in Hfilter.
  - constructor. apply Permutation_app_head. by apply fmap_Permutation.
Qed.

Lemma no_ties_filter k (rs : list CurbIDResponse.t) :
  NoDup ((fun r => (ParentID r, OrderIndex r)) <$> rs) ->
  NoDup (OrderIndex <$> filter (fun r => ParentID r = k) rs).
Proof.
  induction rs as [|r rs IH]; [constructor|].
  rewrite fmap_cons. intros [Hr Hrs]%NoDup_cons.
  rewrite filter_cons. case_decide as Hk; [|by apply IH].
  rewrite fmap_cons. apply NoDup_cons. split; [|by apply IH].
  intros (r' & Hindex & [Hk' Hr']%list_elem_of_filter)%list_elem_of_fmap.
  apply Hr. apply list_elem_of_fmap. exists r'. split; [|done].
  by rewrite Hk, Hk', Hindex.
Qed.

Lemma no_ties_recorded (rs : list CurbIDResponse.t) :
  NoDup ((fun r => (ParentID r, OrderIndex r)) <$> rs) ->
  no_ties (foldl record_result ∅ rs).
Proof.
  intros Hdup k bucket. rewrite foldl_record_result_lookup, lookup_empty.
  pose proof (no_ties_filter k rs Hdup) as Hk.
  destruct (filter _ rs) as [|r own]; [done|].
  intros [= <-]. simpl. rewrite <- list_fmap_compose. exact Hk.
Qed.

Lemma range_secrets_sorted_at
    (rec : secrets_map -> string -> option (secrets_map * string)) k :
  (forall m id m' out, rec m id = Some (m', out) -> sorted_at m k -> sorted_at m' k) ->
  forall l m m' out,
    range_secrets rec l m = Some (m', out) -> sorted_at m k -> sorted_at m' k.
Proof.
  intros Hrec l. induction l as [|secret l IH]; intros m m' out; simpl.
  - by intros [= <- _].
  - destruct (rec m (Secret.ID secret)) as [[m1 below1]|] eqn:E; [|done].
    destruct (range_secrets rec l m1) as [[m2 after]|] eqn:E2; [|done].
    intros [= <- _] Hm. eapply IH; [exact E2|]. by eapply Hrec.
Qed.

Lemma readSecretsMap_sorted_at `{SliceSort} fuel k :
  forall m id m' out,
    readSecretsMap fuel m id = Some (m', out) -> sorted_at m k -> sorted_at m' k.
Proof.
  induction fuel as [|fuel IH]; intros m id m' out; [done|].
  simpl. destruct (m !! id) as [bucket|] eqn:Hid; [|by intros [= <- _]].
  intros Hwalk Hm. eapply range_secrets_sorted_at; [exact IH|exact Hwalk|].
  intros bucket'. rewrite lookup_insert. case_decide.
  - intros [= <-]. apply sort_slice_sorted.
  - apply Hm.
Qed.

(** A walk that comes to an identifier that is below itself never
    returns. *)
Lemma reach_never_returns `{SliceSort} m k :
  reach m k ->
  (forall fuel m1, same_entries m m1 -> readSecretsMap fuel m1 k = None) ->
  forall fuel, readSecretsMap fuel m rootID = None.
Proof.
  intros Hreach Hnever fuel.
  destruct (readSecretsMap fuel m rootID) as [[m' out]|] eqn:Hwalk; [|done].
  destruct (reach_walked _ _ Hreach _ _ _ _ (same_entries_refl m) Hwalk)
    as (fuel1 & m1 & m1' & below1 & Hsame & Hwalk1 & _).
  by rewrite (Hnever fuel1 m1 Hsame) in Hwalk1.
Qed.

(** ** A full results channel *)

Section Deadlock.
Context `{SliceSort}.
Variable net : string -> http_outcome -> Prop.
Variable id : string.
Variable root : CurbIDResponse.t.
Hypothesis Hroot : answers net (mkFetcher id rootID 0 false) root.
Hypothesis Hno : Secret root = NO_SECRET.
Hypothesis Hok : ¬ unexpected_message root.
Hypothesis Hmany :
  (N.to_nat resultsCap + requestsCap < length (Next root))%nat.
Hypothesis Hserved : forall c, c ∈ Next root -> exists outcome, net c outcome.
Hypothesis Hgood :
  forall c outcome index,
    c ∈ Next root -> net c outcome ->
    is_Some (fetchID outcome (ID root) index).

(** The loop ranges over the list of [root], the first [k] children have
    come and gone, and their results wait in the channel. *)
Definition queued (k : nat) (s : state) : Prop :=
  reachable net id s
  ∧ pc s = Ranging root k (drop k (Next root))
  ∧ fetchers s = [] ∧ requestsChan s = 0%nat ∧ leaving s = 0%nat
  ∧ length (resultsChan s) = k.

(** The channel is full and [j] more children are inside [fetchID]. *)
Definition blocked (j : nat) (s : state) : Prop :=
  reachable net id s
  ∧ pc s = Ranging root (N.to_nat resultsCap + j)
             (drop (N.to_nat resultsCap + j) (Next root))
  ∧ length (fetchers s) = j ∧ requestsChan s = j ∧ leaving s = 0%nat
  ∧ length (resultsChan s) = N.to_nat resultsCap
  ∧ Forall (fun g => f_id g ∈ Next root ∧ f_parent g = ID root) (fetchers s).

Lemma drop_next k :
  (k < length (Next root))%nat ->
  exists c, c ∈ Next root ∧ drop k (Next root) = c :: drop (S k) (Next root).
Proof.
  intros Hk. destruct (lookup_lt_is_Some_2 (Next root) k Hk) as [c Hc].
  exists c. split; [by eapply list_elem_of_lookup_2|].
  by apply drop_S.
Qed.

Lemma queued_first : exists s, queued 0 s.
Proof.
  destruct Hroot as (outcome & Hnet & Hfetch). simpl in Hnet, Hfetch.
  set (s1 := deliver (init id) [] [] (mkFetcher id rootID 0 false) root).
  assert (reachable net id s1) as Hs1.
  { eapply reachable_step; [constructor|].
    by eapply (step_deliver _ (init id) [] _ []). }
  exists (receive s1 root []).
  destruct (receive_unchanged s1 root []) as (Hf & _ & Hr & Hl & Hq).
  split_and!.
  - eapply reachable_step; [exact Hs1|]. by apply step_receive.
  - by rewrite receive_no_secret.
  - by rewrite Hf.
  - by rewrite Hr.
  - by rewrite Hl.
  - by rewrite Hq.
Qed.

Lemma queued_next k s :
  (k < N.to_nat resultsCap)%nat -> queued k s -> exists s', queued (S k) s'.
Proof.
  intros Hk (Hreach & Hpc & Hf & Hr & Hl & Hq).
  destruct (drop_next k) as (c & Hc & Hdrop); [lia|].
  rewrite Hdrop in Hpc.
  set (g := child_fetcher root k c).
  set (s1 := schedule s root k c (drop (S k) (Next root))).
  assert (reachable net id s1) as Hs1.
  { eapply reachable_step; [exact Hreach|].
    apply step_schedule; [done|]. rewrite Hr. unfold requestsCap. lia. }
  destruct (Hserved c Hc) as [outcome Hout].
  destruct (Hgood c outcome (Z.of_nat k) Hc Hout) as [r Hfetch].
  set (s2 := deliver s1 [] [] g r).
  assert (reachable net id s2) as Hs2.
  { eapply reachable_step; [exact Hs1|].
    eapply (step_deliver _ s1 [] g []); try done.
    - simpl. by rewrite Hf.
    - simpl. lia. }
  exists (release s2). split_and!.
  - eapply reachable_step; [exact Hs2|]. apply step_release; [done|].
    simpl. rewrite Hl. lia.
  - done.
  - done.
  - simpl. by rewrite Hr.
  - simpl. by rewrite Hl.
  - simpl. rewrite length_app, Hq. simpl. lia.
Qed.

Lemma queued_all k :
  (k <= N.to_nat resultsCap)%nat -> exists s, queued k s.
Proof.
  induction k as [|k IH]; intros Hk; [apply queued_first|].
  destruct IH as [s Hs]; [lia|]. apply (queued_next k s); [lia|done].
Qed.

Lemma blocked_next j s :
  (j < requestsCap)%nat -> blocked j s -> exists s', blocked (S j) s'.
Proof.
  intros Hj (Hreach & Hpc & Hf & Hr & Hl & Hq & Hall).
  destruct (drop_next (N.to_nat resultsCap + j)) as (c & Hc & Hdrop); [lia|].
  rewrite Hdrop in Hpc.
  exists (schedule s root (N.to_nat resultsCap + j) c
            (drop (S (N.to_nat resultsCap + j)) (Next root))).
  split_and!.
  - eapply reachable_step; [exact Hreach|].
    apply step_schedule; [done|]. rewrite Hr. done.
  - unfold schedule. cbn [pc]. by rewrite Nat.add_succ_r.
  - simpl. rewrite length_app, Hf. simpl. lia.
  - simpl. by rewrite Hr.
  - done.
  - done.
  - simpl. apply Forall_app. split; [done|]. by repeat constructor.
Qed.

Lemma blocked_all j :
  (j <= requestsCap)%nat -> exists s, blocked j s.
Proof.
  induction j as [|j IH]; intros Hj.
  - destruct (queued_all (N.to_nat resultsCap)) as [s Hs]; [lia|].
    destruct Hs as (Hreach & Hpc & Hf & Hr & Hl & Hq).
    exists s. unfold blocked. rewrite Nat.add_0_r, Hf.
    by split_and!.
  - destruct IH as [s Hs]; [lia|]. apply (blocked_next j s); [lia|done].
Qed.

Lemma blocked_stuck s s' : blocked requestsCap s -> ¬ step net s s'.
Proof.
  intros (Hreach & Hpc & Hf & Hr & Hl & Hq & Hall) Hstep.
  destruct (drop_next (N.to_nat resultsCap + requestsCap)) as (c & Hc & Hdrop);
    [lia|].
  rewrite Hdrop in Hpc.
  destruct Hstep as [s r q Hpc' _|s r i c' todo Hpc' Hlt|s r i Hpc'
    |s before g after outcome r Halive Hg _ _ Hroom
    |s before g after outcome Halive Hg Hout Hfail
    |s Halive Hleaving|s fuel m out Hpc' Hwalk];
    try (by rewrite Hpc in Hpc'); try lia.
  rewrite Forall_forall in Hall.
  destruct (Hall g) as [Hin Hparent].
  { rewrite Hg. apply elem_of_app. right. apply list_elem_of_here. }
  destruct (Hgood _ _ (f_index g) Hin Hout) as [r Hr'].
  rewrite Hparent in Hfail. congruence.
Qed.
End Deadlock.

(** ** More on decoding *)

Lemma read_json_rendered_session token :
  plain token = true ->
  read_json (render_session token)
  = Read (JObject [("session", JString token)]) "".
Proof.
  intros Htoken. unfold read_json.
  assert (forall fuel, (2 < fuel)%nat ->
            read_value fuel 0 (render_session token)
            = Read (JObject [("session", JString token)]) "") as Hread.
  { intros fuel Hfuel. do 3 (destruct fuel as [|fuel]; [lia|]).
    unfold render_session. rewrite !quoted_append, !append_cons, !append_nil_l.
    apply read_value_object; [done|].
    eapply read_members_last; [by apply (read_chars_plain "session")|].
    by apply read_value_string, read_chars_plain. }
  rewrite Hread; [done|]. unfold render_session. rewrite !length_append. simpl. lia.
Qed.

Lemma ToLower_render_session token :
  ToLower (render_session token) = render_session (ToLower token).
Proof.
  unfold render_session. by rewrite !ToLower_append, !ToLower_quoted.
Qed.

Lemma store_sessions_untouched members s s' :
  Forall (fun member => fold_key member.1 ≠ "session") members ->
  store_sessions s members = Some s' -> s' = s.
Proof.
  revert s. induction members as [|[key v] members IH]; intros s Hkeys; simpl.
  - by intros [= <-].
  - apply Forall_cons in Hkeys as [Hkey Hkeys]. simpl in Hkey.
    rewrite decide_False by done. by apply IH.
Qed.

Lemma unmarshal_string_is_Some old v :
  is_Some (unmarshal_string old v) <-> string_or_null v.
Proof.
  unfold string_or_null. destruct v; simpl; split;
    try (intros [? [=]]); try (intros [[=]|[? [=]]]); eauto.
Qed.

Lemma mapM_unmarshal_string elems :
  is_Some (mapM (unmarshal_string "") elems) <-> Forall string_or_null elems.
Proof.
  rewrite mapM_is_Some. apply Forall_proper; [|done].
  intros v. apply unmarshal_string_is_Some.
Qed.

Lemma store_member_Depth r key v r' :
  fold_key key ≠ "depth" -> store_member r (key, v) = Some r' ->
  Depth r' = Depth r.
Proof. intros Hkey. store_member_cases. Qed.

Lemma store_member_Message r key v r' :
  fold_key key ≠ "message" -> store_member r (key, v) = Some r' ->
  Message r' = Message r.
Proof. intros Hkey. store_member_cases. Qed.

Lemma store_member_passed_over parent index member :
  passed_over member ->
  store_member (fresh parent index) member = Some (fresh parent index).
Proof.
  destruct member as [key v]. intros [Hnull|Hname]; simpl in *.
  - subst v. unfold store_member. by repeat case_decide.
  - unfold field_names in Hname. unfold store_member.
    repeat case_decide; try done; exfalso; apply Hname; set_solver.
Qed.

(** ** Servers that describe a tree *)

Lemma job_filed_forest p cs n :
  concat (job_filed <$> imap (fun k c' => mkJob p (n + k) c') cs)
  = forest (filed p) n cs.
Proof.
  revert n. induction cs as [|c cs IH]; intros n; simpl; [done|].
  unfold job_filed at 1. simpl. rewrite Nat.add_0_r. f_equal.
  rewrite <- IH. f_equal. f_equal. apply imap_ext. intros k c' _. simpl.
  f_equal. lia.
Qed.

Lemma drop_cons_inv {A} (l : list A) n x rest :
  drop n l = x :: rest -> l !! n = Some x ∧ rest = drop (S n) l.
Proof.
  intros Hdrop.
  assert (l !! n = Some x) as Hx.
  { replace n with (n + 0)%nat by lia. rewrite <- lookup_drop. by rewrite Hdrop. }
  split; [done|]. rewrite (drop_S _ _ _ Hx) in Hdrop. by injection Hdrop.
Qed.

Lemma child_jobs_cons c n c' :
  tree_children c !! n = Some c' ->
  child_jobs c n = mkJob (tree_id c) n c' :: child_jobs c (S n).
Proof.
  intros Hc. unfold child_jobs. rewrite (drop_S _ _ _ Hc). simpl.
  rewrite Nat.add_0_r. f_equal. apply imap_ext. intros k x _. simpl. f_equal. lia.
Qed.

Lemma perm_received {A} (h F Q C : list A) x :
  (h ++ [x]) ++ F ++ Q ++ C ≡ₚ h ++ F ++ (x :: C) ++ Q.
Proof.
  rewrite <- !app_assoc. apply Permutation_app_head. simpl.
  etrans; [|apply Permutation_middle]. apply perm_skip.
  apply Permutation_app_head, Permutation_app_comm.
Qed.

Lemma perm_received_leaf {A} (h F Q : list A) x :
  (h ++ [x]) ++ F ++ Q ≡ₚ h ++ F ++ x :: Q.
Proof.
  rewrite <- !app_assoc. apply Permutation_app_head. simpl.
  apply Permutation_middle.
Qed.

Lemma perm_scheduled {A} (h F Q J R : list A) :
  h ++ (F ++ J) ++ Q ++ R ≡ₚ h ++ F ++ Q ++ J ++ R.
Proof.
  rewrite <- !app_assoc. do 2 apply Permutation_app_head.
  apply Permutation_app_swap_app.
Qed.

Lemma perm_delivered {A} (h Fb J Fa Q R : list A) :
  h ++ (Fb ++ Fa) ++ (Q ++ J) ++ R ≡ₚ h ++ (Fb ++ J ++ Fa) ++ Q ++ R.
Proof.
  rewrite <- !app_assoc. do 2 apply Permutation_app_head.
  symmetry. rewrite !(app_assoc Fa Q). apply Permutation_app_swap_app.
Qed.

Section Jobs.
Context `{SliceSort}.
Variable net : string -> http_outcome -> Prop.
Variable t : tree.

Lemma described_children c :
  described net c -> Forall (described net) (tree_children c).
Proof. by inversion 1. Qed.

Lemma described_leaf c :
  described net c -> tree_fragment c ≠ NO_SECRET -> tree_children c = [].
Proof.
  inversion 1 as [? ? ? _ Hinner _]; subst. simpl. intros Hfragment.
  destruct children; [done|]. destruct Hfragment. by apply Hinner.
Qed.

Lemma described_server c outcome parent index r :
  described net c ->
  net (tree_id c) outcome -> fetchID outcome parent index = Some r ->
  ID r = tree_id c ∧ Secret r = tree_fragment c
  ∧ Next r = tree_id <$> tree_children c
  ∧ ParentID r = parent ∧ OrderIndex r = index.
Proof. inversion 1 as [? ? ? Hserver _ _]; subst. simpl. apply Hserver. Qed.

Lemma described_result j g outcome r :
  described net (j_tree j) -> fetcher_of j g ->
  net (f_id g) outcome -> fetchID outcome (f_parent g) (f_index g) = Some r ->
  result_of j r.
Proof.
  intros Hc (Hid & Hp & Hi) Hout Hfetch. rewrite Hid in Hout.
  destruct (described_server _ _ _ _ _ Hc Hout Hfetch) as (? & ? & ? & ? & ?).
  unfold result_of. by rewrite <- Hp, <- Hi.
Qed.

Lemma child_jobs_described c n :
  described net c -> Forall (fun j => described net (j_tree j)) (child_jobs c n).
Proof.
  intros Hc%described_children. unfold child_jobs.
  apply Forall_forall. intros j Hj.
  apply list_elem_of_lookup in Hj as [k Hk].
  rewrite list_lookup_imap in Hk.
  destruct (drop n (tree_children c) !! k) as [c'|] eqn:Hc'; [|done].
  injection Hk as <-. simpl.
  rewrite Forall_forall in Hc. apply Hc.
  rewrite lookup_drop in Hc'. by eapply list_elem_of_lookup_2.
Qed.

(** The work in hand.  Every goroutine inside [fetchID], every result in
    the channel and every child the range loop has yet to come to stands
    for a subtree of [t]; what has been recorded together with what the
    traversals of those subtrees file is what the traversal of [t] files. *)
Definition jobs_inv (s : state) : Prop :=
  pc s = Panicked
  ∨ exists fetching queued ranging : list job,
      Forall2 (fun g j => fetcher_of j g) (fetchers s) fetching
      ∧ Forall2 (fun r j => result_of j r) (resultsChan s) queued
      ∧ Forall (fun j => described net (j_tree j)) (fetching ++ queued ++ ranging)
      ∧ match pc s with
        | Ranging r index todo =>
            exists c,
              ID r = tree_id c
              ∧ ranging = child_jobs c index
              ∧ todo = tree_id <$> drop index (tree_children c)
        | _ => ranging = []
        end
      ∧ (filing <$> handled s)
          ++ concat (job_filed <$> fetching)
          ++ concat (job_filed <$> queued)
          ++ concat (job_filed <$> ranging)
        ≡ₚ filed rootID 0 t.

Lemma jobs_inv_next_iteration s fetching queued :
  Forall2 (fun g j => fetcher_of j g) (fetchers s) fetching ->
  Forall2 (fun r j => result_of j r) (resultsChan s) queued ->
  Forall (fun j => described net (j_tree j)) (fetching ++ queued) ->
  (filing <$> handled s)
    ++ concat (job_filed <$> fetching) ++ concat (job_filed <$> queued)
  ≡ₚ filed rootID 0 t ->
  jobs_inv (next_iteration s).
Proof.
  intros Hf Hq Hd Hperm. right. exists fetching, queued, [].
  unfold next_iteration. simpl. rewrite !app_nil_r.
  split_and!; [done..| |done].
  by case_decide.
Qed.

Lemma jobs_inv_step s s' : jobs_inv s -> step net s s' -> jobs_inv s'.
Proof.
  intros Hs Hstep. pose proof (step_alive _ _ _ Hstep) as Hlive.
  destruct Hs as [Hs|(FJ & QJ & RJ & Hf & Hq & Hd & Hr & Hperm)];
    [unfold alive in Hlive; by rewrite Hs in Hlive|].
  destruct Hstep as [s r q Hpc Hchan|s r i c' todo Hpc Hlt|s r i Hpc
    |s before g after outcome r Halive Hg Hout Hfetch _
    |s before g after outcome Halive _ _ _
    |s Halive Hleaving|s fuel m out Hpc Hwalk].
  - (* receive *)
    rewrite Hpc in Hr. subst RJ. rewrite Hchan in Hq.
    apply Forall2_cons_inv_l in Hq as (j & QJ' & Hj & Hq & ->).
    simpl in Hperm. rewrite !app_nil_r in Hperm, Hd.
    apply Forall_app in Hd as [Hdf Hdq].
    apply Forall_cons in Hdq as [Hdj Hdq].
    destruct (decide (unexpected_message r)) as [Hbad|Hok].
    { left. by rewrite receive_panics. }
    destruct (receive_unchanged s r q) as (Ef & _ & _ & _ & Eq).
    destruct (receive_recorded s r q Hok) as [_ Eh].
    assert (job_filed j
            = filing r :: forest (filed (tree_id (j_tree j))) 0
                            (tree_children (j_tree j))) as Hfiled.
    { destruct Hj as (Hid & Hsecret & _ & Hparent & Hindex).
      destruct j as [p n [id fragment children]]. unfold job_filed, filing, collected.
      simpl in *. by rewrite Hid, Hsecret, Hparent, Hindex. }
    destruct (decide (Secret r = NO_SECRET)) as [Hno|Hsecret].
    + right. exists FJ, QJ', (child_jobs (j_tree j) 0).
      rewrite Ef, Eq, Eh, (receive_no_secret s r q Hok Hno).
      split_and!; [done..| | |].
      * apply Forall_app. split; [done|]. apply Forall_app. split; [done|].
        by apply child_jobs_described.
      * exists (j_tree j). destruct Hj as (Hid & _ & Hnext & _).
        split_and!; [done..|]. by rewrite drop_0.
      * rewrite <- Hperm, Hfiled, fmap_app.
        unfold child_jobs. rewrite drop_0.
        rewrite (job_filed_forest (tree_id (j_tree j)) _ 0).
        apply perm_received.
    + assert (receive s r q
              = next_iteration
                  (mkState (record_result (secretsMap s) r) (fetching s) Receiving q
                     (requestsChan s) (fetchers s) (leaving s) (started s)
                     (handled s ++ [r]))) as ->.
      { unfold receive. rewrite decide_False by done. by rewrite decide_True. }
      apply (jobs_inv_next_iteration _ FJ QJ'); simpl; [done..| |].
      * by apply Forall_app.
      * rewrite <- Hperm, Hfiled, fmap_app.
        destruct Hj as (_ & Hfragment & _).
        rewrite (described_leaf (j_tree j)) by (done || by rewrite <- Hfragment).
        simpl. apply perm_received_leaf.
  - (* schedule *)
    rewrite Hpc in Hr. destruct Hr as (c & Hid & -> & Htodo).
    symmetry in Htodo. apply fmap_cons_inv in Htodo as (c1 & rest & Hc1 & Hrest & Hdrop).
    apply drop_cons_inv in Hdrop as [Hlookup ->].
    rewrite (child_jobs_cons c i c1 Hlookup) in Hd, Hperm.
    right. exists (FJ ++ [mkJob (tree_id c) i c1]), QJ, (child_jobs c (S i)).
    simpl. split_and!.
    + apply Forall2_app; [done|]. constructor; [|constructor].
      unfold fetcher_of. simpl. by rewrite Hid, Hc1.
    + done.
    + rewrite Forall_app, Forall_app, Forall_cons in Hd.
      destruct Hd as (? & ? & ? & ?).
      rewrite !Forall_app, Forall_singleton. done.
    + exists c. by rewrite Hrest.
    + rewrite <- Hperm, fmap_app, concat_app. simpl. rewrite app_nil_r.
      apply perm_scheduled.
  - (* the range is over *)
    rewrite Hpc in Hr. destruct Hr as (c & Hid & -> & Htodo).
    symmetry in Htodo. apply fmap_nil_inv in Htodo.
    unfold child_jobs in Hd, Hperm. rewrite Htodo in Hd, Hperm. simpl in Hd, Hperm.
    rewrite !app_nil_r in Hd, Hperm.
    by apply (jobs_inv_next_iteration _ FJ QJ).
  - (* a result is sent *)
    rewrite Hg in Hf.
    apply Forall2_app_inv_l in Hf as (FJb & FJ2 & Hfb & Hf2 & ->).
    apply Forall2_cons_inv_l in Hf2 as (j & FJa & Hj & Hfa & ->).
    right. exists (FJb ++ FJa), (QJ ++ [j]), RJ. simpl.
    rewrite !Forall_app, Forall_cons in Hd.
    destruct Hd as ((Hdb & Hdj & Hda) & Hdq & Hdr).
    split_and!.
    + by apply Forall2_app.
    + apply Forall2_app; [done|]. constructor; [|constructor].
      by eapply described_result.
    + rewrite !Forall_app, Forall_singleton. done.
    + done.
    + rewrite <- Hperm, !fmap_app, !concat_app. simpl. rewrite app_nil_r.
      apply perm_delivered.
  - by left.
  - right. exists FJ, QJ, RJ. done.
  - right. exists FJ, QJ, RJ. simpl. rewrite Hpc in Hr. done.
Qed.

Lemma jobs_inv_reachable s :
  described net t -> reachable net (tree_id t) s -> jobs_inv s.
Proof.
  intros Ht. induction 1 as [|s s' _ IH Hstep]; [|by eapply jobs_inv_step].
  right. exists [mkJob rootID 0 t], [], []. simpl.
  split_and!; [|done| |done|].
  - by repeat constructor.
  - by repeat constructor.
  - unfold job_filed. simpl. by rewrite !app_nil_r.
Qed.

(** When the loop is over, what has been recorded is what a traversal of
    [t] files. *)
Lemma tree_recorded s :
  described net t -> reachable net (tree_id t) s ->
  pc s = Printing ∨ (exists output, pc s = Finished output) ->
  filing <$> handled s ≡ₚ filed rootID 0 t.
Proof.
  intros Ht Hreach Hpc.
  pose proof (count_inv_reachable _ _ _ Hreach) as Hcount.
  destruct (jobs_inv_reachable s Ht Hreach)
    as [Hpanic|(FJ & QJ & RJ & Hf & Hq & _ & Hr & Hperm)].
  { destruct Hpc as [Hpc|[output Hpc]]; by rewrite Hpc in Hpanic. }
  unfold count_inv in Hcount.
  assert (fetchers s = [] ∧ resultsChan s = [] ∧ RJ = []) as (Ef & Eq & ->).
  { destruct Hpc as [Hpc|[output Hpc]]; rewrite Hpc in Hcount, Hr;
      by destruct Hcount. }
  rewrite Ef in Hf. rewrite Eq in Hq.
  apply Forall2_nil_inv_l in Hf as ->. apply Forall2_nil_inv_l in Hq as ->.
  simpl in Hperm. by rewrite app_nil_r in Hperm.
Qed.
End Jobs.

(** A completed traversal of a tree the servers describe has printed it
    depth first. *)
Lemma finished_tree_depth_first `{SliceSort} net t s output :
  described net t ->
  NoDup (rootID :: tree_ids t) ->
  reachable net (tree_id t) s ->
  pc s = Finished output ->
  output = depth_first t.
Proof.
  intros Ht Hdup Hreach Hpc.
  pose proof (tree_recorded net t s Ht Hreach (or_intror (ex_intro _ output Hpc)))
    as Hfiled.
  pose proof (map_inv_reachable _ _ _ Hreach) as Hmap.
  unfold map_inv in Hmap. rewrite Hpc in Hmap. destruct Hmap as [fuel Hwalk].
  destruct (recorded_tree_walk (handled s) t Hfiled Hdup) as [m' Hwalk'].
  pose proof (readSecretsMap_deterministic _ _ _ _ _ _ Hwalk Hwalk') as Heq.
  by injection Heq.
Qed.

(** While the loop has room to receive into, some goroutine can move. *)
Lemma loop_can_move `{SliceSort} net id s :
  reachable net id s ->
  pc s ≠ Printing -> alive s ->
  (N.of_nat (length (resultsChan s)) < resultsCap)%N ->
  (forall g, g ∈ fetchers s -> exists outcome, net (f_id g) outcome) ->
  exists s', step net s s'.
Proof.
  intros Hreach Hloop Halive Hroom Hnet.
  pose proof (count_inv_reachable _ _ _ Hreach) as Hcount.
  pose proof (slots_inv_reachable _ _ _ Hreach) as [Hcap Hslots].
  assert (fetchers s ≠ [] -> exists s', step net s s') as Hfetch.
  { destruct (fetchers s) as [|g after] eqn:Hf; [done|]. intros _.
    destruct (Hnet g) as [outcome Hout]; [apply list_elem_of_here|].
    destruct (fetchID outcome (f_parent g) (f_index g)) as [r|] eqn:Hr.
    - exists (deliver s [] after g r). by eapply (step_deliver _ s []).
    - exists (panic s). by eapply (step_fetch_panic _ s []). }
  unfold count_inv in Hcount. unfold alive in Halive.
  destruct (pc s) as [|r index todo| | |] eqn:Hpc; try done.
  - destruct (resultsChan s) as [|r queue] eqn:Hq.
    + apply Hfetch. intros Hf. rewrite Hf in Hcount. simpl in Hcount. lia.
    + exists (receive s r queue). by apply step_receive.
  - destruct todo as [|c todo].
    + exists (next_iteration s). by eapply step_range_done.
    + destruct (decide (requestsChan s < requestsCap)%nat) as [Hlt|Hfull].
      * exists (schedule s r index c todo). by apply step_schedule.
      * destruct (decide (0 < leaving s)%nat) as [Hleaving|Hnone].
        -- exists (release s). apply step_release; [|done].
           unfold alive. by rewrite Hpc.
        -- apply Hfetch. intros Hf.
           destruct Hslots as [[_ Hr]|(Hf' & _)]; [|by rewrite Hf in Hf'].
           rewrite Hf in Hr. simpl in Hr. unfold requestsCap in *. lia.
Qed.

Lemma length_filed t : forall parent index, length (filed parent index t) = size t.
Proof.
  unfold size. induction t as [id fragment children IH] using tree_ind.
  intros parent index. simpl. f_equal.
  generalize 0%nat at 1. generalize 0%nat.
  induction children as [|c children IHc]; intros n n'; simpl; [done|].
  apply Forall_cons in IH as [IHhead IHtail].
  rewrite !length_app, IHhead. f_equal. by apply IHc.
Qed.

Lemma length_job_filed j : (0 < length (job_filed j))%nat.
Proof. unfold job_filed. destruct (j_tree j). simpl. lia. Qed.

Lemma length_concat_job_filed js :
  (length js <= length (concat (job_filed <$> js)))%nat.
Proof.
  induction js as [|j js IH]; [done|].
  rewrite fmap_cons. change (concat (?x :: ?l)) with (x ++ concat l).
  rewrite length_app. pose proof (length_job_filed j). simpl length. lia.
Qed.

Section Liveness.
Context `{SliceSort}.
Variable net : string -> http_outcome -> Prop.
Variable t : tree.
Hypothesis Ht : described net t.

(** No more is recorded, queued and being fetched than the tree has
    nodes. *)
Lemma within_size s :
  reachable net (tree_id t) s -> pc s ≠ Panicked ->
  (length (handled s) + length (resultsChan s) + length (fetchers s)
   <= size t)%nat.
Proof.
  intros Hreach Hpc.
  destruct (jobs_inv_reachable net t s Ht Hreach)
    as [Hpanic|(FJ & QJ & RJ & Hf & Hq & _ & _ & Hperm)]; [done|].
  apply Permutation_length in Hperm.
  rewrite !length_app, length_fmap, length_filed in Hperm.
  apply Forall2_length in Hf. apply Forall2_length in Hq.
  pose proof (length_concat_job_filed FJ). pose proof (length_concat_job_filed QJ).
  lia.
Qed.

Lemma work_left_nonneg s :
  reachable net (tree_id t) s -> 0 <= work_left t s.
Proof.
  intros Hreach. unfold work_left.
  destruct (pc s) eqn:Hpc; try done;
    (assert (pc s ≠ Panicked) as Halive by (by rewrite Hpc));
    pose proof (within_size s Hreach Halive); lia.
Qed.

(** Every step brings the work left down. *)
Lemma work_left_step s s' :
  reachable net (tree_id t) s -> step net s s' ->
  work_left t s' < work_left t s.
Proof.
  intros Hreach Hstep.
  assert (pc s ≠ Panicked) as Hlive.
  { intros Hpanic. by eapply panicked_stuck. }
  pose proof (within_size s Hreach Hlive) as Hsize.
  assert (pc s' = Panicked -> work_left t s' < work_left t s) as Hpanic.
  { intros Hpc'. pose proof (step_alive _ _ _ Hstep) as Halive.
    unfold alive in Halive. unfold work_left. rewrite Hpc'.
    destruct (pc s); try done; lia. }
  destruct Hstep as [s r q Hpc Hchan|s r i c' todo Hpc Hlt|s r i Hpc
    |s before g after outcome r Halive Hg Hout Hfetch _
    |s before g after outcome Halive _ _ _
    |s Halive Hleaving|s fuel m out Hpc Hwalk].
  - destruct (decide (unexpected_message r)) as [Hbad|Hok].
    { apply Hpanic. by rewrite receive_panics. }
    unfold work_left at 2. rewrite Hpc, Hchan. simpl length.
    unfold receive. rewrite decide_False by done.
    case_decide; unfold work_left, next_iteration; simpl;
      [case_decide; simpl|]; rewrite ?length_app; simpl; lia.
  - unfold work_left. rewrite Hpc. simpl. rewrite length_app. simpl. lia.
  - unfold work_left. rewrite Hpc. unfold next_iteration. simpl.
    case_decide; simpl; lia.
  - unfold alive in Halive. unfold work_left. simpl. rewrite Hg.
    destruct (pc s); try done; rewrite !length_app; simpl;
      destruct (gated g); lia.
  - by apply Hpanic.
  - unfold alive in Halive. unfold work_left. simpl.
    destruct (pc s); try done; lia.
  - unfold work_left. rewrite Hpc. simpl. lia.
Qed.

Lemma nsteps_work_left n s s' :
  reachable net (tree_id t) s -> nsteps (step net) n s s' ->
  reachable net (tree_id t) s' ∧ Z.of_nat n + work_left t s' <= work_left t s.
Proof.
  intros Hreach Hrun. induction Hrun as [s|n s s1 s' Hstep _ IH].
  - split; [done|lia].
  - assert (reachable net (tree_id t) s1) as Hreach1 by (by eapply reachable_step).
    destruct (IH Hreach1) as [Hreach' Hle]. split; [done|].
    pose proof (work_left_step s s1 Hreach Hstep). lia.
Qed.
End Liveness.

(** ** Members of the wrong type *)

Lemma unmarshal_int_old old old' v :
  unmarshal_int old v = None -> unmarshal_int old' v = None.
Proof. destruct v; try done. Qed.

Lemma unmarshal_string_None old v :
  ¬ string_or_null v -> unmarshal_string old v = None.
Proof.
  intros Hv. destruct (unmarshal_string old v) as [s|] eqn:E; [|done].
  destruct Hv. apply (unmarshal_string_is_Some old). by rewrite E.
Qed.

Lemma store_member_wrongly_typed r member :
  wrongly_typed member -> store_member r member = None.
Proof.
  destruct member as [key v]. unfold wrongly_typed. simpl.
  intros [[Hname Hv]|[[Hname Hv]|[Hname Hv]]]; unfold store_member.
  - repeat (apply elem_of_cons in Hname as [->|Hname]);
      [..|by apply elem_of_nil in Hname];
      repeat (rewrite decide_False by done); rewrite decide_True by done;
      by rewrite unmarshal_string_None.
  - repeat (apply elem_of_cons in Hname as [->|Hname]);
      [..|by apply elem_of_nil in Hname];
      repeat (rewrite decide_False by done); rewrite decide_True by done;
      by rewrite (unmarshal_int_old 0 _ _ Hv).
  - rewrite Hname. repeat (rewrite decide_False by done).
    rewrite decide_True by done. by rewrite Hv.
Qed.

Lemma store_members_wrongly_typed members :
  Exists wrongly_typed members -> forall r, store_members r members = None.
Proof.
  induction 1 as [member members Hbad|member members _ IH]; intros r; simpl.
  - by rewrite store_member_wrongly_typed.
  - destruct (store_member r member); [apply IH|done].
Qed.

(** ** Runs are executions *)

Lemma act_step `{SliceSort} server fuel a s s' :
  act server fuel a s = Some s' -> step (serves server) s s'.
Proof.
  destruct a as [|n|]; simpl.
  - destruct (pc s) as [|r index [|id todo]| | |] eqn:Hpc; try done.
    + destruct (resultsChan s) as [|r queue] eqn:Hq; [done|].
      intros [= <-]. by constructor.
    + intros [= <-]. by econstructor.
    + case_decide; [|done]. intros [= <-]. by constructor.
    + destruct (readSecretsMap fuel (secretsMap s) rootID) as [[m output]|] eqn:Hwalk;
        [|done].
      intros [= <-]. by econstructor.
  - case_decide as Halive; [|done].
    destruct (fetchers s !! n) as [g|] eqn:Hg; [|done].
    assert (fetchers s = take n (fetchers s) ++ g :: drop (S n) (fetchers s)) as Hsplit.
    { by rewrite take_drop_middle. }
    destruct (fetchID (server (f_id g)) (f_parent g) (f_index g)) as [r|] eqn:Hfetch.
    + case_decide; [|done]. intros [= <-].
      by eapply step_deliver.
    + intros [= <-]. by eapply step_fetch_panic.
  - case_decide as Hok; [|done]. destruct Hok. intros [= <-]. by constructor.
Qed.

Lemma run_reachable `{SliceSort} server fuel actions id s s' :
  reachable (serves server) id s ->
  run server fuel actions s = Some s' ->
  reachable (serves server) id s'.
Proof.
  revert s. induction actions as [|a actions IH]; intros s Hs; simpl.
  - by intros [= <-].
  - destruct (act server fuel a s) as [s1|] eqn:Hact; [|done].
    apply IH. eapply reachable_step; [done|]. by eapply act_step.
Qed.

Lemma run_nsteps `{SliceSort} server fuel actions s s' :
  run server fuel actions s = Some s' ->
  nsteps (step (serves server)) (length actions) s s'.
Proof.
  revert s. induction actions as [|a actions IH]; intros s; simpl.
  - intros [= <-]. constructor.
  - destruct (act server fuel a s) as [s1|] eqn:Hact; [|done].
    intros Hrun. eapply nsteps_l; [by eapply act_step|by apply IH].
Qed.

Lemma step_successor `{SliceSort} server fuel s s' :
  step (serves server) s s' ->
  (pc s = Printing -> is_Some (readSecretsMap fuel (secretsMap s) rootID)) ->
  s' ∈ successors server fuel s.
Proof.
  intros Hstep Hwalk. unfold successors. apply list_elem_of_omap.
  destruct Hstep as [s r q Hpc Hq|s r i c todo Hpc Hlt|s r i Hpc
    |s before g after outcome r Halive Hg Hout Hfetch Hroom
    |s before g after outcome Halive Hg Hout Hfetch
    |s Halive Hleaving|s fuel' m out Hpc Hprint].
  - exists Main. split; [set_solver|]. simpl. by rewrite Hpc, Hq.
  - exists Main. split; [set_solver|]. simpl. rewrite Hpc. by rewrite decide_True.
  - exists Main. split; [set_solver|]. simpl. by rewrite Hpc.
  - exists (Fetch (length before)). split.
    + do 2 apply list_elem_of_further. apply list_elem_of_fmap.
      exists (length before). split; [done|]. apply elem_of_seq.
      rewrite Hg, length_app. simpl. lia.
    + simpl. rewrite decide_True by done. rewrite Hg.
      rewrite list_lookup_middle by done.
      rewrite Hout in Hfetch. rewrite Hfetch.
      rewrite decide_True by done.
      by rewrite take_app_length, drop_middle.
  - exists (Fetch (length before)). split.
    + do 2 apply list_elem_of_further. apply list_elem_of_fmap.
      exists (length before). split; [done|]. apply elem_of_seq.
      rewrite Hg, length_app. simpl. lia.
    + simpl. rewrite decide_True by done. rewrite Hg.
      rewrite list_lookup_middle by done.
      rewrite Hout in Hfetch. by rewrite Hfetch.
  - exists Release. split; [set_solver|]. simpl. by rewrite decide_True.
  - exists Main. split; [set_solver|]. simpl. rewrite Hpc.
    destruct (Hwalk Hpc) as [[m0 out0] Hprint0]. rewrite Hprint0.
    by pose proof (readSecretsMap_deterministic _ _ _ _ _ _ Hprint Hprint0) as [= -> ->].
Qed.

(** A closed list that holds the first state holds every state of every
    run. *)
Lemma closed_reachable `{SliceSort} server fuel all id s :
  init id ∈ all -> closed server fuel all = true ->
  reachable (serves server) id s -> s ∈ all.
Proof.
  intros Hinit Hclosed. induction 1 as [|s s' _ IH Hstep]; [done|].
  unfold closed in Hclosed. rewrite forallb_forall in Hclosed.
  specialize (Hclosed s (proj1 (list_elem_of_In _ _) IH)).
  apply andb_prop in Hclosed as [Hsucc Hwalk].
  rewrite forallb_forall in Hsucc.
  eapply bool_decide_eq_true_1, Hsucc, list_elem_of_In.
  apply (step_successor _ fuel); [done|].
  intros Hpc. rewrite Hpc in Hwalk. by eapply bool_decide_eq_true_1.
Qed.

(** What has been checked on every state of a closed list holds in every
    state of every run. *)
Lemma checked_reachable `{SliceSort} server fuel all id (check : state -> bool) s :
  reachable (serves server) id s ->
  init id ∈ all -> closed server fuel all = true ->
  forallb check all = true ->
  check s = true.
Proof.
  intros Hreach Hinit Hclosed Hcheck.
  rewrite forallb_forall in Hcheck. apply Hcheck, list_elem_of_In.
  by eapply closed_reachable.
Qed.

Ltac check_all_states states :=
  match goal with
  | |- ?check ?s = true =>
      eapply (checked_reachable _ 3 states _ check);
      [eassumption
      |eapply bool_decide_eq_true_1; vm_compute; reflexivity
      |vm_compute; reflexivity
      |vm_compute; reflexivity]
  end.

(** * Part III: servers and runs *)

(** ** A start node with three children *)

(** The start node lists the children a, b, c, whose bodies carry X, Y
    and Z. *)
Definition three_children (id : string) : http_outcome :=
  if decide (id = "start") then
    Response 200 (wire "{'id':'start','depth':0,'next':['a','b','c']}")
  else if decide (id = "a") then Response 200 (wire "{'id':'a','depth':1,'secret':'X'}")
  else if decide (id = "b") then Response 200 (wire "{'id':'b','depth':1,'secret':'Y'}")
  else if decide (id = "c") then Response 200 (wire "{'id':'c','depth':1,'secret':'Z'}")
  else Response 404 "".

(** The fetches of c, b, a complete in that order, the reverse of the
    listing. *)
Definition reverse_arrival : list action :=
  [Fetch 0; Main; Main; Main; Main; Main;
   Fetch 2; Fetch 1; Fetch 0; Main; Main; Main].

(** The state in which the loop has ended after [reverse_arrival]. *)
Definition after_reverse_arrival : state :=
  default (init "start")
    (run three_children 0 reverse_arrival (init "start")).

(** The traversal of [three_children] completed. *)
Definition three_children_done : state :=
  default (init "start")
    (run three_children 3 (reverse_arrival ++ [Main]) (init "start")).

Lemma three_children_done_reachable :
  reachable (serves three_children) "start" three_children_done.
Proof.
  apply (run_reachable three_children 3 (reverse_arrival ++ [Main])
           "start" (init "start")); [constructor|].
  vm_compute. reflexivity.
Qed.

(** None of the bodies of [three_children] names a parent. *)
Lemma three_children_keeps_lineage : keeps_lineage (serves three_children).
Proof.
  intros id outcome parent index r -> Hfetch. revert Hfetch.
  unfold three_children. repeat case_decide; vm_compute; by intros [= <-].
Qed.

(** Nor an order index. *)
Lemma three_children_keeps_index : keeps_index (serves three_children).
Proof.
  intros id outcome parent index r -> Hfetch. revert Hfetch.
  unfold three_children. repeat case_decide; vm_compute; by intros [= <-].
Qed.

Definition three_children_states : list state :=
  explore three_children 3 100 [init "start"] [init "start"].

(** Whatever the interleaving, a completed traversal of [three_children]
    has printed xyz. *)
Lemma three_children_prints_xyz s output :
  reachable (serves three_children) "start" s ->
  pc s = Finished output -> output = "xyz".
Proof.
  intros Hreach Hpc.
  assert (prints "xyz" s = true) as Hcheck by check_all_states three_children_states.
  unfold prints in Hcheck. rewrite Hpc in Hcheck.
  by eapply bool_decide_eq_true_1.
Qed.

(** ** Servers that depart from the specification *)

(** A server whose bodies carry no id. *)
Definition anonymous (id : string) : http_outcome :=
  if decide (id = "start") then Response 200 (wire "{'depth':0,'next':['a']}")
  else if decide (id = "a") then Response 200 (wire "{'depth':1,'secret':'X'}")
  else Response 404 "".

(** The start node greets, and its child carries a message too, with no
    depth in its body. *)
Definition chatty (id : string) : http_outcome :=
  if decide (id = "start") then
    Response 200 (wire "{'id':'start','depth':0,'message':'hello','next':['a']}")
  else if decide (id = "a") then
    Response 200 (wire "{'id':'a','message':'again','secret':'x'}")
  else Response 404 "".

(** The body of the start node names a parent of its own. *)
Definition adopted (id : string) : http_outcome :=
  if decide (id = "start") then
    Response 200 (wire "{'id':'start','secret':'x','parentid':'elsewhere'}")
  else Response 404 "".

(** The start node reports depth 1 along with its greeting. *)
Definition deep_root (id : string) : http_outcome :=
  if decide (id = "start") then
    Response 200 (wire "{'id':'start','depth':1,'message':'hello','secret':'x'}")
  else Response 404 "".

(** The child b answers with status 500. *)
Definition broken_child (id : string) : http_outcome :=
  if decide (id = "start") then
    Response 200 (wire "{'id':'start','depth':0,'next':['a','b']}")
  else if decide (id = "a") then Response 200 (wire "{'id':'a','depth':1,'secret':'x'}")
  else Response 500 "".

(** ** Seventeen children *)

(** The start node lists seventeen children. *)
Definition seventeen_children (id : string) : http_outcome :=
  if decide (id = "start") then
    Response 200
      (wire ("{'id':'start','next':['c1','c2','c3','c4','c5','c6','c7','c8',"
             +:+ "'c9','c10','c11','c12','c13','c14','c15','c16','c17']}"))
  else Response 200 (wire "{'secret':'s'}").

(** The start node has been received and sixteen children started. *)
Definition sixteen_started : state :=
  default (init "start")
    (run seventeen_children 0 (Fetch 0 :: replicate 17 Main) (init "start")).

Lemma sixteen_started_reachable :
  reachable (serves seventeen_children) "start" sixteen_started.
Proof.
  apply (run_reachable seventeen_children 0 (Fetch 0 :: replicate 17 Main)
           "start" (init "start")); [constructor|by vm_compute].
Qed.

(** ** The scenarios of the specification *)

(** The start node lists a and b, which hold x and y. *)
Definition two_children (id : string) : http_outcome :=
  if decide (id = "start") then
    Response 200 (wire "{'id':'start','secret':'no','next':['a','b']}")
  else if decide (id = "a") then Response 200 (wire "{'id':'a','secret':'x','next':[]}")
  else if decide (id = "b") then Response 200 (wire "{'id':'b','secret':'y','next':[]}")
  else Response 404 "".

Definition two_children_states : list state :=
  explore two_children 3 100 [init "start"] [init "start"].

(** The start node names its one child as a bare string. *)
Definition scalar_child (id : string) : http_outcome :=
  if decide (id = "start") then
    Response 200 (wire "{'id':'start','secret':'no','next':'a'}")
  else if decide (id = "a") then Response 200 (wire "{'id':'a','secret':'z'}")
  else Response 404 "".

Definition scalar_child_states : list state :=
  explore scalar_child 3 100 [init "start"] [init "start"].

(** The fetch of the one child fails. *)
Definition failing_child (id : string) : http_outcome :=
  if decide (id = "start") then
    Response 200 (wire "{'id':'start','secret':'no','next':['a']}")
  else TransportError.

Definition failing_child_states : list state :=
  explore failing_child 3 100 [init "start"] [init "start"].

(** A run of [two_children] in which b answers before a, to the end. *)
Definition two_children_run : list action :=
  [Fetch 0; Main; Main; Main; Main; Fetch 1; Fetch 0; Main; Main; Main].

Definition two_children_done : state :=
  default (init "start") (run two_children 3 two_children_run (init "start")).

Lemma two_children_done_reachable :
  reachable (serves two_children) "start" two_children_done.
Proof.
  apply (run_reachable two_children 3 two_children_run "start" (init "start"));
    [constructor|by vm_compute].
Qed.

Definition scalar_child_run : list action :=
  [Fetch 0; Main; Main; Main; Fetch 0; Main; Main].

Definition scalar_child_done : state :=
  default (init "start") (run scalar_child 3 scalar_child_run (init "start")).

Lemma scalar_child_done_reachable :
  reachable (serves scalar_child) "start" scalar_child_done.
Proof.
  apply (run_reachable scalar_child 3 scalar_child_run "start" (init "start"));
    [constructor|by vm_compute].
Qed.

Definition failing_child_run : list action := [Fetch 0; Main; Main; Fetch 0].

Definition failing_child_panicked : state :=
  default (init "start") (run failing_child 3 failing_child_run (init "start")).

Lemma failing_child_panicked_reachable :
  reachable (serves failing_child) "start" failing_child_panicked.
Proof.
  apply (run_reachable failing_child 3 failing_child_run "start" (init "start"));
    [constructor|by vm_compute].
Qed.

(** ** More runs and servers *)

(** The children of the start node answer in the order of the listing. *)
Definition listed_arrival : list action :=
  [Fetch 0; Main; Main; Main; Main; Main;
   Fetch 0; Fetch 0; Fetch 0; Main; Main; Main; Main].

Definition three_children_listed_done : state :=
  default (init "start") (run three_children 3 listed_arrival (init "start")).

Lemma three_children_listed_done_reachable :
  reachable (serves three_children) "start" three_children_listed_done.
Proof.
  apply (run_reachable three_children 3 listed_arrival "start" (init "start"));
    [constructor|].
  vm_compute. reflexivity.
Qed.

Lemma after_reverse_arrival_reachable :
  reachable (serves three_children) "start" after_reverse_arrival.
Proof.
  apply (run_reachable three_children 0 reverse_arrival "start" (init "start"));
    [constructor|].
  vm_compute. reflexivity.
Qed.

(** The tree [three_children] describes, as the program sees it. *)
Definition three_children_tree : tree :=
  Node "start" "no" [Node "a" "x" []; Node "b" "y" []; Node "c" "z" []].

(** The only child of the start node reports the identifier of the start
    node as its own. *)
Definition namesake (id : string) : http_outcome :=
  if decide (id = "start") then
    Response 200 (wire "{'id':'start','next':['twin']}")
  else if decide (id = "twin") then
    Response 200 (wire "{'id':'start','secret':'x'}")
  else Response 404 "".

Definition namesake_recorded : state :=
  default (init "start")
    (run namesake 0 [Fetch 0; Main; Main; Main; Fetch 0; Main] (init "start")).

Lemma namesake_recorded_reachable :
  reachable (serves namesake) "start" namesake_recorded.
Proof.
  apply (run_reachable namesake 0 [Fetch 0; Main; Main; Main; Fetch 0; Main]
           "start" (init "start")); [constructor|].
  vm_compute. reflexivity.
Qed.

(** The start node lists one child 8017 times. *)
Definition crowd : list string := replicate (N.to_nat 8017) "c".

Definition crowded (id : string) : http_outcome :=
  if decide (id = "start") then Response 200 (render "start" "no" "" crowd)
  else Response 200 (wire "{'id':'c','secret':'x'}").

(** [three_children] describes its tree. *)
Lemma three_children_described :
  described (serves three_children) three_children_tree.
Proof.
  constructor.
  - intros outcome parent index r -> Hfetch. vm_compute in Hfetch.
    by injection Hfetch as <-.
  - done.
  - repeat (apply Forall_cons; split);
      [..|by apply Forall_nil];
      (constructor; [|done|by apply Forall_nil]);
      intros outcome parent index r -> Hfetch; vm_compute in Hfetch;
      by injection Hfetch as <-.
Qed.

(** ** Bodies that name a parent or an order index *)

(** The children answer with an order index of their own, the reverse of
    the listing. *)
Definition shuffled (id : string) : http_outcome :=
  if decide (id = "start") then
    Response 200 (wire "{'id':'start','depth':0,'next':['a','b','c']}")
  else if decide (id = "a") then
    Response 200 (wire "{'id':'a','depth':1,'secret':'x','orderindex':2}")
  else if decide (id = "b") then
    Response 200 (wire "{'id':'b','depth':1,'secret':'y','orderindex':1}")
  else if decide (id = "c") then
    Response 200 (wire "{'id':'c','depth':1,'secret':'z','orderindex':0}")
  else Response 404 "".

(** The traversal of [shuffled] completed, the results received in the
    listed order. *)
Definition shuffled_done : state :=
  default (init "start")
    (run shuffled 3 [Fetch 0; Main; Main; Main; Main; Main;
                     Fetch 0; Fetch 0; Fetch 0; Main; Main; Main; Main]
       (init "start")).

Lemma shuffled_done_reachable :
  reachable (serves shuffled) "start" shuffled_done.
Proof.
  apply (run_reachable shuffled 3
           [Fetch 0; Main; Main; Main; Main; Main;
            Fetch 0; Fetch 0; Fetch 0; Main; Main; Main; Main]
           "start" (init "start")); [constructor|].
  vm_compute. reflexivity.
Qed.

(** The traversal of [adopted] completed. *)
Definition adopted_done : state :=
  default (init "start") (run adopted 3 [Fetch 0; Main; Main] (init "start")).

Lemma adopted_done_reachable : reachable (serves adopted) "start" adopted_done.
Proof.
  apply (run_reachable adopted 3 [Fetch 0; Main; Main] "start" (init "start"));
    [constructor|].
  vm_compute. reflexivity.
Qed.

(** The text zyx does not hold x, y and z in that order. *)
Lemma zyx_out_of_order s0 s1 s2 s3 :
  "zyx" ≠ s0 +:+ "x" +:+ s1 +:+ "y" +:+ s2 +:+ "z" +:+ s3.
Proof.
  intros Heq. pose proof (f_equal String.length Heq) as Hlen.
  rewrite !length_append in Hlen. simpl in Hlen.
  destruct s0; [|simpl in Hlen; lia]. by simpl in Heq.
Qed.

(** * Part IV: the properties of the specification *)

(** ** C1: order preservation *)




(** ** C2: which identifier is recorded *)

(** C2 as stated fails.  The fetch of the start node is performed with the
    identifier start; the body names no id, so the entry recorded for it has
    the empty identifier, and its child is started with the empty string as
    parent. *)
Lemma requested_id_not_recorded :
  exists s r,
    reachable (serves anonymous) "start" s
    ∧ fetchID (anonymous "start") rootID 0 = Some r
    ∧ secretsMap s !! rootID = Some [collected r]
    ∧ Secret.ID (collected r) ≠ "start"
    ∧ fetchers s = [child_fetcher r 0 "a"]
    ∧ f_parent (child_fetcher r 0 "a") ≠ "start".
Proof.
  exists (default (init "start")
            (run anonymous 0 [Fetch 0; Main; Main] (init "start"))),
         (mk "" 0 "no" "" ["a"] "ROOT" 0).
  split_and!; try (vm_compute; done).
  apply (run_reachable anonymous 0 [Fetch 0; Main; Main] "start" (init "start"));
    [constructor|]. vm_compute. reflexivity.
Qed.

(** C2, amended.  In every state of a run, each bucket holds, for the
    results recorded with that parent, entries whose identifier is the [ID]
    field decoded from the body; and every goroutine other than the first
    was started for a child listed by a recorded result, with that result's
    [ID] field as parent.  The identifier a fetch was performed with is
    recorded nowhere. *)
Theorem childId_is_reported_id `{SliceSort} net id s :
  reachable net id s ->
  (forall k bucket,
     secretsMap s !! k = Some bucket ->
     bucket ≡ₚ (fun r => Secret.mk (ID r) (Secret r) (OrderIndex r))
                 <$> filter (fun r => ParentID r = k) (handled s))
  ∧ (forall g,
       g ∈ started s ->
       g = mkFetcher id rootID 0 false
       ∨ exists r index,
           r ∈ handled s ∧ Secret r = NO_SECRET
           ∧ Next r !! index = Some (f_id g)
           ∧ g = mkFetcher (f_id g) (ID r) (Z.of_nat index) true).
Proof.
  intros Hreach. split.
  - intros k bucket Hk. by eapply recorded_buckets.
  - intros g Hg. by apply (lineage_inv_reachable _ _ _ Hreach).
Qed.

Lemma childId_is_reported_id_witness :
  let s := default (init "start")
             (run anonymous 0 [Fetch 0; Main; Main] (init "start")) in
  (forall k bucket,
     secretsMap s !! k = Some bucket ->
     bucket ≡ₚ (fun r => Secret.mk (ID r) (Secret r) (OrderIndex r))
                 <$> filter (fun r => ParentID r = k) (handled s))
  ∧ (forall g,
       g ∈ started s ->
       g = mkFetcher "start" rootID 0 false
       ∨ exists r index,
           r ∈ handled s ∧ Secret r = NO_SECRET
           ∧ Next r !! index = Some (f_id g)
           ∧ g = mkFetcher (f_id g) (ID r) (Z.of_nat index) true).
Proof.
  apply (childId_is_reported_id (serves anonymous) "start").
  apply (run_reachable anonymous 0 [Fetch 0; Main; Main] "start" (init "start"));
    [constructor|]. vm_compute. reflexivity.
Defined.

(** ** C3: leaves *)




(** ** C4: inner nodes *)



(** ** C5: the unexpected message *)

(** C5 as stated fails, both ways.  With [chatty], the second result to
    arrive carries a message and the traversal goes through and prints.
    With [deep_root], the very first result makes the loop panic. *)
Lemma message_check_is_on_depth :
  (exists s r queue,
     reachable (serves chatty) "start" s
     ∧ pc s = Receiving ∧ resultsChan s = r :: queue
     ∧ handled s ≠ [] ∧ Message r ≠ ""
     ∧ pc (receive s r queue) ≠ Panicked
     ∧ run chatty 3 [Main; Main] s = Some (finish (receive s r queue)
                                            (secretsMap (receive s r queue)) "x"))
  ∧ (exists s r queue,
       reachable (serves deep_root) "start" s
       ∧ pc s = Receiving ∧ resultsChan s = r :: queue
       ∧ handled s = []
       ∧ pc (receive s r queue) = Panicked).
Proof.
  split.
  - exists (default (init "start")
              (run chatty 0 [Fetch 0; Main; Main; Main; Fetch 0] (init "start"))),
           (mk "a" 0 "x" "again" [] "start" 0), [].
    split_and!; try (vm_compute; done).
    apply (run_reachable chatty 0 [Fetch 0; Main; Main; Main; Fetch 0]
             "start" (init "start")); [constructor|]. vm_compute. reflexivity.
  - exists (default (init "start") (run deep_root 0 [Fetch 0] (init "start"))),
           (mk "start" 1 "x" "hello" [] "ROOT" 0), [].
    split_and!; try (vm_compute; done).
    apply (run_reachable deep_root 0 [Fetch 0] "start" (init "start"));
      [constructor|]. vm_compute. reflexivity.
Qed.

(** C5, amended.  The pass that receives a result panics exactly when the
    result carries a non-empty message and a depth other than zero, whatever
    the state, so whether or not it is the first result; otherwise the
    result is recorded. *)
Theorem unexpected_message_fatal (s : state) (r : CurbIDResponse.t)
    (queue : list CurbIDResponse.t) :
  (pc (receive s r queue) = Panicked <-> Message r ≠ "" ∧ Depth r ≠ 0)
  ∧ (pc (receive s r queue) ≠ Panicked <->
       secretsMap (receive s r queue) = record_result (secretsMap s) r
       ∧ handled (receive s r queue) = handled s ++ [r]).
Proof.
  destruct (decide (unexpected_message r)) as [Hbad|Hok].
  - rewrite receive_panics by done. simpl. split; [done|].
    split; [done|]. intros [_ Hh]. apply (f_equal length) in Hh.
    rewrite length_app in Hh. simpl in Hh. lia.
  - assert (pc (receive s r queue) ≠ Panicked) as Hpc.
    { destruct (decide (Secret r = NO_SECRET)) as [Hno|Hsecret].
      - by rewrite receive_no_secret.
      - by destruct (receive_secret s r queue Hok Hsecret) as [-> | ->]. }
    split; [split; [done|]|].
    + intros Hbad. by destruct Hok.
    + split; [|done]. intros _. by apply receive_recorded.
Qed.

(** ** C6: the admission gate *)

(** C6 as stated fails: the goroutine of the start node is inside
    [fetchID] without a slot of [requestsChan] having been taken. *)
Lemma root_fetch_takes_no_slot :
  exists s g,
    reachable (serves three_children) "start" s
    ∧ g ∈ fetchers s ∧ gated g = false ∧ requestsChan s = 0%nat.
Proof.
  exists (init "start"), (mkFetcher "start" rootID 0 false).
  split_and!; [constructor|set_solver|done..].
Qed.

(** C6, amended.  In every state of a run at most 16 goroutines are inside
    [fetchID] and at most 16 slots are taken.  Every goroutine inside
    [fetchID] other than that of the start node holds a slot, taken before
    it was started and given back after [fetchID] returns; the goroutine of
    the start node holds none and runs while no other does. *)
Theorem concurrency_cap `{SliceSort} net id s :
  reachable net id s ->
  (length (fetchers s) <= 16)%nat
  ∧ (requestsChan s <= 16)%nat
  ∧ (forall g, g ∈ fetchers s ->
       gated g = true
       ∨ (g = mkFetcher id rootID 0 false ∧ fetchers s = [g]
          ∧ requestsChan s = 0%nat))
  ∧ (length (filter (fun g => gated g = true) (fetchers s)) + leaving s
     = requestsChan s)%nat.
Proof.
  intros Hreach.
  destruct (slots_inv_reachable _ _ _ Hreach)
    as [Hcap [[Hall Hn]|(Hroot & _ & Hr & Hl & _)]];
    unfold requestsCap in Hcap.
  - split_and!; [lia|done| |].
    + intros g Hg. left. rewrite Forall_forall in Hall. by apply Hall.
    + rewrite filter_all by done. lia.
  - rewrite Hroot, Hr, Hl. split_and!; simpl; [lia..| |done].
    intros g Hg. apply list_elem_of_singleton in Hg as ->. by right.
Qed.

(** In [sixteen_started] sixteen goroutines are inside [fetchID] and the
    sixteen slots are taken. *)
Lemma concurrency_cap_witness :
  length (fetchers sixteen_started) = 16%nat
  ∧ (length (fetchers sixteen_started) <= 16)%nat
  ∧ (requestsChan sixteen_started <= 16)%nat
  ∧ (forall g, g ∈ fetchers sixteen_started ->
       gated g = true
       ∨ (g = mkFetcher "start" rootID 0 false ∧ fetchers sixteen_started = [g]
          ∧ requestsChan sixteen_started = 0%nat))
  ∧ (length (filter (fun g => gated g = true) (fetchers sixteen_started))
     + leaving sixteen_started
     = requestsChan sixteen_started)%nat.
Proof.
  split; [by vm_compute|].
  exact (concurrency_cap (serves seventeen_children) "start" sixteen_started
           sixteen_started_reachable).
Defined.

(** ** C7: the two forms of [next] *)

(** C7.  [UnmarshalJSON] turns the bare string x and the list holding the
    one string x into the same slice, the one-element slice of x.  A body
    whose last member named next holds x in either form, once lower-cased
    and read, gives a result whose children are the one-element slice of x.
    For a descriptor written plainly, with its single child as a bare
    string or as a list, [json.Unmarshal] stores the same identifier,
    fragment, message and one-element slice of children, and [fetchID]
    sends the same result, the lower-case form of these.  The traversal
    sees bodies only through [fetchID]: when the answers of one server
    differ from those of another at most in the form in which a member next
    holds its single child, every run with the one is a run with the
    other. *)
Theorem scalar_list_normalization `{SliceSort} id secret message x parent index :
  plain id = true -> plain secret = true -> plain message = true ->
  plain x = true ->
  NextWrapper_UnmarshalJSON (JString x) = Some [x]
  ∧ NextWrapper_UnmarshalJSON (JArray [JString x]) = Some [x]
  ∧ (forall idResponse before after,
       store_members idResponse (before ++ ("next", JString x) :: after)
       = store_members idResponse (before ++ ("next", JArray [JString x]) :: after))
  ∧ fetchID (Response 200 (wire "{'id':'p','next':'x'}")) rootID 0
    = fetchID (Response 200 (wire "{'id':'p','next':['x']}")) rootID 0
  ∧ (forall body before key form after r,
       ascii_only body = true ->
       form = JString x ∨ form = JArray [JString x] ->
       read_json (ToLower body) = Read (JObject (before ++ (key, form) :: after)) "" ->
       fold_key key = "next" ->
       Forall (fun member => fold_key member.1 ≠ "next") after ->
       fetchID (Response 200 body) parent index = Some r ->
       Next r = [x])
  ∧ json_Unmarshal (render_scalar id secret message x) (fresh parent index)
    = Some (mk id 0 secret message [x] parent index)
  ∧ json_Unmarshal (render id secret message [x]) (fresh parent index)
    = Some (mk id 0 secret message [x] parent index)
  ∧ fetchID (Response 200 (render_scalar id secret message x)) parent index
    = Some (mk (ToLower id) 0 (ToLower secret) (ToLower message) [ToLower x]
              parent index)
  ∧ fetchID (Response 200 (render id secret message [x])) parent index
    = Some (mk (ToLower id) 0 (ToLower secret) (ToLower message) [ToLower x]
              parent index)
  ∧ same_but_form (Response 200 (render_scalar id secret message x))
                  (Response 200 (render id secret message [x]))
  ∧ (forall net net' start s,
       (forall node outcome, net node outcome ->
          exists outcome', net' node outcome' ∧ same_but_form outcome outcome') ->
       reachable net start s -> reachable net' start s).
Proof.
  intros Hid Hsecret Hmessage Hx.
  split_and!.
  - done.
  - done.
  - intros idResponse before. revert idResponse.
    induction before as [|member before IH]; intros idResponse after; simpl.
    + reflexivity.
    + destruct (store_member idResponse member); [apply IH|done].
  - vm_compute. reflexivity.
  - intros body before key form after r _ Hform Hread Hkey Hafter Hfetch.
    destruct (fetchID_stored _ _ _ _ Hfetch)
      as (body' & members & [= <-] & Hread' & Hstore).
    rewrite Hread in Hread'. injection Hread' as <-.
    pose proof (store_members_next _ _ _ _ _ _ Hkey Hafter Hstore) as Hnext.
    destruct Hform as [-> | ->]; by injection Hnext as <-.
  - by apply json_Unmarshal_rendered_scalar.
  - apply json_Unmarshal_rendered; try done. by repeat constructor.
  - rewrite fetchID_200, ToLower_render_scalar.
    by apply json_Unmarshal_rendered_scalar; apply plain_ToLower.
  - rewrite fetchID_200, ToLower_render.
    apply json_Unmarshal_rendered; try (by apply plain_ToLower).
    repeat constructor. by apply plain_ToLower.
  - by apply rendered_same_but_form.
  - intros net net' start s Hserved. apply reachable_served.
    intros node outcome Hnet.
    destruct (Hserved _ _ Hnet) as (outcome' & Hnet' & Hsame).
    exists outcome'. split; [done|]. intros p i.
    by apply same_but_form_fetchID.
Qed.

(** The start node P lists its single child Kid as a bare string. *)
Lemma scalar_list_normalization_witness :
  fetchID (Response 200 (render_scalar "P" "no" "" "Kid")) rootID 0
  = Some (mk "p" 0 "no" "" ["kid"] rootID 0)
  ∧ fetchID (Response 200 (render "P" "no" "" ["Kid"])) rootID 0
    = Some (mk "p" 0 "no" "" ["kid"] rootID 0).
Proof.
  destruct (scalar_list_normalization "P" "no" "" "Kid" rootID 0)
    as (_ & _ & _ & _ & _ & _ & _ & Hscalar & Hlist & _);
    [reflexivity..|].
  by split.
Defined.

(** ** C8: a failed fetch *)

(** C8.  A transport error, an unreadable body and a status other than 200
    each make [fetchID] panic.  When a goroutine in a run panics in
    [fetchID], the process is gone: nothing has been printed, no further
    step is taken, and so nothing is printed later.  Until the printer runs
    nothing is printed at all, and it runs only once no goroutine is left
    inside [fetchID]. *)
Theorem fatal_abort `{SliceSort} net id s before g after outcome :
  reachable net id s ->
  alive s ->
  fetchers s = before ++ g :: after ->
  net (f_id g) outcome ->
  fetchID outcome (f_parent g) (f_index g) = None ->
  step net s (panic s)
  ∧ pc (panic s) = Panicked
  ∧ stdout s = "" ∧ stdout (panic s) = ""
  ∧ (forall s', ¬ step net (panic s) s')
  ∧ (forall parent index status body,
       fetchID TransportError parent index = None
       ∧ fetchID (BodyError status) parent index = None
       ∧ (status ≠ 200 -> fetchID (Response status body) parent index = None))
  ∧ (forall s0, reachable net id s0 -> stdout s0 ≠ "" ->
       exists output, pc s0 = Finished output ∧ fetchers s0 = [])
  ∧ (forall s0, reachable net id s0 -> pc s0 = Printing -> fetchers s0 = []).
Proof.
  intros Hreach Halive Hg Hnet Hfail. split_and!.
  - by eapply step_fetch_panic.
  - done.
  - unfold alive in Halive. unfold stdout. by destruct (pc s).
  - done.
  - intros s'. by apply panicked_stuck.
  - intros parent index status body. split_and!; [done..|].
    intros Hstatus. simpl. by rewrite decide_True.
  - intros s0 Hreach0 Hout.
    pose proof (count_inv_reachable _ _ _ Hreach0) as Hcount.
    unfold stdout in Hout. unfold count_inv in Hcount.
    destruct (pc s0) as [| | |output|] eqn:Hpc; try done.
    exists output. by destruct Hcount.
  - intros s0 Hreach0 Hpc.
    pose proof (count_inv_reachable _ _ _ Hreach0) as Hcount.
    unfold count_inv in Hcount. rewrite Hpc in Hcount. by destruct Hcount.
Qed.

(** In [broken_child] the result of a has been recorded when the fetch of b
    fails: the process panics and nothing is printed. *)
Lemma fatal_abort_witness :
  let s := default (init "start")
             (run broken_child 0 [Fetch 0; Main; Main; Main; Main; Fetch 0; Main]
                (init "start")) in
  handled s = [mk "start" 0 "no" "" ["a"; "b"] "ROOT" 0;
               mk "a" 1 "x" "" [] "start" 0]
  ∧ step (serves broken_child) s (panic s)
  ∧ stdout (panic s) = ""
  ∧ (forall s', ¬ step (serves broken_child) (panic s) s').
Proof.
  intros s. split; [vm_compute; reflexivity|].
  destruct (fatal_abort (serves broken_child) "start" s []
              (mkFetcher "b" "start" 1 true) [] (Response 500 ""))
    as (Hstep & _ & _ & Hout & Hstuck & _); try (vm_compute; done).
  apply (run_reachable broken_child 0
           [Fetch 0; Main; Main; Main; Main; Fetch 0; Main]
           "start" (init "start")); [constructor|]. vm_compute. reflexivity.
Defined.

(** ** C9: lower-casing *)




(** ** C10: a body without secret *)



(** * Part V: further properties *)

(** ** Termination detection *)

(** While the loop is receiving, [fetching] is the number of goroutines
    still inside [fetchID] plus the number of results not yet received, and
    it is positive; while it ranges over a result, that result is counted
    too.  The loop ends exactly when that number has come down to zero: the
    printer runs with no goroutine inside [fetchID] and no result unread. *)
Lemma termination_detection `{SliceSort} net id s :
  reachable net id s ->
  match pc s with
  | Receiving =>
      fetching s = Z.of_nat (length (fetchers s) + length (resultsChan s))
      ∧ fetching s > 0
  | Ranging _ _ _ =>
      fetching s = Z.of_nat (length (fetchers s) + length (resultsChan s)) + 1
  | Printing | Finished _ => fetchers s = [] ∧ resultsChan s = []
  | Panicked => True
  end.
Proof. apply count_inv_reachable. Qed.

Lemma termination_detection_witness :
  fetchers three_children_done = [] ∧ resultsChan three_children_done = [].
Proof.
  exact (termination_detection (serves three_children) "start"
           three_children_done three_children_done_reachable).
Defined.

(** ** The scenarios of the specification, in every interleaving *)

(** Whatever the interleaving, a completed traversal of [two_children] has
    printed xy. *)
Lemma two_children_prints_xy s output :
  reachable (serves two_children) "start" s ->
  pc s = Finished output -> output = "xy".
Proof.
  intros Hreach Hpc.
  assert (prints "xy" s = true) as Hcheck by check_all_states two_children_states.
  unfold prints in Hcheck. rewrite Hpc in Hcheck.
  by eapply bool_decide_eq_true_1.
Qed.

(** The run in which b answers before a. *)
Lemma two_children_completes :
  pc two_children_done = Finished (stdout two_children_done)
  ∧ stdout two_children_done = "xy".
Proof.
  split; [by vm_compute|].
  apply (two_children_prints_xy two_children_done);
    [apply two_children_done_reachable|by vm_compute].
Defined.

Lemma scalar_child_prints_z s output :
  reachable (serves scalar_child) "start" s ->
  pc s = Finished output -> output = "z".
Proof.
  intros Hreach Hpc.
  assert (prints "z" s = true) as Hcheck by check_all_states scalar_child_states.
  unfold prints in Hcheck. rewrite Hpc in Hcheck.
  by eapply bool_decide_eq_true_1.
Qed.

Lemma scalar_child_completes :
  pc scalar_child_done = Finished (stdout scalar_child_done)
  ∧ stdout scalar_child_done = "z".
Proof.
  split; [by vm_compute|].
  apply (scalar_child_prints_z scalar_child_done);
    [apply scalar_child_done_reachable|by vm_compute].
Defined.

(** No run of [failing_child] completes, and none prints. *)
Lemma failing_child_silent s :
  reachable (serves failing_child) "start" s ->
  stdout s = "" ∧ forall output, pc s ≠ Finished output.
Proof.
  intros Hreach.
  assert (silent s = true) as Hcheck by check_all_states failing_child_states.
  unfold silent in Hcheck. unfold stdout.
  by destruct (pc s).
Qed.

(** The run in which the start node is received, its child started, and
    the fetch of the child fails. *)
Lemma failing_child_panics :
  pc failing_child_panicked = Panicked
  ∧ handled failing_child_panicked = [mk "start" 0 "no" "" ["a"] "ROOT" 0]
  ∧ stdout failing_child_panicked = ""
  ∧ forall output, pc failing_child_panicked ≠ Finished output.
Proof.
  split; [by vm_compute|]. split; [by vm_compute|].
  exact (failing_child_silent failing_child_panicked
           failing_child_panicked_reachable).
Defined.

(** ** The gate at work *)

(** With sixteen goroutines inside [fetchID] the main goroutine cannot start
    the seventeenth child; it can once one of them has delivered its result
    and given back its slot. *)
Lemma seventeenth_child_waits :
  length (fetchers sixteen_started) = 16%nat
  ∧ requestsChan sixteen_started = 16%nat
  ∧ (exists r, pc sixteen_started = Ranging r 16 ["c17"])
  ∧ act seventeen_children 0 Main sixteen_started = None
  ∧ (exists s,
       run seventeen_children 0 [Fetch 0; Release; Main] sixteen_started = Some s
       ∧ length (fetchers s) = 16%nat ∧ requestsChan s = 16%nat
       ∧ exists r, pc s = Ranging r 17 []).
Proof.
  split_and!; try (by vm_compute).
  - eexists. by vm_compute.
  - eexists. split_and!; try (by vm_compute). eexists. by vm_compute.
Qed.

(** ** The printer and the map *)

(** When the results recorded are those of a traversal of a tree whose
    identifiers are distinct, in whatever order they arrived, the printer
    returns and the text printed is that of the fragments of the tree depth
    first, the children of each node in the order its parent lists them. *)
Theorem tree_printed_depth_first `{SliceSort} net id s t :
  reachable net id s -> pc s = Printing ->
  filing <$> handled s ≡ₚ filed rootID 0 t ->
  NoDup (rootID :: tree_ids t) ->
  (exists m', step net s (finish s m' (depth_first t)))
  ∧ (forall s' output,
       step net s s' -> pc s' = Finished output -> output = depth_first t).
Proof.
  intros Hreach Hpc Hfiled Hdup.
  pose proof (map_inv_reachable _ _ _ Hreach) as Hmap.
  unfold map_inv in Hmap. rewrite Hpc in Hmap.
  destruct (recorded_tree_walk (handled s) t Hfiled Hdup) as [m' Hwalk].
  rewrite <- Hmap in Hwalk. split.
  - exists m'. by eapply step_print.
  - intros s' output Hstep Hpc'.
    destruct Hstep as [s r q Hpc0 Hq|s r i c todo Hpc0 Hlt|s r i Hpc0
      |s before g after outcome r Halive Hg _ _ _
      |s before g after outcome Halive Hg _ _
      |s Halive Hleaving|s fuel m out Hpc0 Hwalk0];
      try (by rewrite Hpc in Hpc0); simpl in Hpc';
      try done; try (by rewrite Hpc in Hpc').
    injection Hpc' as ->.
    pose proof (readSecretsMap_deterministic _ _ _ _ _ _ Hwalk Hwalk0) as Heq.
    by injection Heq.
Qed.

(** [three_children] with the results of c, b, a received in that order. *)
Lemma tree_printed_depth_first_witness :
  depth_first three_children_tree = "xyz"
  ∧ exists m',
      step (serves three_children) after_reverse_arrival
        (finish after_reverse_arrival m' "xyz").
Proof.
  split; [by vm_compute|].
  destruct (tree_printed_depth_first (serves three_children) "start"
              after_reverse_arrival three_children_tree) as [Hprints _].
  - apply after_reverse_arrival_reachable.
  - by vm_compute.
  - vm_compute. apply perm_skip.
    etrans; [apply perm_swap|]. etrans; [apply perm_skip, perm_swap|].
    etrans; [apply perm_swap|]. done.
  - apply (bool_decide_unpack _). vm_compute. exact I.
  - exact Hprints.
Defined.

(** Two completed traversals that recorded the same results, no two of them
    with the same parent and order index, have printed the same text, in
    whatever order the results arrived. *)
Theorem arrival_order_irrelevant `{SliceSort} net id s s' output output' :
  reachable net id s -> reachable net id s' ->
  pc s = Finished output -> pc s' = Finished output' ->
  handled s ≡ₚ handled s' ->
  NoDup ((fun r => (ParentID r, OrderIndex r)) <$> handled s) ->
  output = output'.
Proof.
  intros Hreach Hreach' Hpc Hpc' Hperm Hdup.
  pose proof (map_inv_reachable _ _ _ Hreach) as Hmap.
  pose proof (map_inv_reachable _ _ _ Hreach') as Hmap'.
  unfold map_inv in Hmap, Hmap'. rewrite Hpc in Hmap. rewrite Hpc' in Hmap'.
  destruct Hmap as [fuel Hwalk]. destruct Hmap' as [fuel' Hwalk'].
  apply (readSecretsMap_mono _ (fuel `max` fuel')) in Hwalk; [|lia].
  apply (readSecretsMap_mono _ (fuel `max` fuel')) in Hwalk'; [|lia].
  pose proof (readSecretsMap_same_walk (fuel `max` fuel') _ _ rootID
                (same_entries_recorded _ _ Hperm) (no_ties_recorded _ Hdup)) as Hsame.
  rewrite Hwalk, Hwalk' in Hsame. by destruct Hsame.
Qed.

(** The children of [three_children] answering in the order c, b, a and in
    the order a, b, c. *)
Lemma arrival_order_irrelevant_witness :
  handled three_children_done ≠ handled three_children_listed_done
  ∧ stdout three_children_done = stdout three_children_listed_done.
Proof.
  split; [by vm_compute|].
  apply (arrival_order_irrelevant (serves three_children) "start"
           three_children_done three_children_listed_done).
  - apply three_children_done_reachable.
  - apply three_children_listed_done_reachable.
  - by vm_compute.
  - by vm_compute.
  - vm_compute. apply perm_skip.
    etrans; [apply perm_swap|]. etrans; [apply perm_skip, perm_swap|].
    etrans; [apply perm_swap|]. done.
  - apply (bool_decide_unpack _). vm_compute. exact I.
Defined.

(** [readSecretsMap] changes the map of its caller, and only by sorting:
    when a walk returns, the map has the keys it had, every bucket holds the
    entries it held, and the bucket of the identifier walked is sorted by
    order index. *)
Theorem walk_sorts_in_place `{SliceSort} fuel m id m' out :
  readSecretsMap fuel m id = Some (m', out) ->
  dom m' = dom m
  ∧ (forall k, bucket_of m' k ≡ₚ bucket_of m k)
  ∧ (forall bucket, m' !! id = Some bucket -> StronglySorted not_after bucket).
Proof.
  intros Hwalk.
  pose proof (readSecretsMap_same_entries _ _ _ _ _ Hwalk) as Hsame.
  split_and!.
  - apply set_eq. intros k. rewrite !elem_of_dom. specialize (Hsame k).
    destruct Hsame; split; intros [? ?]; done.
  - intros k. symmetry. by apply bucket_of_same_entries.
  - destruct fuel as [|fuel]; [done|]. simpl in Hwalk.
    destruct (m !! id) as [bucket|] eqn:Hid.
    + eapply (range_secrets_sorted_at _ id); [|exact Hwalk|].
      * intros ????. apply readSecretsMap_sorted_at.
      * intros bucket'. rewrite lookup_insert, decide_True by done.
        intros [= <-]. apply sort_slice_sorted.
    + injection Hwalk as <- _. intros bucket. by rewrite Hid.
Qed.

(** The bucket of the start node of [three_children] after the walk. *)
Lemma walk_sorts_in_place_witness :
  exists m' out bucket,
    readSecretsMap 2 (secretsMap after_reverse_arrival) "start" = Some (m', out)
    ∧ secretsMap after_reverse_arrival !! "start"
      = Some [Secret.mk "c" "z" 2; Secret.mk "b" "y" 1; Secret.mk "a" "x" 0]
    ∧ m' !! "start" = Some bucket
    ∧ StronglySorted not_after bucket.
Proof.
  destruct (readSecretsMap 2 (secretsMap after_reverse_arrival) "start")
    as [[m' out]|] eqn:Hwalk; [|by vm_compute in Hwalk].
  destruct (m' !! "start") as [bucket|] eqn:Hbucket.
  - exists m', out, bucket. split_and!; [done|by vm_compute|done|].
    by apply (walk_sorts_in_place 2 (secretsMap after_reverse_arrival) "start" m' out).
  - vm_compute in Hwalk. injection Hwalk as <- _. by vm_compute in Hbucket.
Defined.

(** When the identifiers can be ranked so that every entry ranks below the
    bucket it is filed in, the walk of an identifier returns, and a call
    depth of one more than its rank is enough. *)
Theorem ranked_walk_returns `{SliceSort} (rank : string -> nat) m id :
  ranked rank m ->
  exists m' out, readSecretsMap (S (rank id)) m id = Some (m', out).
Proof.
  intros Hranked.
  destruct (ranked_returns rank (S (rank id)) m id Hranked) as [[m' out] Hwalk];
    [lia|].
  by exists m', out.
Qed.

(** A root above the start node, the start node above two leaves. *)
Lemma ranked_walk_returns_witness :
  exists m' out,
    readSecretsMap 3
      (<[rootID := [Secret.mk "start" "no" 0]]>
         (<["start" := [Secret.mk "b" "y" 1; Secret.mk "a" "x" 0]]> ∅)) rootID
    = Some (m', out).
Proof.
  apply (ranked_walk_returns
           (fun k => if String.eqb k rootID then 2%nat
                     else if String.eqb k "start" then 1%nat else 0%nat)
           (<[rootID := [Secret.mk "start" "no" 0]]>
              (<["start" := [Secret.mk "b" "y" 1; Secret.mk "a" "x" 0]]> ∅))
           rootID).
  intros k k' (bucket & e & Hk & He & <-).
  apply lookup_insert_Some in Hk as [[<- <-]|[_ Hk]].
  - apply list_elem_of_singleton in He as ->. simpl. lia.
  - apply lookup_insert_Some in Hk as [[<- <-]|[_ Hk]]; [|done].
    apply elem_of_cons in He as [->|He]; [simpl; lia|].
    apply list_elem_of_singleton in He as ->. simpl. lia.
Defined.

(** [readSecretsMap] has no guard against cycles.  When the loop is over
    and the walk from [rootID] can come to an identifier that is below
    itself in the map, in one step or through other buckets, the walk never
    returns at any call depth, and the traversal never completes. *)
Theorem cyclic_records_never_printed `{SliceSort} net id s k :
  reachable net id s -> pc s = Printing ->
  reach (secretsMap s) k -> tc (filed_below (secretsMap s)) k k ->
  (forall fuel, readSecretsMap fuel (secretsMap s) rootID = None)
  ∧ (forall s', rtc (step net) s s' -> pc s' = Printing).
Proof.
  intros Hreach Hpc Hk Hcycle.
  assert (forall fuel, readSecretsMap fuel (secretsMap s) rootID = None) as Hnever.
  { apply (reach_never_returns _ k Hk). intros fuel m1 Hsame.
    apply cycle_never_returns. by eapply tc_below_same_entries. }
  split; [done|].
  pose proof (count_inv_reachable _ _ _ Hreach) as Hcount.
  unfold count_inv in Hcount. rewrite Hpc in Hcount. destruct Hcount as [Hnone _].
  intros s' Hrun.
  assert (pc s = Printing ∧ fetchers s = []
          ∧ forall fuel, readSecretsMap fuel (secretsMap s) rootID = None)
    as Hinv by done.
  clear Hreach Hpc Hk Hcycle Hnever Hnone.
  induction Hrun as [s|s s1 s' Hstep _ IH]; [by destruct Hinv|].
  apply IH. destruct Hinv as (Hpc & Hnone & Hnever).
  destruct Hstep as [s r q Hpc' Hq|s r i c todo Hpc' Hlt|s r i Hpc'
    |s before g after outcome r Halive Hg _ _ _
    |s before g after outcome Halive Hg _ _
    |s Halive Hleaving|s fuel m out Hpc' Hwalk];
    try (by rewrite Hpc in Hpc');
    try (rewrite Hnone in Hg; by destruct before).
  - done.
  - by rewrite Hnever in Hwalk.
Qed.

(** With [namesake], the entry of the child is filed under start and names
    start. *)
Lemma cyclic_records_never_printed_witness :
  pc namesake_recorded = Printing
  ∧ handled namesake_recorded = [mk "start" 0 "no" "" ["twin"] "ROOT" 0;
                                  mk "start" 0 "x" "" [] "start" 0]
  ∧ readSecretsMap 1000 (secretsMap namesake_recorded) rootID = None.
Proof.
  split; [by vm_compute|]. split; [by vm_compute|].
  apply (cyclic_records_never_printed (serves namesake) "start"
           namesake_recorded "start").
  - apply namesake_recorded_reachable.
  - by vm_compute.
  - apply (reach_entry _ rootID [Secret.mk "start" "no" 0] (Secret.mk "start" "no" 0)).
    + constructor.
    + by vm_compute.
    + apply list_elem_of_here.
  - apply tc_once.
    exists [Secret.mk "start" "x" 0], (Secret.mk "start" "x" 0).
    split_and!; [by vm_compute|apply list_elem_of_here|done].
Defined.

(** ** The loop and its channels *)

(** When the loop is over, the goroutines started were that of the start
    node and, for every result recorded without secret, in the order of
    recording, one for each entry of its list, an identifier listed twice
    being fetched twice; each of them has sent one result, and the results
    recorded are these. *)
Theorem every_fetch_recorded `{SliceSort} net id s :
  reachable net id s -> pc s = Printing ->
  started s = mkFetcher id rootID 0 false :: concat (kids <$> handled s)
  ∧ exists pairs : list (fetcher * CurbIDResponse.t),
      Forall (fun p => answers net p.1 p.2) pairs
      ∧ started s ≡ₚ pairs.*1
      ∧ handled s ≡ₚ pairs.*2.
Proof.
  intros Hreach Hpc. split.
  - pose proof (ledger_inv_reachable _ _ _ Hreach) as Hledger.
    unfold ledger_inv in Hledger. by rewrite Hpc in Hledger.
  - pose proof (count_inv_reachable _ _ _ Hreach) as Hcount.
    unfold count_inv in Hcount. rewrite Hpc in Hcount.
    destruct Hcount as [Hfetchers Hchan].
    destruct (paired_inv_reachable _ _ _ Hreach)
      as [Hpanic|(pairs & Hanswers & Hstarted & Hresults)];
      [by rewrite Hpc in Hpanic|].
    exists pairs. rewrite Hfetchers in Hstarted.
    by rewrite Hchan, app_nil_r in Hresults.
Qed.

Lemma every_fetch_recorded_witness :
  started after_reverse_arrival
  = [mkFetcher "start" rootID 0 false; mkFetcher "a" "start" 0 true;
     mkFetcher "b" "start" 1 true; mkFetcher "c" "start" 2 true]
  ∧ length (handled after_reverse_arrival) = 4%nat.
Proof.
  destruct (every_fetch_recorded (serves three_children) "start"
              after_reverse_arrival after_reverse_arrival_reachable)
    as [Hstarted _]; [by vm_compute|].
  split; [|by vm_compute]. rewrite Hstarted. by vm_compute.
Defined.

(** The buffer of [resultsChan] does not make up for the loop not receiving
    while it ranges.  When the start node lists more children than the two
    channels have room for, 8000 and 16, and every fetch of a child
    succeeds, the traversal can come to a state where the results channel is
    full, sixteen goroutines wait to send, the main goroutine waits for a
    slot, and no goroutine can move. *)
Theorem full_results_channel_deadlock `{SliceSort} net id root :
  answers net (mkFetcher id rootID 0 false) root ->
  Secret root = NO_SECRET ->
  ¬ unexpected_message root ->
  (N.to_nat resultsCap + requestsCap < length (Next root))%nat ->
  (forall c, c ∈ Next root -> exists outcome, net c outcome) ->
  (forall c outcome index,
     c ∈ Next root -> net c outcome ->
     is_Some (fetchID outcome (ID root) index)) ->
  exists s,
    reachable net id s
    ∧ (exists index c todo, pc s = Ranging root index (c :: todo))
    ∧ length (resultsChan s) = N.to_nat resultsCap
    ∧ length (fetchers s) = requestsCap
    ∧ requestsChan s = requestsCap
    ∧ forall s', ¬ step net s s'.
Proof.
  intros Hroot Hno Hok Hmany Hserved Hgood.
  destruct (blocked_all net id root Hroot Hno Hok Hmany Hserved Hgood requestsCap)
    as [s Hs]; [done|].
  exists s. pose proof Hs as (Hreach & Hpc & Hf & Hr & Hl & Hq & Hall).
  split_and!; [done| |done..|].
  - destruct (drop_next root (N.to_nat resultsCap + requestsCap)) as (c & _ & Hdrop);
      [lia|].
    rewrite Hdrop in Hpc. eauto.
  - intros s'. by eapply blocked_stuck.
Qed.

Lemma full_results_channel_deadlock_witness :
  exists s,
    reachable (serves crowded) "start" s
    ∧ length (resultsChan s) = N.to_nat resultsCap
    ∧ requestsChan s = requestsCap
    ∧ forall s', ¬ step (serves crowded) s s'.
Proof.
  destruct (full_results_channel_deadlock (serves crowded) "start"
              (mk "start" 0 "no" "" crowd "ROOT" 0))
    as (s & Hreach & _ & Hq & _ & Hr & Hstuck).
  - exists (crowded "start"). split; [done|].
    unfold crowded. rewrite decide_True by done.
    rewrite plain_body_lowercased;
      [|done..|unfold crowd; by apply Forall_replicate].
    unfold crowd. by rewrite fmap_replicate.
  - done.
  - by intros [? _].
  - change (Next _) with crowd. unfold crowd. rewrite length_replicate.
    unfold resultsCap, requestsCap. lia.
  - intros c _. by eexists.
  - intros c outcome index Hc ->. change (Next _) with crowd in Hc.
    apply elem_of_replicate in Hc as [-> _].
    change (ID _) with "start". unfold crowded. rewrite decide_False by done.
    vm_compute. by eexists.
  - by exists s.
Defined.

(** The loop cannot get stuck in any other way.  While the main goroutine
    is in the loop, the results channel has room and the servers answer
    every request, with a result or with a failure, some goroutine can
    move: the loop does not wait for a result that no goroutine is going
    to send, nor for a slot that no goroutine is going to give back. *)
Theorem loop_never_stuck_with_room `{SliceSort} net id s :
  reachable net id s ->
  pc s ≠ Printing -> alive s ->
  (N.of_nat (length (resultsChan s)) < resultsCap)%N ->
  (forall g, g ∈ fetchers s -> exists outcome, net (f_id g) outcome) ->
  exists s', step net s s'.
Proof. apply loop_can_move. Qed.

(** With sixteen goroutines inside [fetchID], the main goroutine waits for
    a slot, and one of the sixteen can move. *)
Lemma loop_never_stuck_with_room_witness :
  act seventeen_children 0 Main sixteen_started = None
  ∧ exists s', step (serves seventeen_children) sixteen_started s'.
Proof.
  split; [by vm_compute|].
  apply (loop_never_stuck_with_room (serves seventeen_children) "start").
  - apply sixteen_started_reachable.
  - by vm_compute.
  - by vm_compute.
  - by vm_compute.
  - intros g _. by eexists.
Defined.

(** ** The decoder *)


(** A field for which the body has no member keeps the value [fetchID] set
    before decoding: the zero value, or the parent and the order index the
    goroutine was given. *)
Theorem absent_members_keep_presets body members parent index r :
  ascii_only body = true ->
  read_json (ToLower body) = Read (JObject members) "" ->
  fetchID (Response 200 body) parent index = Some r ->
  (absent "id" members -> ID r = "")
  ∧ (absent "depth" members -> Depth r = 0)
  ∧ (absent "message" members -> Message r = "")
  ∧ (absent "next" members -> Next r = [])
  ∧ (absent "parentid" members -> ParentID r = parent)
  ∧ (absent "orderindex" members -> OrderIndex r = index).
Proof.
  intros _ Hread Hfetch.
  destruct (fetchID_stored _ _ _ _ Hfetch)
    as (body' & members' & [= <-] & Hread' & Hstore).
  rewrite Hread in Hread'. injection Hread' as <-.
  split_and!; intros Habsent.
  - by rewrite (store_members_untouched ID "id" store_member_ID _ _ _ Habsent Hstore).
  - by rewrite (store_members_untouched Depth "depth" store_member_Depth
                  _ _ _ Habsent Hstore).
  - by rewrite (store_members_untouched Message "message" store_member_Message
                  _ _ _ Habsent Hstore).
  - by rewrite (store_members_untouched Next "next" store_member_Next
                  _ _ _ Habsent Hstore).
  - by rewrite (store_members_untouched ParentID "parentid" store_member_ParentID
                  _ _ _ Habsent Hstore).
  - by rewrite (store_members_untouched OrderIndex "orderindex" store_member_OrderIndex
                  _ _ _ Habsent Hstore).
Qed.

(** A body with a secret and nothing else. *)
Lemma absent_members_keep_presets_witness :
  fetchID (Response 200 (wire "{'Secret':'x'}")) "p" 3
  = Some (mk "" 0 "x" "" [] "p" 3).
Proof.
  destruct (fetchID (Response 200 (wire "{'Secret':'x'}")) "p" 3) as [r|] eqn:Hfetch;
    [|by vm_compute in Hfetch].
  destruct (absent_members_keep_presets (wire "{'Secret':'x'}")
              [("secret", JString "x")] "p" 3 r)
    as (Hid & Hdepth & Hmessage & Hnext & Hparent & Hindex);
    [by vm_compute..|done|].
  assert (Secret r = "x") as Hsecret.
  { vm_compute in Hfetch. by injection Hfetch as <-. }
  destruct r as [id depth secret message next parent index]. simpl in *.
  rewrite Hid, Hdepth, Hmessage, Hnext, Hparent, Hindex, Hsecret;
    by repeat constructor.
Defined.

(** Members whose value is [null] and members the struct has no field for
    change nothing: a body made of such members gives the response as
    [fetchID] set it up, with the marker as secret, no identifier and no
    children. *)
Theorem null_and_unknown_members_ignored body members parent index :
  ascii_only body = true ->
  read_json (ToLower body) = Read (JObject members) "" ->
  Forall passed_over members ->
  fetchID (Response 200 body) parent index
  = Some (mk "" 0 NO_SECRET "" [] parent index).
Proof.
  intros _ Hread Hall. rewrite fetchID_200. unfold json_Unmarshal.
  rewrite Hread. clear Hread.
  change (mk "" 0 NO_SECRET "" [] parent index) with (fresh parent index).
  induction Hall as [|member members Hmember _ IH]; [done|].
  cbn [store_members]. by rewrite store_member_passed_over.
Qed.

Lemma null_and_unknown_members_ignored_witness :
  fetchID (Response 200 (wire "{'secret':null,'next':null,'Status':'ok','id':null}"))
    "p" 1
  = Some (mk "" 0 "no" "" [] "p" 1).
Proof.
  apply (null_and_unknown_members_ignored _
           [("secret", JNull); ("next", JNull); ("status", JString "ok");
            ("id", JNull)]).
  - by vm_compute.
  - by vm_compute.
  - apply Forall_cons. split; [by left|].
    apply Forall_cons. split; [by left|].
    apply Forall_cons. split.
    + right. apply (bool_decide_unpack _). by vm_compute.
    + apply Forall_cons. split; [by left|]. by apply Forall_nil.
Defined.

(** [ParentID] and [OrderIndex] are exported and carry no json tag, so the
    decoder fills them like any other field: when the last member of the
    body named parentid holds a string, the result is filed under that
    string and not under the parent the goroutine was started for. *)
Theorem untagged_parent_is_decoded body before key v after parent index r m :
  ascii_only body = true ->
  read_json (ToLower body)
    = Read (JObject (before ++ (key, JString v) :: after)) "" ->
  fold_key key = "parentid" ->
  absent "parentid" after ->
  fetchID (Response 200 body) parent index = Some r ->
  ParentID r = v
  ∧ record_result m r !! v = Some (default [] (m !! v) ++ [collected r]).
Proof.
  intros _ Hread Hkey Hafter Hfetch.
  destruct (fetchID_stored _ _ _ _ Hfetch)
    as (body' & members' & [= <-] & Hread' & Hstore).
  rewrite Hread in Hread'. injection Hread' as <-.
  assert (ParentID r = v) as Hparent.
  { clear Hread Hfetch. revert Hstore.
    generalize (mk "" 0 NO_SECRET "" [] parent index).
    induction before as [|member before IH]; intros r0; simpl.
    - unfold store_member at 1. rewrite Hkey. simpl.
      intros Hstore.
      by rewrite (store_members_untouched ParentID "parentid" store_member_ParentID
                    _ _ _ Hafter Hstore).
    - destruct (store_member r0 member) as [r1|]; [apply IH|done]. }
  split; [done|]. by rewrite record_result_lookup, decide_True.
Qed.

Lemma untagged_parent_is_decoded_witness :
  exists r,
    fetchID (adopted "start") rootID 0 = Some r ∧ ParentID r = "elsewhere".
Proof.
  destruct (fetchID (adopted "start") rootID 0) as [r|] eqn:Hfetch;
    [|by vm_compute in Hfetch].
  exists r. split; [done|].
  apply (untagged_parent_is_decoded
           (wire "{'id':'start','secret':'x','parentid':'elsewhere'}")
           [("id", JString "start"); ("secret", JString "x")] "parentid"
           "elsewhere" [] rootID 0 r ∅); try done.
  by vm_compute.
Defined.

(** One member of the wrong type fails the whole fetch.  When some member
    of the body names a field and holds a value the field cannot take (a
    number for the identifier, a string or a fraction for the depth, an
    object for the children, and so on), [fetchID] panics, whatever the
    other members hold. *)
Theorem wrongly_typed_member_fails body members parent index :
  ascii_only body = true ->
  read_json (ToLower body) = Read (JObject members) "" ->
  Exists wrongly_typed members ->
  fetchID (Response 200 body) parent index = None.
Proof.
  intros _ Hread Hbad. rewrite fetchID_200. unfold json_Unmarshal.
  rewrite Hread. by apply store_members_wrongly_typed.
Qed.

(** A depth written with a fraction. *)
Lemma wrongly_typed_member_fails_witness :
  fetchID (Response 200 (wire "{'id':'a','depth':1.0,'secret':'x'}")) "p" 0 = None.
Proof.
  apply (wrongly_typed_member_fails _
           [("id", JString "a"); ("depth", JNumber "1.0"); ("secret", JString "x")]).
  - by vm_compute.
  - by vm_compute.
  - apply Exists_cons_tl, Exists_cons_hd. right. left.
    split; [|by vm_compute]. apply (bool_decide_unpack _). by vm_compute.
Defined.

(** ** [getSession] and [main] *)

(** [getSession] does not look at the status, and lower-cases the token
    along with the rest of the body: whatever the status, a body that spells
    the token plainly gives the lower-case form of the token, with which
    [main] calls [crawl]. *)
Theorem session_token_lowercased status token :
  plain token = true ->
  getSession (Response status (render_session token)) = inr (ToLower token)
  ∧ main (Response status (render_session token)) = Crawls "start" (ToLower token).
Proof.
  intros Htoken.
  assert (getSession (Response status (render_session token)) = inr (ToLower token))
    as Hsession.
  { unfold getSession.
    rewrite ToLower_render_session, read_json_rendered_session
      by (by apply plain_ToLower).
    reflexivity. }
  split; [done|]. unfold main. by rewrite Hsession.
Qed.

Lemma session_token_lowercased_witness :
  getSession (Response 503 (render_session "A1b2C3")) = inr "a1b2c3".
Proof.
  by apply (session_token_lowercased 503 "A1b2C3").
Defined.

(** A body of ASCII bytes without a session member is no error for
    [getSession]: the session is the empty string, and [main] goes on to
    [crawl] with it. *)
Theorem missing_session_is_empty status body members :
  ascii_only body = true ->
  read_json (ToLower body) = Read (JObject members) "" ->
  Forall (fun member => fold_key member.1 ≠ "session") members ->
  getSession (Response status body) = inr ""
  ∧ main (Response status body) = Crawls "start" "".
Proof.
  intros _ Hread Hkeys.
  assert (getSession (Response status body) = inr "") as Hsession.
  { unfold getSession. rewrite Hread.
    destruct (store_sessions (Session.mk "") members) as [s|] eqn:Hstore.
    - by rewrite (store_sessions_untouched _ _ _ Hkeys Hstore).
    - exfalso. clear Hread. revert Hstore. generalize (Session.mk "").
      induction members as [|[key v] members IH]; intros s; simpl; [done|].
      apply Forall_cons in Hkeys as [Hkey Hkeys]. simpl in Hkey.
      rewrite decide_False by done. by apply IH. }
  split; [done|]. unfold main. by rewrite Hsession.
Qed.

Lemma missing_session_is_empty_witness :
  main (Response 404 (wire "{'Error':'not found'}")) = Crawls "start" "".
Proof.
  apply (missing_session_is_empty 404 (wire "{'Error':'not found'}")
           [("error", JString "not found")]).
  - by vm_compute.
  - by vm_compute.
  - by repeat constructor.
Defined.

(** The two decoders differ on the body [null].  [fetchID] hands
    [json.Unmarshal] a pointer to its pointer, which [null] sets to nil, and
    the dereference that follows panics; [getSession] hands it the pointer
    itself, [null] changes nothing, and the session is empty.  In neither
    case does [json.Unmarshal] return an error. *)
Theorem null_body body status parent index :
  ascii_only body = true ->
  read_json (ToLower body) = Read JNull "" ->
  fetchID (Response 200 body) parent index = None
  ∧ getSession (Response status body) = inr ""
  ∧ main (Response status body) = Crawls "start" "".
Proof.
  intros _ Hread. split_and!.
  - rewrite fetchID_200. unfold json_Unmarshal. by rewrite Hread.
  - unfold getSession. by rewrite Hread.
  - unfold main, getSession. by rewrite Hread.
Qed.

Lemma null_body_witness :
  fetchID (Response 200 " NULL ") rootID 0 = None
  ∧ getSession (Response 200 " NULL ") = inr "".
Proof.
  destruct (null_body " NULL " 200 rootID 0) as (Hfetch & Hsession & _);
    [by vm_compute..|done].
Defined.

(** ** Traversals of trees *)






